(** * pyalgotrade.technical: caches, event windows and moving averages

    A shallow embedding of [pyalgotrade/technical/__init__.py] and
    [pyalgotrade/technical/ma.py].

    - Python exceptions are the [Raise] results of a small error monad.
    - A [dict] keyed by positions is a [gmap Z _]; the insertion log of the
      FIFO cache is a [list Z].
    - Python's [None] is [None]. The moving averages are embedded twice.
      In the first embedding a float is an exact rational ([Qc]): it carries
      the statements about the structure of the windows and about the
      formulas as such. In the second, [Double], a float is an IEEE 754
      binary64 number and every operation rounds as Python's does: it
      carries the statements that depend on rounding. *)

From Stdlib Require Import Floats.
From Stdlib Require Uint63.
From Stdlib Require Import QArith Qcanon.
From stdpp Require Import gmap list numbers.

Open Scope Z_scope.

(** ** Exceptions *)

Inductive exn : Set :=
  | AssertionError
  | KeyError
  | IndexError
  | TypeError
  | ZeroDivisionError
  | NotImplementedError.

Inductive result (A : Type) : Type :=
  | Ok (a : A)
  | Raise (e : exn).
Arguments Ok {A} a.
Arguments Raise {A} e.

Global Instance exn_eq_dec : EqDecision exn.
Proof. solve_decision. Defined.
Global Instance result_eq_dec {A} `{EqDecision A} : EqDecision (result A).
Proof. solve_decision. Defined.

(** Sequencing: an exception raised by the first statement propagates.
    With these instances stdpp's [x ← m; k] notation is the bind. *)
Global Instance result_ret : MRet result := λ A a, Ok a.
Global Instance result_bind : MBind result := λ A B f m,
  match m with
  | Ok a => f a
  | Raise e => Raise e
  end.

(** [assert(b)] *)
Definition assert (b : bool) : result unit :=
  if b then Ok tt else Raise AssertionError.

(** ** class FIFOCache *)

Module FIFOCache.
Section cache.
Context {V : Type}.

(** [self.__size], [self.__cache], [self.__pos] *)
Record t : Type := Build {
  size_ : Z;
  cache : gmap Z V;
  pos : list Z
}.

Definition init (size : Z) : result t :=
  _ ← assert (bool_decide (size > 0));
  Ok {| size_ := size; cache := ∅; pos := [] |}.

Definition isCached (self : t) (p : Z) : bool :=
  bool_decide (is_Some (cache self !! p)).

Definition getValue (self : t) (p : Z) (default : V) : V :=
  match cache self !! p with
  | Some v => v
  | None => default
  end.

(** [list.pop(0)] *)
Definition pop0 (l : list Z) : result (Z * list Z) :=
  match l with
  | [] => Raise IndexError
  | k :: rest => Ok (k, rest)
  end.

(** [del d[k]] *)
Definition del (d : gmap Z V) (k : Z) : result (gmap Z V) :=
  match d !! k with
  | Some _ => Ok (delete k d)
  | None => Raise KeyError
  end.

Definition putValue (self : t) (p : Z) (value : V) : result t :=
  let cache1 := <[p := value]> (cache self) in
  let pos1 := pos self ++ [p] in
  (* Free up an entry if necessary *)
  if bool_decide (Z.of_nat (size cache1) > size_ self) then
    '(k, pos2) ← pop0 pos1;
    cache2 ← del cache1 k;
    Ok {| size_ := size_ self; cache := cache2; pos := pos2 |}
  else
    Ok {| size_ := size_ self; cache := cache1; pos := pos1 |}.

(** A sequence of [putValue] calls, in order. *)
Fixpoint putValues (self : t) (kvs : list (Z * V)) : result t :=
  match kvs with
  | [] => Ok self
  | (p, v) :: kvs' => self' ← putValue self p v; putValues self' kvs'
  end.

End cache.
Arguments t V : clear implicits.
End FIFOCache.

(** ** class NoCache *)

Module NoCache.
Section cache.
Context {V : Type}.

Definition isCached (p : Z) : bool := false.

Definition getValue (p : Z) (default : V) : V := default.

(** [putValue] is [pass]: there is no state to change. *)
Definition putValue (p : Z) (value : V) : result unit := Ok tt.

End cache.
End NoCache.

(** ** class Cache: the interface, dispatched on the concrete class *)

Module Cache.
Section cache.
Context {V : Type}.

Inductive t : Type :=
  | FIFO (c : FIFOCache.t V)
  | Null.

Definition isCached (self : t) (p : Z) : bool :=
  match self with
  | FIFO c => FIFOCache.isCached c p
  | Null => NoCache.isCached p
  end.

Definition getValue (self : t) (p : Z) (default : V) : V :=
  match self with
  | FIFO c => FIFOCache.getValue c p default
  | Null => NoCache.getValue p default
  end.

Definition putValue (self : t) (p : Z) (value : V) : result t :=
  match self with
  | FIFO c => c' ← FIFOCache.putValue c p value; Ok (FIFO c')
  | Null => _ ← NoCache.putValue p value; Ok Null
  end.

End cache.
Arguments t V : clear implicits.
End Cache.

(** ** class TechnicalIndicatorBase *)

Module TechnicalIndicatorBase.
Section indicator.
(** The type of the numbers an indicator computes. *)
Context {X : Type}.

(** What the cache's [getValue] can return in [getValueAbsolute]: the
    sentinel class [Cache.ValueNotCached] or a stored result, which as a
    Python value may be [None]. *)
Inductive cval : Type :=
  | ValueNotCached
  | Value (v : option X).

(** [self.__windowSize], [self.__cache] *)
Record t : Type := Build {
  windowSize : Z;
  cache : Cache.t cval
}.

Definition DefaultCacheSize : Z := 512.

Definition init (windowSize cacheSize : Z) : result t :=
  _ ← assert (bool_decide (windowSize > 0));
  if bool_decide (cacheSize > 0) then
    c ← FIFOCache.init cacheSize;
    Ok {| windowSize := windowSize; cache := Cache.FIFO c |}
  else
    Ok {| windowSize := windowSize; cache := Cache.Null |}.

(** The methods a subclass and the wrapped data series provide:
    [getFirstValidPos()], [getLength()] and the override of
    [calculateValue(firstPos, lastPos)]. They are read at each call, so
    they may differ from one call to the next (the series grows). *)
Record env : Type := Env {
  getFirstValidPos : Z;
  getLength : Z;
  calculateValue : Z → Z → result (option X)
}.

(** [calculateValue] of the base class itself. *)
Definition calculateValue_base (firstPos lastPos : Z) : result (option X) :=
  Raise NotImplementedError.

(** The outcome of one [getValueAbsolute]: the returned value, the
    indicator afterwards, and the [calculateValue] invocations made. *)
Record outcome : Type := Outcome {
  ret : option X;
  self' : t;
  invoked : list (Z * Z)
}.

Definition getValueAbsolute (e : env) (self : t) (pos : Z) : result outcome :=
  if bool_decide (pos < getFirstValidPos e) || bool_decide (pos >= getLength e) then
    Ok (Outcome None self [])
  else
    (* Try to get the value from the cache. *)
    match Cache.getValue (cache self) pos ValueNotCached with
    | ValueNotCached =>
        let firstPos := pos - windowSize self + 1 in
        _ ← assert (bool_decide (firstPos >= 0));
        r ← calculateValue e firstPos pos;
        match r with
        | Some _ =>
            c ← Cache.putValue (cache self) pos (Value r);
            Ok (Outcome r {| windowSize := windowSize self; cache := c |}
                        [(firstPos, pos)])
        | None => Ok (Outcome r self [(firstPos, pos)])
        end
    | Value v => Ok (Outcome v self [])
    end.

(** Calls of [getValueAbsolute] one after the other, each with the
    environment current at that call; the returned values and the
    [calculateValue] invocations are collected in order. *)
Fixpoint getValuesAbsolute (self : t) (calls : list (env * Z))
    : result (list (option X) * t * list (Z * Z)) :=
  match calls with
  | [] => Ok ([], self, [])
  | (e, pos) :: calls' =>
      o ← getValueAbsolute e self pos;
      '(rs, final, inv) ← getValuesAbsolute (self' o) calls';
      Ok (ret o :: rs, final, invoked o ++ inv)
  end.

End indicator.
Arguments t X : clear implicits.
Arguments env X : clear implicits.
Arguments cval X : clear implicits.
Arguments outcome X : clear implicits.
End TechnicalIndicatorBase.

(** ** class DataSeriesFilter *)

Module DataSeriesFilter.
Section filter.
Context {X : Type}.

(** The wrapped [dataSeries], as far as the filter reads it. *)
Record dataSeries : Type := DataSeries {
  ds_getFirstValidPos : Z;
  ds_getLength : Z
}.

Record t : Type := Build {
  base : TechnicalIndicatorBase.t X;
  firstValidPos : Z
}.

(** [TechnicalIndicatorBase.__init__(self, windowSize)]: the cache size
    is left at its default. *)
Definition init (ds : dataSeries) (windowSize : Z) : result t :=
  b ← TechnicalIndicatorBase.init windowSize TechnicalIndicatorBase.DefaultCacheSize;
  Ok {| base := b; firstValidPos := (windowSize - 1) + ds_getFirstValidPos ds |}.

Definition getFirstValidPos (self : t) : Z := firstValidPos self.

Definition getLength (ds : dataSeries) : Z := ds_getLength ds.

(** What [getValueAbsolute] reads of a filter over [ds] whose subclass
    overrides [calculateValue] with [calc]. *)
Definition env_of (self : t) (ds : dataSeries)
    (calc : Z → Z → result (option X)) : TechnicalIndicatorBase.env X :=
  TechnicalIndicatorBase.Env (getFirstValidPos self) (getLength ds) calc.

End filter.
Arguments t X : clear implicits.
End DataSeriesFilter.

(** ** Python numbers and sequences in [ma.py] *)

(** [float(n)] *)
Definition float (n : Z) : Qc := Qc_of_Z n.

(** [x / d] on floats. *)
Definition pydiv (x d : Qc) : result Qc :=
  if bool_decide (d = 0%Qc) then Raise ZeroDivisionError else Ok (x / d)%Qc.

(** [xrange(begin, end)] *)
Definition xrange (begin end_ : Z) : list Z := seqZ begin (end_ - begin).

(** [values[i]]: a negative index counts from the end. *)
Definition getitem {A} (values : list A) (i : Z) : result A :=
  let len := Z.of_nat (length values) in
  let j := if bool_decide (i < 0) then i + len else i in
  if bool_decide (j < 0) then Raise IndexError
  else match values !! Z.to_nat j with
       | Some a => Ok a
       | None => Raise IndexError
       end.

(** The loop of [calculate_sma]; [Ok None] is its [return None]. *)
Fixpoint calculate_sma_loop (values : list (option Qc)) (idx : list Z)
    (accum : Qc) : result (option Qc) :=
  match idx with
  | [] => Ok (Some accum)
  | i :: idx' =>
      value ← getitem values i;
      match value with
      | None => Ok None
      | Some x => calculate_sma_loop values idx' (accum + x)%Qc
      end
  end.

Definition calculate_sma (values : list (option Qc)) (begin end_ : Z)
    : result (option Qc) :=
  r ← calculate_sma_loop values (xrange begin end_) 0%Qc;
  match r with
  | None => Ok None
  | Some accum => q ← pydiv accum (float (end_ - begin)); Ok (Some q)
  end.

(** ** class EventWindow *)

(** [collections.deque(maxlen=n).append(x)]: once over [maxlen], the
    leftmost element is discarded. *)
Definition deque_append {A} (maxlen : Z) (d : list A) (x : A) : list A :=
  let d1 := d ++ [x] in
  if bool_decide (Z.of_nat (length d1) > maxlen) then tail d1 else d1.

Module EventWindow.
(** [self.__values], [self.__windowSize]. The [dateTime] argument of
    [onNewValue] is not read by any window and is left out. *)
Record t : Type := Build {
  getValues : list (option Qc);
  getWindowSize : Z
}.

Definition init (windowSize : Z) : result t :=
  _ ← assert (bool_decide (windowSize > 0));
  Ok {| getValues := []; getWindowSize := windowSize |}.

Definition onNewValue (self : t) (value : option Qc) : t :=
  match value with
  | Some _ =>
      {| getValues := deque_append (getWindowSize self) (getValues self) value;
         getWindowSize := getWindowSize self |}
  | None => self
  end.

(** [getValue] of the base class. *)
Definition getValue (self : t) : result (option Qc) := Raise NotImplementedError.
End EventWindow.

(** [len(self.getValues())] *)
Definition len (w : EventWindow.t) : Z := Z.of_nat (length (EventWindow.getValues w)).

(** ** class SMAEventWindow *)

Module SMAEventWindow.
Record t : Type := Build {
  window : EventWindow.t;
  value_ : option Qc
}.

Definition init (period : Z) : result t :=
  _ ← assert (bool_decide (period > 0));
  w ← EventWindow.init period;
  Ok {| window := w; value_ := None |}.

(** The first lines of [onNewValue]: the oldest buffered value, read
    before the push. *)
Definition firstValue (w : EventWindow.t) : result (option Qc) :=
  if bool_decide (len w > 0) then
    fv ← getitem (EventWindow.getValues w) 0;
    _ ← assert (bool_decide (fv ≠ None));
    Ok fv
  else Ok None.

(** [x op None] raises [TypeError]. *)
Definition num (v : option Qc) : result Qc :=
  match v with
  | Some x => Ok x
  | None => Raise TypeError
  end.

Definition onNewValue (self : t) (value : option Qc) : result t :=
  fv ← firstValue (window self);
  let w := EventWindow.onNewValue (window self) value in
  if bool_decide (value ≠ None)
     && bool_decide (len w = EventWindow.getWindowSize w) then
    match value_ self with
    | None =>
        r ← calculate_sma (EventWindow.getValues w) 0 (EventWindow.getWindowSize w);
        Ok {| window := w; value_ := r |}
    | Some old =>
        x ← num value;
        a ← pydiv x (float (EventWindow.getWindowSize w));
        f ← num fv;
        b ← pydiv f (float (EventWindow.getWindowSize w));
        Ok {| window := w; value_ := Some (old + a - b)%Qc |}
    end
  else Ok {| window := w; value_ := value_ self |}.

Definition getValue (self : t) : option Qc := value_ self.
End SMAEventWindow.

(** ** class EMAEventWindow *)

Module EMAEventWindow.
Record t : Type := Build {
  window : EventWindow.t;
  multiplier : Qc;
  value_ : option Qc
}.

Definition init (period : Z) : result t :=
  _ ← assert (bool_decide (period > 1));
  w ← EventWindow.init period;
  m ← pydiv 2%Qc (float (period + 1));
  Ok {| window := w; multiplier := m; value_ := None |}.

Definition onNewValue (self : t) (value : option Qc) : result t :=
  let w := EventWindow.onNewValue (window self) value in
  if bool_decide (value ≠ None)
     && bool_decide (len w = EventWindow.getWindowSize w) then
    match value_ self with
    | None =>
        r ← calculate_sma (EventWindow.getValues w) 0 (len w);
        Ok {| window := w; multiplier := multiplier self; value_ := r |}
    | Some old =>
        x ← SMAEventWindow.num value;
        Ok {| window := w; multiplier := multiplier self;
              value_ := Some ((x - old) * multiplier self + old)%Qc |}
    end
  else Ok {| window := w; multiplier := multiplier self; value_ := value_ self |}.

Definition getValue (self : t) : option Qc := value_ self.
End EMAEventWindow.

(** ** class WMAEventWindow *)

Module WMAEventWindow.
Record t : Type := Build {
  window : EventWindow.t;
  weights : list Qc
}.

Definition init (weights : list Qc) : result t :=
  _ ← assert (bool_decide (Z.of_nat (length weights) > 0));
  w ← EventWindow.init (Z.of_nat (length weights));
  Ok {| window := w; weights := weights |}.

(** [onNewValue] is inherited from [EventWindow]. *)
Definition onNewValue (self : t) (value : option Qc) : result t :=
  Ok {| window := EventWindow.onNewValue (window self) value;
        weights := weights self |}.

(** The loop of [getValue] over [enumerate(self.getValues())]. *)
Fixpoint getValue_loop (weights : list Qc) (ivs : list (nat * option Qc))
    (accum weightSum : Qc) : result (Qc * Qc) :=
  match ivs with
  | [] => Ok (accum, weightSum)
  | (i, value) :: ivs' =>
      weight ← getitem weights (Z.of_nat i);
      x ← SMAEventWindow.num value;
      getValue_loop weights ivs' (accum + x * weight)%Qc (weightSum + weight)%Qc
  end.

Definition getValue (self : t) : result (option Qc) :=
  if bool_decide (len (window self) = EventWindow.getWindowSize (window self)) then
    '(accum, weightSum) ← getValue_loop (weights self)
        (imap (λ i v, (i, v)) (EventWindow.getValues (window self))) 0%Qc 0%Qc;
    q ← pydiv accum weightSum;
    Ok (Some q)
  else Ok None.
End WMAEventWindow.

(** ** class EventBasedFilter *)

(** The interface the filter uses of its event window. *)
Class EventWindowLike (W : Type) : Type := {
  ew_onNewValue : W → option Qc → result W;
  ew_getValue : W → result (option Qc)
}.

Global Instance SMA_window : EventWindowLike SMAEventWindow.t := {|
  ew_onNewValue := SMAEventWindow.onNewValue;
  ew_getValue := λ w, Ok (SMAEventWindow.getValue w)
|}.

Global Instance EMA_window : EventWindowLike EMAEventWindow.t := {|
  ew_onNewValue := EMAEventWindow.onNewValue;
  ew_getValue := λ w, Ok (EMAEventWindow.getValue w)
|}.

Global Instance WMA_window : EventWindowLike WMAEventWindow.t := {|
  ew_onNewValue := WMAEventWindow.onNewValue;
  ew_getValue := WMAEventWindow.getValue
|}.

Module EventBasedFilter.
Section filter.
Context {W : Type} `{EventWindowLike W}.

(** [self.__eventWindow] and the values appended to the filter's own
    sequence so far. *)
Record t : Type := Build {
  eventWindow : W;
  appended : list (option Qc)
}.

Definition init (w : W) : t := {| eventWindow := w; appended := [] |}.

(** [__onNewValue], the handler of the wrapped series' new-value event. *)
Definition onNewValue (self : t) (value : option Qc) : result t :=
  w ← ew_onNewValue (eventWindow self) value;
  newValue ← ew_getValue w;
  Ok {| eventWindow := w; appended := appended self ++ [newValue] |}.

(** The wrapped series appends [values], one event each. *)
Fixpoint feed (self : t) (values : list (option Qc)) : result t :=
  match values with
  | [] => Ok self
  | v :: values' => self' ← onNewValue self v; feed self' values'
  end.

End filter.
Arguments t W : clear implicits.
End EventBasedFilter.

(** [SMA(dataSeries, period)], [EMA(dataSeries, period)] and
    [WMA(dataSeries, weights)] *)
Definition SMA (period : Z) : result (EventBasedFilter.t SMAEventWindow.t) :=
  w ← SMAEventWindow.init period; Ok (EventBasedFilter.init w).
Definition EMA (period : Z) : result (EventBasedFilter.t EMAEventWindow.t) :=
  w ← EMAEventWindow.init period; Ok (EventBasedFilter.init w).
Definition WMA (weights : list Qc) : result (EventBasedFilter.t WMAEventWindow.t) :=
  w ← WMAEventWindow.init weights; Ok (EventBasedFilter.init w).

(** * Invariants and reference definitions *)

(** The last [n] elements of a list (all of it when it is shorter). *)
Definition lastn {A} (n : nat) (l : list A) : list A :=
  drop (length l - n) l.

Section fifo_spec.
Context {V : Type}.
Implicit Types c : FIFOCache.t V.

(** The state of a cache whose every [putValue] was for a position not
    cached at that moment: the log lists the cached positions, each
    once, oldest first, and there are at most [size] of them. *)
Definition fifo_wf c : Prop :=
  0 < FIFOCache.size_ c
  ∧ NoDup (FIFOCache.pos c)
  ∧ dom (FIFOCache.cache c) = list_to_set (FIFOCache.pos c)
  ∧ Z.of_nat (length (FIFOCache.pos c)) ≤ FIFOCache.size_ c.

(** [putValue c p v] succeeds and removes the cached position [k]. *)
Definition evicts c (p : Z) (v : V) (k : Z) : Prop :=
  ∃ c', FIFOCache.putValue c p v = Ok c'
        ∧ FIFOCache.isCached c k = true ∧ FIFOCache.isCached c' k = false.
End fifo_spec.

Section indicator_spec.
Context {X : Type}.

(** The cache of an indicator that only [getValueAbsolute] has changed:
    the bounded cache is well formed and holds present results only. *)
Definition cache_inv (c : Cache.t (TechnicalIndicatorBase.cval X)) : Prop :=
  match c with
  | Cache.FIFO f =>
      fifo_wf f
      ∧ ∀ p v, FIFOCache.cache f !! p = Some v →
               ∃ x, v = TechnicalIndicatorBase.Value (Some x)
  | Cache.Null => True
  end.
End indicator_spec.

(** ** Reference definitions for the event windows *)

(** The present samples of a history of pushed samples, in order. *)
Definition present (vs : list (option Qc)) : list Qc := omap id vs.

Definition Qcsum (l : list Qc) : Qc := foldr Qcplus 0%Qc l.

(** The direct average: sum the values, then divide by their number. *)
Definition average (l : list Qc) : Qc :=
  (Qcsum l / float (Z.of_nat (length l)))%Qc.

(** The simple moving average over the last [n] of the present samples
    [ps], absent until there are [n] of them. *)
Definition sma_ref (n : nat) (ps : list Qc) : option Qc :=
  if decide (n ≤ length ps)%nat then Some (average (lastn n ps)) else None.

(** The exponential moving average: seeded with the average of the first
    [n] present samples, then one [ema_step] per further present sample. *)
Definition ema_step (multiplier prev x : Qc) : Qc :=
  ((x - prev) * multiplier + prev)%Qc.

Definition ema_ref (n : nat) (multiplier : Qc) (ps : list Qc) : option Qc :=
  if decide (n ≤ length ps)%nat
  then Some (foldl (ema_step multiplier) (average (take n ps)) (drop n ps))
  else None.

(** The values a filter appends while the samples [vs] arrive after the
    present samples [ps], when its window holds [ref] of the present
    samples so far. *)
Fixpoint outputs (ref : list Qc → option Qc) (ps : list Qc)
    (vs : list (option Qc)) : list (option Qc) :=
  match vs with
  | [] => []
  | v :: vs' => ref (ps ++ present [v]) :: outputs ref (ps ++ present [v]) vs'
  end.

(** A sequence of [onNewValue] calls on an event window. *)
Fixpoint ew_feed {W} `{EventWindowLike W} (w : W) (vs : list (option Qc))
    : result W :=
  match vs with
  | [] => Ok w
  | v :: vs' => w' ← ew_onNewValue w v; ew_feed w' vs'
  end.

(** The buffer of a window of size [n] after the present samples [ps]. *)
Definition EW_inv (n : nat) (w : EventWindow.t) (ps : list Qc) : Prop :=
  EventWindow.getWindowSize w = Z.of_nat n
  ∧ EventWindow.getValues w = Some <$> lastn n ps.

Definition SMA_inv (n : nat) (w : SMAEventWindow.t) (ps : list Qc) : Prop :=
  EW_inv n (SMAEventWindow.window w) ps
  ∧ SMAEventWindow.value_ w = sma_ref n ps.

Definition EMA_inv (n : nat) (w : EMAEventWindow.t) (ps : list Qc) : Prop :=
  EW_inv n (EMAEventWindow.window w) ps
  ∧ EMAEventWindow.multiplier w = (2 / float (Z.of_nat n + 1))%Qc
  ∧ EMAEventWindow.value_ w
    = ema_ref n (2 / float (Z.of_nat n + 1))%Qc ps.

Definition WMA_inv (weights : list Qc) (w : WMAEventWindow.t) (ps : list Qc) : Prop :=
  EW_inv (length weights) (WMAEventWindow.window w) ps
  ∧ WMAEventWindow.weights w = weights.

(** ** Sample inputs *)

(** An indicator over integers with window size 2 and an empty bounded
    cache of capacity 4, one with the null cache, and a series of five
    positions whose results are present from position 1 on, except at
    position 4. *)
Definition sample_indicator : TechnicalIndicatorBase.t Z :=
  TechnicalIndicatorBase.Build 2 (Cache.FIFO (FIFOCache.Build 4 ∅ [])).
Definition sample_uncached_indicator : TechnicalIndicatorBase.t Z :=
  TechnicalIndicatorBase.Build 2 Cache.Null.
Definition sample_env : TechnicalIndicatorBase.env Z :=
  TechnicalIndicatorBase.Env 1 5
    (λ firstPos lastPos, Ok (if bool_decide (lastPos = 4) then None
                             else Some (firstPos + lastPos))).

(** ** Reference definitions for the indicator base *)

Section indicator_ref.
Context {X : Type}.

(** The methods of an indicator over a series with first valid position
    [first] and [length_] positions, whose [calculateValue] is the function
    [calc] and does not raise. *)
Definition series_env (calc : Z → Z → option X) (first length_ : Z)
    : TechnicalIndicatorBase.env X :=
  TechnicalIndicatorBase.Env first length_ (λ firstPos lastPos, Ok (calc firstPos lastPos)).

(** What such an indicator returns at [pos] when nothing is cached. *)
Definition direct_value (calc : Z → Z → option X)
    (first length_ windowSize pos : Z) : option X :=
  if bool_decide (pos < first) || bool_decide (pos >= length_) then None
  else calc (pos - windowSize + 1) pos.

(** Every stored result is what [calc] gives for its position. *)
Definition cache_agrees (calc : Z → Z → option X) (windowSize : Z)
    (c : Cache.t (TechnicalIndicatorBase.cval X)) : Prop :=
  match c with
  | Cache.FIFO f =>
      ∀ p v, FIFOCache.cache f !! p = Some (TechnicalIndicatorBase.Value v) →
             v = calc (p - windowSize + 1) p
  | Cache.Null => True
  end.

(** The same kind of cache with the same capacity. *)
Definition same_capacity (c c' : Cache.t (TechnicalIndicatorBase.cval X)) : Prop :=
  match c, c' with
  | Cache.FIFO f, Cache.FIFO f' => FIFOCache.size_ f' = FIFOCache.size_ f
  | Cache.Null, Cache.Null => True
  | _, _ => False
  end.
End indicator_ref.

(** The [calculateValue] of [sample_env] as a function. *)
Definition sample_calc (firstPos lastPos : Z) : option Z :=
  if bool_decide (lastPos = 4) then None else Some (firstPos + lastPos).

(** A series of six positions, valid from position 0. *)
Definition sample_series : DataSeriesFilter.dataSeries :=
  DataSeriesFilter.DataSeries 0 6.

(** The filter with window size 2 that [DataSeriesFilter.init] builds over
    [sample_series], and [sample_indicator] once position 3 is cached. *)
Definition sample_filter : DataSeriesFilter.t Z :=
  DataSeriesFilter.Build
    (TechnicalIndicatorBase.Build 2 (Cache.FIFO (FIFOCache.Build 512 ∅ []))) 1.
Definition sample_cached_indicator : TechnicalIndicatorBase.t Z :=
  TechnicalIndicatorBase.Build 2
    (Cache.FIFO (FIFOCache.Build 4 {[3 := TechnicalIndicatorBase.Value (Some 5)]} [3])).

(** A full bounded cache of capacity 2 holding positions 5 and 6. *)
Definition sample_cache : FIFOCache.t Z :=
  FIFOCache.Build 2 {[5 := 50; 6 := 60]} [5; 6].

(** * The arithmetic of [ma.py] in IEEE doubles *)

(** A Python float is an IEEE 754 binary64 number, and [+], [-], [*] and
    [/] on floats round to nearest, ties to even: the primitive floats.
    [Double] embeds [calculate_sma], [SMAEventWindow], [WMAEventWindow]
    and the filter once more, with samples and weights that are Python
    floats. *)
Definition double : Set := PrimFloat.float.

Module Double.

(** [float(n)] for an int [n] with [|n| < 2^63]; a window size is such a
    number, since [collections.deque] takes no larger [maxlen]. *)
Definition float (n : Z) : double :=
  if bool_decide (n < 0)
  then PrimFloat.opp (PrimFloat.of_uint63 (Uint63.of_Z (- n)))
  else PrimFloat.of_uint63 (Uint63.of_Z n).

(** [x / d] on floats: a zero divisor of either sign raises, any other
    divisor gives the rounded quotient. *)
Definition pydiv (x d : double) : result double :=
  if PrimFloat.eqb d 0%float then Raise ZeroDivisionError
  else Ok (x / d)%float.

(** The loop of [calculate_sma]. The accumulator starts as the int [0],
    which the first [accum += value] converts to [0.0]. *)
Fixpoint calculate_sma_loop (values : list (option double)) (idx : list Z)
    (accum : double) : result (option double) :=
  match idx with
  | [] => Ok (Some accum)
  | i :: idx' =>
      value ← getitem values i;
      match value with
      | None => Ok None
      | Some x => calculate_sma_loop values idx' (accum + x)%float
      end
  end.

Definition calculate_sma (values : list (option double)) (begin end_ : Z)
    : result (option double) :=
  r ← calculate_sma_loop values (xrange begin end_) 0%float;
  match r with
  | None => Ok None
  | Some accum => q ← pydiv accum (float (end_ - begin)); Ok (Some q)
  end.

(** [class EventWindow], as above, with a buffer of doubles. *)
Module EventWindow.
Record t : Type := Build {
  getValues : list (option double);
  getWindowSize : Z
}.

Definition init (windowSize : Z) : result t :=
  _ ← assert (bool_decide (windowSize > 0));
  Ok {| getValues := []; getWindowSize := windowSize |}.

Definition onNewValue (self : t) (value : option double) : t :=
  match value with
  | Some _ =>
      {| getValues := deque_append (getWindowSize self) (getValues self) value;
         getWindowSize := getWindowSize self |}
  | None => self
  end.
End EventWindow.

(** [len(self.getValues())] *)
Definition len (w : EventWindow.t) : Z :=
  Z.of_nat (length (EventWindow.getValues w)).

(** [x op None] raises [TypeError]. *)
Definition num (v : option double) : result double :=
  match v with
  | Some x => Ok x
  | None => Raise TypeError
  end.

(** [class SMAEventWindow] *)
Module SMAEventWindow.
Record t : Type := Build {
  window : EventWindow.t;
  value_ : option double
}.

Definition init (period : Z) : result t :=
  _ ← assert (bool_decide (period > 0));
  w ← EventWindow.init period;
  Ok {| window := w; value_ := None |}.

Definition firstValue (w : EventWindow.t) : result (option double) :=
  if bool_decide (len w > 0) then
    fv ← getitem (EventWindow.getValues w) 0;
    _ ← assert (bool_decide (is_Some fv));
    Ok fv
  else Ok None.

(** The incremental branch is
    [self.__value + value / float(N) - firstValue / float(N)]: the two
    quotients are rounded, then the sum, then the difference. *)
Definition onNewValue (self : t) (value : option double) : result t :=
  fv ← firstValue (window self);
  let w := EventWindow.onNewValue (window self) value in
  if bool_decide (is_Some value)
     && bool_decide (len w = EventWindow.getWindowSize w) then
    match value_ self with
    | None =>
        r ← calculate_sma (EventWindow.getValues w) 0 (EventWindow.getWindowSize w);
        Ok {| window := w; value_ := r |}
    | Some old =>
        x ← num value;
        a ← pydiv x (float (EventWindow.getWindowSize w));
        f ← num fv;
        b ← pydiv f (float (EventWindow.getWindowSize w));
        Ok {| window := w; value_ := Some (old + a - b)%float |}
    end
  else Ok {| window := w; value_ := value_ self |}.

Definition getValue (self : t) : option double := value_ self.
End SMAEventWindow.

(** [class WMAEventWindow], with weights that are floats. *)
Module WMAEventWindow.
Record t : Type := Build {
  window : EventWindow.t;
  weights : list double
}.

Definition init (weights : list double) : result t :=
  _ ← assert (bool_decide (Z.of_nat (length weights) > 0));
  w ← EventWindow.init (Z.of_nat (length weights));
  Ok {| window := w; weights := weights |}.

Definition onNewValue (self : t) (value : option double) : result t :=
  Ok {| window := EventWindow.onNewValue (window self) value;
        weights := weights self |}.

(** The loop of [getValue]: [accum] and [weightSum] both start as the int
    [0] and are floats from the first addition on. *)
Fixpoint getValue_loop (weights : list double) (ivs : list (nat * option double))
    (accum weightSum : double) : result (double * double) :=
  match ivs with
  | [] => Ok (accum, weightSum)
  | (i, value) :: ivs' =>
      weight ← getitem weights (Z.of_nat i);
      x ← num value;
      getValue_loop weights ivs' (accum + x * weight)%float
        (weightSum + weight)%float
  end.

(** [float(weightSum)] of a float is that float. *)
Definition getValue (self : t) : result (option double) :=
  if bool_decide (len (window self) = EventWindow.getWindowSize (window self)) then
    '(accum, weightSum) ← getValue_loop (weights self)
        (imap (λ i v, (i, v)) (EventWindow.getValues (window self)))
        0%float 0%float;
    q ← pydiv accum weightSum;
    Ok (Some q)
  else Ok None.
End WMAEventWindow.

(** [class EventBasedFilter] and the interface it uses of its window. *)
Class EventWindowLike (W : Type) : Type := {
  ew_onNewValue : W → option double → result W;
  ew_getValue : W → result (option double)
}.

#[global] Instance SMA_window : EventWindowLike SMAEventWindow.t := {|
  ew_onNewValue := SMAEventWindow.onNewValue;
  ew_getValue := λ w, Ok (SMAEventWindow.getValue w)
|}.

#[global] Instance WMA_window : EventWindowLike WMAEventWindow.t := {|
  ew_onNewValue := WMAEventWindow.onNewValue;
  ew_getValue := WMAEventWindow.getValue
|}.

Module EventBasedFilter.
Section filter.
Context {W : Type} `{EventWindowLike W}.

Record t : Type := Build {
  eventWindow : W;
  appended : list (option double)
}.

Definition init (w : W) : t := {| eventWindow := w; appended := [] |}.

Definition onNewValue (self : t) (value : option double) : result t :=
  w ← ew_onNewValue (eventWindow self) value;
  newValue ← ew_getValue w;
  Ok {| eventWindow := w; appended := appended self ++ [newValue] |}.

Fixpoint feed (self : t) (values : list (option double)) : result t :=
  match values with
  | [] => Ok self
  | v :: values' => self' ← onNewValue self v; feed self' values'
  end.

End filter.
Arguments t W : clear implicits.
End EventBasedFilter.

Definition SMA (period : Z) : result (EventBasedFilter.t SMAEventWindow.t) :=
  w ← SMAEventWindow.init period; Ok (EventBasedFilter.init w).
Definition WMA (weights : list double)
    : result (EventBasedFilter.t WMAEventWindow.t) :=
  w ← WMAEventWindow.init weights; Ok (EventBasedFilter.init w).

(** ** Reference definitions on doubles *)

Definition present (vs : list (option double)) : list double := omap id vs.

(** The sum as a loop computes it: [((0 + x0) + x1) + ...], each addition
    rounded. *)
Definition sum (l : list double) : double := foldl PrimFloat.add 0%float l.

(** One incremental step: [old + newest / n - oldest / n]. *)
Definition sma_step (n old : double) (xa : double * double) : double :=
  (old + xa.1 / n - xa.2 / n)%float.

(** The value held after the present samples [ps]: absent before [N] of
    them, the rounded sum of the first [N] over [N] when the window is
    first full, and from then on one [sma_step] per sample, which pairs
    the sample [N + j] with the sample [j] that leaves the window. *)
Definition sma_ref (N : nat) (ps : list double) : option double :=
  if decide (N ≤ length ps)%nat
  then Some (foldl (sma_step (float (Z.of_nat N)))
               (sum (take N ps) / float (Z.of_nat N))%float
               (zip (drop N ps) ps))
  else None.

(** The weighted sum as the loop of [getValue] computes it. *)
Definition dot (xs weights : list double) : double :=
  foldl (λ accum xw, accum + xw.1 * xw.2)%float 0%float (zip xs weights).

Definition wma_ref (weights : list double) (ps : list double) : option double :=
  if decide (length weights ≤ length ps)%nat
  then Some (dot (lastn (length weights) ps) weights / sum weights)%float
  else None.

Fixpoint outputs (ref : list double → option double) (ps : list double)
    (vs : list (option double)) : list (option double) :=
  match vs with
  | [] => []
  | v :: vs' => ref (ps ++ present [v]) :: outputs ref (ps ++ present [v]) vs'
  end.

(** [a] is within the relative tolerance [tol] of [b]. *)
Definition within (tol a b : double) : bool :=
  (PrimFloat.abs (a - b) <=? tol * PrimFloat.abs b)%float.

Definition EW_inv (n : nat) (w : EventWindow.t) (ps : list double) : Prop :=
  EventWindow.getWindowSize w = Z.of_nat n
  ∧ EventWindow.getValues w = Some <$> lastn n ps.

Definition SMA_inv (n : nat) (w : SMAEventWindow.t) (ps : list double) : Prop :=
  EW_inv n (SMAEventWindow.window w) ps
  ∧ SMAEventWindow.value_ w = sma_ref n ps.

Definition WMA_inv (weights : list double) (w : WMAEventWindow.t)
    (ps : list double) : Prop :=
  EW_inv (length weights) (WMAEventWindow.window w) ps
  ∧ WMAEventWindow.weights w = weights.

End Double.

(** * Properties *)

Lemma Ok_bind {A B} (a : A) (f : A → result B) : Ok a ≫= f = f a.
Proof. done. Qed.

(** ** The FIFO cache *)

Section fifo_facts.
Context {V : Type}.
Implicit Types c : FIFOCache.t V.

Lemma fifo_init_wf size c : FIFOCache.init size = Ok c →
  fifo_wf c ∧ FIFOCache.size_ c = size ∧ FIFOCache.pos c = [] ∧ FIFOCache.cache c = ∅.
Proof.
  unfold FIFOCache.init. case_bool_decide; simpl; [|done].
  intros [= <-]. unfold fifo_wf. simpl.
  split_and!; try done; try lia. constructor.
Qed.

Lemma fifo_wf_size c : fifo_wf c →
  size (FIFOCache.cache c) = length (FIFOCache.pos c).
Proof.
  intros (_ & Hnd & Hdom & _).
  rewrite <-size_dom, Hdom. by apply size_list_to_set.
Qed.

Lemma fifo_wf_cached c p : fifo_wf c →
  FIFOCache.isCached c p = true ↔ p ∈ FIFOCache.pos c.
Proof.
  intros (_ & _ & Hdom & _). unfold FIFOCache.isCached.
  rewrite bool_decide_eq_true, <-elem_of_dom, Hdom. set_solver.
Qed.

Lemma fifo_not_cached c p :
  FIFOCache.isCached c p = false ↔ FIFOCache.cache c !! p = None.
Proof.
  unfold FIFOCache.isCached. rewrite bool_decide_eq_false.
  rewrite <-eq_None_not_Some. done.
Qed.

(** Inserting an uncached position while there is room. *)
Lemma putValue_fresh_room c p v :
  fifo_wf c → FIFOCache.cache c !! p = None →
  Z.of_nat (length (FIFOCache.pos c)) < FIFOCache.size_ c →
  FIFOCache.putValue c p v
  = Ok (FIFOCache.Build (FIFOCache.size_ c) (<[p := v]> (FIFOCache.cache c))
                        (FIFOCache.pos c ++ [p])).
Proof.
  intros Hwf Hp Hlt. unfold FIFOCache.putValue.
  rewrite map_size_insert_None by done. rewrite (fifo_wf_size c Hwf).
  case_bool_decide; [lia|done].
Qed.

(** Inserting an uncached position into a full cache drops the head of
    the log. *)
Lemma putValue_fresh_full c p v k rest :
  fifo_wf c → FIFOCache.cache c !! p = None →
  FIFOCache.pos c = k :: rest →
  Z.of_nat (length (FIFOCache.pos c)) = FIFOCache.size_ c →
  FIFOCache.putValue c p v
  = Ok (FIFOCache.Build (FIFOCache.size_ c)
          (delete k (<[p := v]> (FIFOCache.cache c))) (rest ++ [p])).
Proof.
  intros Hwf Hp Hpos Hfull. unfold FIFOCache.putValue.
  rewrite map_size_insert_None by done. rewrite (fifo_wf_size c Hwf).
  case_bool_decide; [|lia]. rewrite Hpos. simpl.
  unfold FIFOCache.del.
  assert (is_Some (FIFOCache.cache c !! k)) as [w Hw].
  { apply elem_of_dom. destruct Hwf as (_ & _ & -> & _). rewrite Hpos. set_solver. }
  assert (k ≠ p) by congruence.
  rewrite lookup_insert_ne by done. rewrite Hw. done.
Qed.

Lemma putValue_fresh c p v :
  fifo_wf c → FIFOCache.cache c !! p = None →
  ∃ c', FIFOCache.putValue c p v = Ok c' ∧ fifo_wf c'
        ∧ FIFOCache.size_ c' = FIFOCache.size_ c
        ∧ FIFOCache.cache c' !! p = Some v
        ∧ (∀ k w, FIFOCache.cache c' !! k = Some w →
                  k = p ∧ w = v ∨ FIFOCache.cache c !! k = Some w)
        ∧ FIFOCache.pos c'
          = (if bool_decide (Z.of_nat (length (FIFOCache.pos c)) < FIFOCache.size_ c)
             then FIFOCache.pos c else tail (FIFOCache.pos c)) ++ [p].
Proof.
  intros Hwf Hp.
  assert (p ∉ FIFOCache.pos c) as Hnotin.
  { intros Hin. apply (fifo_wf_cached c p Hwf) in Hin.
    apply fifo_not_cached in Hp. congruence. }
  pose proof Hwf as (Hsz & Hnd & Hdom & Hlen).
  destruct (decide (Z.of_nat (length (FIFOCache.pos c)) < FIFOCache.size_ c)) as [Hlt|Hge].
  - eexists. split; [by apply putValue_fresh_room|]. simpl.
    split; [|split; [done|split; [by rewrite lookup_insert_eq|split]]];
      [| |by rewrite bool_decide_eq_true_2].
    + repeat split; simpl; try done.
      * rewrite list.NoDup_app. split_and!; [done| |apply NoDup_singleton].
        intros x Hx ->%list_elem_of_singleton. done.
      * rewrite dom_insert_L, Hdom, list_to_set_app_L. set_solver.
      * rewrite length_app. simpl. lia.
    + intros k w. destruct (decide (k = p)) as [->|].
      * rewrite lookup_insert_eq. intros [= <-]. by left.
      * rewrite lookup_insert_ne by done. by right.
  - destruct (FIFOCache.pos c) as [|k rest] eqn:Hpos; [simpl in *; lia|].
    assert (k ≠ p) by (intros ->; apply Hnotin; left).
    eexists. split.
    { apply putValue_fresh_full; [done..|by rewrite Hpos|rewrite Hpos; lia]. }
    simpl. apply list.NoDup_cons in Hnd as [Hk Hnd].
    split; [|split; [done|split; [|split]]];
      [| | |by rewrite bool_decide_eq_false_2].
    + repeat split; simpl; try done.
      * rewrite list.NoDup_app. split_and!; [done| |apply NoDup_singleton].
        intros x Hx ->%list_elem_of_singleton. apply Hnotin. by right.
      * rewrite dom_delete_L, dom_insert_L, Hdom, list_to_set_app_L. simpl.
        set_solver.
      * rewrite length_app. simpl in *. lia.
    + rewrite lookup_delete_ne by done. by rewrite lookup_insert_eq.
    + intros k' w. destruct (decide (k' = k)) as [->|].
      { by rewrite lookup_delete_eq. }
      rewrite lookup_delete_ne by done.
      destruct (decide (k' = p)) as [->|].
      * rewrite lookup_insert_eq. intros [= <-]. by left.
      * rewrite lookup_insert_ne by done. by right.
Qed.
End fifo_facts.

Lemma lastn_all {A} (n : nat) (l : list A) : (length l ≤ n)%nat → lastn n l = l.
Proof. intros. unfold lastn. by replace (length l - n)%nat with 0%nat by lia. Qed.

Lemma lastn_length {A} (n : nat) (l : list A) :
  length (lastn n l) = (length l `min` n)%nat.
Proof. unfold lastn. rewrite length_drop. lia. Qed.

Lemma tail_drop {A} (n : nat) (l : list A) : tail (drop n l) = drop (S n) l.
Proof.
  revert n. induction l as [|a l IH]; intros [|n]; simpl; done.
Qed.

Lemma lastn_snoc {A} (n : nat) (l : list A) (x : A) :
  (0 < n)%nat →
  lastn n (l ++ [x])
  = (if bool_decide (length (lastn n l) < n)%nat then lastn n l
     else tail (lastn n l)) ++ [x].
Proof.
  intros Hn. unfold lastn. rewrite length_app, length_drop. simpl.
  case_bool_decide as Hlt.
  - assert (length l < n)%nat by lia.
    replace (length l + 1 - n)%nat with 0%nat by lia.
    replace (length l - n)%nat with 0%nat by lia. done.
  - assert (n ≤ length l)%nat by lia.
    replace (length l + 1 - n)%nat with (S (length l - n)) by lia.
    rewrite drop_app_le by lia. f_equal.
    by rewrite tail_drop.
Qed.

Section fifo_sequences.
Context {V : Type}.
Implicit Types c : FIFOCache.t V.

(** Inserting positions that are new to the log, one after the other:
    every call succeeds and the log keeps the last [size] of them. *)
Lemma putValues_fresh c (kvs : list (Z * V)) :
  fifo_wf c → NoDup (FIFOCache.pos c ++ kvs.*1) →
  ∃ c', FIFOCache.putValues c kvs = Ok c' ∧ fifo_wf c'
        ∧ FIFOCache.size_ c' = FIFOCache.size_ c
        ∧ FIFOCache.pos c'
          = lastn (Z.to_nat (FIFOCache.size_ c)) (FIFOCache.pos c ++ kvs.*1).
Proof.
  revert c. induction kvs as [|[p v] kvs IH]; intros c Hwf Hnd.
  - exists c. simpl. rewrite app_nil_r. split_and!; try done.
    rewrite lastn_all; [done|]. destruct Hwf as (_ & _ & _ & ?). lia.
  - rewrite fmap_cons, cons_middle, app_assoc in Hnd |- *. simpl fst in *.
    assert (FIFOCache.cache c !! p = None) as Hp.
    { apply fifo_not_cached. apply not_true_is_false.
      rewrite (fifo_wf_cached c p Hwf). intros Hin.
      apply list.NoDup_app in Hnd as (Hnd & _ & _).
      apply list.NoDup_app in Hnd as (_ & Hd & _). apply (Hd p Hin). left. }
    destruct (putValue_fresh c p v Hwf Hp) as (c1 & Hput & Hwf1 & Hsz1 & _ & _ & Hpos1).
    cbn [FIFOCache.putValues]. rewrite Hput. simpl.
    destruct (IH c1 Hwf1) as (c' & -> & Hwf' & Hsz' & Hpos').
    { rewrite Hpos1. case_bool_decide; [done|].
      destruct (FIFOCache.pos c) as [|k t]; [done|].
      simpl in *. by apply list.NoDup_cons in Hnd as [_ ?]. }
    exists c'. split_and!; [done..|congruence|].
    rewrite Hpos', Hsz1, Hpos1. case_bool_decide as Hlt; [done|].
    destruct Hwf as (? & _ & _ & Hle).
    destruct (FIFOCache.pos c) as [|k t]; [simpl in *; lia|].
    simpl in *. unfold lastn. simpl. rewrite !length_app. simpl.
    replace (S (length t + 1 + length kvs.*1) - Z.to_nat (FIFOCache.size_ c))%nat
      with (S (length t + 1 + length kvs.*1 - Z.to_nat (FIFOCache.size_ c)))%nat by lia.
    done.
Qed.
End fifo_sequences.

(** ** C1: [putValue] after an overwrite *)

(** On a miss [getValue] returns the supplied default; it is a total
    function, as is [isCached]. *)
Lemma fifo_getValue_miss {V} (c : FIFOCache.t V) (p : Z) (default : V) :
  FIFOCache.isCached c p = false → FIFOCache.getValue c p default = default.
Proof. intros Hp%fifo_not_cached. unfold FIFOCache.getValue. by rewrite Hp. Qed.

(** C1. [putValue] does not succeed on every sequence of calls. An
    overwrite of a cached position appends that position to the log a
    second time. With capacity 1, [putValue(1, a)], [putValue(1, b)] and
    [putValue(2, c)] leave position 2 cached and the log [1; 2]: the
    eviction removed one log entry for position 1 and the other is stale.
    The next insertion, [putValue(3, d)], pops the stale entry and its
    [del] raises [KeyError]. *)
Theorem fifo_putValue_overwrite_raises {V} (a b c d : V) :
  ∃ c0 c3,
    FIFOCache.init 1 = Ok c0
    ∧ FIFOCache.putValues c0 [(1, a); (1, b); (2, c)] = Ok c3
    ∧ FIFOCache.pos c3 = [1; 2]
    ∧ FIFOCache.isCached c3 1 = false
    ∧ FIFOCache.isCached c3 2 = true
    ∧ FIFOCache.putValue c3 3 d = Raise KeyError.
Proof.
  eexists _, _. split; [reflexivity|]. split; [vm_compute; reflexivity|].
  split_and!; vm_compute; reflexivity.
Qed.

(** ** C2: the eviction order *)

(** C2, as stated, fails. With capacity 2 and positions 0, 1, 2 inserted
    in that order, re-inserting position 0 finds the cache full and itself
    evicts position 1; the next fresh insertion (position 3) therefore
    does not evict position 1, which is already gone, but position 2. *)
Lemma fifo_reinsert_counterexample :
  ∃ s1 s2 : FIFOCache.t Z,
    (c ← FIFOCache.init 2; FIFOCache.putValues c [(0, 10); (1, 11); (2, 12)]) = Ok s1
    ∧ FIFOCache.putValue s1 0 13 = Ok s2
    ∧ ¬ evicts s2 3 14 1
    ∧ evicts s2 3 14 2.
Proof.
  eexists _, _. split; [vm_compute; reflexivity|]. split; [vm_compute; reflexivity|].
  split.
  - intros (c' & _ & Hc & _). vm_compute in Hc. done.
  - eexists. split; [vm_compute; reflexivity|]. split; vm_compute; reflexivity.
Qed.

(** C2, amended. Starting from a new cache of capacity [C], inserting the
    [C + 1] distinct positions [p0], [p1], [rest] in that order leaves [p0]
    uncached and every other one cached. Re-inserting [p0] then succeeds,
    puts [p0] at the back of the log and, the cache being full, itself
    evicts [p1]. The next insertion of a fresh position [q] evicts the
    position then at the head of the log: the one inserted after [p1] when
    [C ≥ 2] (and [p0] stays cached), [p0] itself when [C = 1]. *)
Theorem fifo_eviction_order {V} (C p0 p1 : Z) (v0 v1 : V) (rest : list (Z * V))
    (v0' : V) (q : Z) (w : V) :
  Z.of_nat (length rest) + 1 = C →
  NoDup (p0 :: p1 :: rest.*1 ++ [q]) →
  ∃ c0 s1 s2 s3,
    FIFOCache.init C = Ok c0
    ∧ FIFOCache.putValues c0 ((p0, v0) :: (p1, v1) :: rest) = Ok s1
    ∧ FIFOCache.isCached s1 p0 = false
    ∧ (∀ p, p ∈ p1 :: rest.*1 → FIFOCache.isCached s1 p = true)
    ∧ FIFOCache.putValue s1 p0 v0' = Ok s2
    ∧ evicts s1 p0 v0' p1
    ∧ FIFOCache.pos s2 = rest.*1 ++ [p0]
    ∧ FIFOCache.putValue s2 q w = Ok s3
    ∧ FIFOCache.pos s3 = tail (rest.*1 ++ [p0]) ++ [q]
    ∧ (∀ k, head (rest.*1 ++ [p0]) = Some k → evicts s2 q w k)
    ∧ (rest ≠ [] → FIFOCache.isCached s3 p0 = true).
Proof.
  intros HC Hnd.
  assert (FIFOCache.init (V:=V) C = Ok (FIFOCache.Build C ∅ [])) as Hinit.
  { unfold FIFOCache.init. rewrite bool_decide_eq_true_2 by lia. done. }
  destruct (fifo_init_wf _ _ Hinit) as (Hwf0 & _).
  apply list.NoDup_cons in Hnd as [Hp0 Hnd].
  assert (NoDup (p1 :: rest.*1) ∧ q ∉ (p1 :: rest.*1)) as [Hnd1 Hq1].
  { rewrite app_comm_cons in Hnd. apply list.NoDup_app in Hnd as (? & Hd & _).
    split; [done|]. intros Hin. apply (Hd q Hin). left. }
  assert ((p0 ∉ p1 :: rest.*1) ∧ p0 ≠ q) as [Hp01 Hp0q].
  { rewrite app_comm_cons in Hp0. rewrite list.elem_of_app in Hp0.
    rewrite list_elem_of_singleton in Hp0. naive_solver. }
  destruct (putValues_fresh _ ((p0, v0) :: (p1, v1) :: rest) Hwf0)
    as (s1 & Hs1 & Hwf1 & Hsz1 & Hpos1).
  { simpl. apply list.NoDup_cons. done. }
  simpl in Hsz1, Hpos1.
  assert (FIFOCache.pos s1 = p1 :: rest.*1) as Hpos1'.
  { rewrite Hpos1. unfold lastn. simpl. rewrite length_fmap.
    replace (S (S (length rest)) - Z.to_nat C)%nat with 1%nat by lia. done. }
  clear Hpos1.
  assert (FIFOCache.isCached s1 p0 = false) as Hc0.
  { apply not_true_is_false. rewrite (fifo_wf_cached s1 p0 Hwf1), Hpos1'. done. }
  destruct (putValue_fresh s1 p0 v0' Hwf1) as (s2 & Hs2 & Hwf2 & Hsz2 & _ & _ & Hpos2).
  { by apply fifo_not_cached. }
  rewrite Hpos1', bool_decide_eq_false_2 in Hpos2
    by (simpl; rewrite length_fmap; lia).
  simpl in Hpos2.
  assert (FIFOCache.isCached s2 q = false) as Hcq.
  { apply not_true_is_false. rewrite (fifo_wf_cached s2 q Hwf2), Hpos2.
    rewrite list.elem_of_app, list_elem_of_singleton.
    intros [Hin| ->]; [|done]. apply Hq1. by right. }
  destruct (putValue_fresh s2 q w Hwf2) as (s3 & Hs3 & Hwf3 & Hsz3 & _ & _ & Hpos3).
  { by apply fifo_not_cached. }
  rewrite Hpos2, bool_decide_eq_false_2 in Hpos3
    by (rewrite length_app, length_fmap; simpl; lia).
  exists (FIFOCache.Build C ∅ []), s1, s2, s3.
  split_and!; try done.
  - intros p Hp. rewrite (fifo_wf_cached s1 p Hwf1), Hpos1'. done.
  - exists s2. split_and!; [done| |].
    + rewrite (fifo_wf_cached s1 p1 Hwf1), Hpos1'. left.
    + apply not_true_is_false. rewrite (fifo_wf_cached s2 p1 Hwf2), Hpos2.
      rewrite list.elem_of_app, list_elem_of_singleton.
      apply list.NoDup_cons in Hnd1 as [? _].
      intros [?| ->]; [done|]. apply Hp01. left.
  - intros k Hk. exists s3. split_and!; [done| |].
    + rewrite (fifo_wf_cached s2 k Hwf2), Hpos2.
      by apply head_Some_elem_of.
    + apply not_true_is_false. rewrite (fifo_wf_cached s3 k Hwf3), Hpos3.
      pose proof Hwf2 as (_ & Hnd2 & _). rewrite Hpos2 in Hnd2.
      destruct (rest.*1 ++ [p0]) as [|k' t] eqn:Heq; [done|].
      simpl in Hk. injection Hk as ->. simpl.
      apply list.NoDup_cons in Hnd2 as [Hk _].
      rewrite list.elem_of_app, list_elem_of_singleton.
      intros [?| ->]; [done|].
      apply not_true_iff_false in Hcq. apply Hcq.
      rewrite (fifo_wf_cached s2 q Hwf2), Hpos2. left.
  - intros Hrest. rewrite (fifo_wf_cached s3 p0 Hwf3), Hpos3.
    destruct rest as [|[p2 v2] rest']; [done|]. simpl.
    rewrite !list.elem_of_app, !list_elem_of_singleton. auto.
Qed.

Lemma fifo_eviction_order_witness :
  (Z.of_nat (length [(2, 12)]) + 1 = 2
   ∧ NoDup (0 :: 1 :: [(2, 12)].*1 ++ [3]))
  ∧ ∃ c0 s1 s2 s3 : FIFOCache.t Z,
      FIFOCache.init 2 = Ok c0
      ∧ FIFOCache.putValues c0 [(0, 10); (1, 11); (2, 12)] = Ok s1
      ∧ FIFOCache.isCached s1 0 = false
      ∧ (∀ p, p ∈ 1 :: [(2, 12)].*1 → FIFOCache.isCached s1 p = true)
      ∧ FIFOCache.putValue s1 0 13 = Ok s2
      ∧ evicts s1 0 13 1
      ∧ FIFOCache.pos s2 = [(2, 12)].*1 ++ [0]
      ∧ FIFOCache.putValue s2 3 14 = Ok s3
      ∧ FIFOCache.pos s3 = tail ([(2, 12)].*1 ++ [0]) ++ [3]
      ∧ (∀ k, head ([(2, 12)].*1 ++ [0]) = Some k → evicts s2 3 14 k)
      ∧ ([(2, 12)] ≠ [] → FIFOCache.isCached s3 0 = true).
Proof.
  assert (Z.of_nat (length [(2, 12)]) + 1 = 2) as H1 by reflexivity.
  assert (NoDup (0 :: 1 :: [(2, 12)].*1 ++ [3])) as H2 by (by apply (bool_decide_unpack _)).
  split; [split; assumption|].
  exact (fifo_eviction_order 2 0 1 10 11 [(2, 12)] 13 3 14 H1 H2).
Defined.

(** ** The indicator base: [getValueAbsolute] *)

Section indicator_facts.
Context {X : Type}.
Import TechnicalIndicatorBase.
Implicit Types (e : env X) (self : t X) (pos : Z).

Lemma in_bounds_test e pos :
  getFirstValidPos e ≤ pos < getLength e →
  bool_decide (pos < getFirstValidPos e) || bool_decide (pos >= getLength e) = false.
Proof. intros. rewrite !bool_decide_eq_false_2 by lia. done. Qed.

Lemma init_inv windowSize cacheSize self :
  init (X:=X) windowSize cacheSize = Ok self →
  0 < windowSize ∧ TechnicalIndicatorBase.windowSize self = windowSize
  ∧ cache_inv (cache self)
  ∧ (if bool_decide (cacheSize > 0)
     then ∃ f, cache self = Cache.FIFO f ∧ FIFOCache.size_ f = cacheSize
               ∧ FIFOCache.cache f = ∅
     else cache self = Cache.Null).
Proof.
  unfold init, assert.
  destruct (bool_decide_reflect (windowSize > 0)) as [Hws|Hws]; simpl; [|done].
  case_bool_decide as Hcs; simpl.
  - unfold FIFOCache.init. rewrite bool_decide_eq_true_2 by done. simpl.
    intros [= <-]. simpl. split; [lia|split; [done|split; [|eauto]]].
    split.
    + apply (fifo_init_wf cacheSize). unfold FIFOCache.init.
      by rewrite bool_decide_eq_true_2.
    + intros p v. by rewrite lookup_empty.
  - intros [= <-]. simpl. split_and!; [lia|done..].
Qed.

(** A miss, as [getValueAbsolute] sees it, is an uncached position. *)
Lemma getValue_miss (c : Cache.t (cval X)) pos :
  cache_inv c →
  Cache.getValue c pos ValueNotCached = ValueNotCached
  ↔ Cache.isCached c pos = false.
Proof.
  destruct c as [f|]; simpl; [|done]. intros [_ Hval].
  rewrite fifo_not_cached. unfold FIFOCache.getValue.
  destruct (FIFOCache.cache f !! pos) as [v|] eqn:Hv; [|done].
  destruct (Hval _ _ Hv) as [x ->]. done.
Qed.

Lemma getValueAbsolute_hit e self pos v :
  getFirstValidPos e ≤ pos < getLength e →
  Cache.getValue (cache self) pos ValueNotCached = Value v →
  getValueAbsolute e self pos = Ok (Outcome v self []).
Proof.
  intros Hb Hv. unfold getValueAbsolute.
  rewrite in_bounds_test by done. by rewrite Hv.
Qed.

Lemma getValuesAbsolute_hits e self pos v n :
  getFirstValidPos e ≤ pos < getLength e →
  Cache.getValue (cache self) pos ValueNotCached = Value v →
  getValuesAbsolute self (replicate n (e, pos)) = Ok (replicate n v, self, []).
Proof.
  intros Hb Hv. induction n as [|n IH]; [done|].
  simpl. rewrite (getValueAbsolute_hit e self pos v) by done.
  simpl. rewrite IH. done.
Qed.

Lemma getValueAbsolute_miss_absent e self pos :
  getFirstValidPos e ≤ pos < getLength e →
  0 ≤ pos - windowSize self + 1 →
  Cache.getValue (cache self) pos ValueNotCached = ValueNotCached →
  calculateValue e (pos - windowSize self + 1) pos = Ok None →
  getValueAbsolute e self pos
  = Ok (Outcome None self [(pos - windowSize self + 1, pos)]).
Proof.
  intros Hb Hfp Hmiss Hcalc. unfold getValueAbsolute.
  rewrite in_bounds_test by done. rewrite Hmiss.
  unfold assert. rewrite bool_decide_eq_true_2 by lia. simpl.
  rewrite Hcalc. done.
Qed.

Lemma getValueAbsolute_miss_present e self pos x :
  cache_inv (cache self) →
  getFirstValidPos e ≤ pos < getLength e →
  0 ≤ pos - windowSize self + 1 →
  Cache.isCached (cache self) pos = false →
  calculateValue e (pos - windowSize self + 1) pos = Ok (Some x) →
  ∃ self1,
    getValueAbsolute e self pos
    = Ok (Outcome (Some x) self1 [(pos - windowSize self + 1, pos)])
    ∧ windowSize self1 = windowSize self
    ∧ cache_inv (cache self1)
    ∧ match cache self with
      | Cache.FIFO _ =>
          Cache.getValue (cache self1) pos ValueNotCached = Value (Some x)
          ∧ Cache.isCached (cache self1) pos = true
      | Cache.Null => self1 = self
      end.
Proof.
  intros Hinv Hb Hfp Hnc Hcalc. unfold getValueAbsolute.
  rewrite in_bounds_test by done.
  rewrite (proj2 (getValue_miss _ pos Hinv) Hnc).
  unfold assert. rewrite bool_decide_eq_true_2 by lia. simpl.
  rewrite Hcalc. simpl. destruct self as [ws [f|]]; simpl in *.
  - destruct Hinv as [Hwf Hval].
    apply fifo_not_cached in Hnc.
    destruct (putValue_fresh f pos (Value (Some x)) Hwf Hnc)
      as (f' & -> & Hwf' & _ & Hlook & Hsub & _).
    simpl. eexists. split; [done|]. simpl. split_and!; [done|done| | |].
    + intros p v Hv. destruct (Hsub _ _ Hv) as [[_ ->]|Hv']; eauto.
    + unfold FIFOCache.getValue. by rewrite Hlook.
    + unfold FIFOCache.isCached. rewrite Hlook. by apply bool_decide_eq_true_2.
  - eexists. split; [done|]. done.
Qed.

(** Every call keeps the invariant: only present results are stored. *)
Lemma getValueAbsolute_inv e self pos o :
  cache_inv (cache self) →
  getValueAbsolute e self pos = Ok o →
  cache_inv (cache (self' o)) ∧ windowSize (self' o) = windowSize self.
Proof.
  intros Hinv. unfold getValueAbsolute.
  destruct (_ || _); [by intros [= <-]|].
  destruct (Cache.getValue (cache self) pos ValueNotCached) eqn:Hget;
    [|by intros [= <-]].
  apply (getValue_miss _ _ Hinv) in Hget.
  destruct (assert _); simpl; [|done].
  destruct (calculateValue e _ pos) as [[x|]|]; simpl; [| by intros [= <-] | done].
  destruct self as [ws [f|]]; simpl in *.
  - destruct Hinv as [Hwf Hval]. apply fifo_not_cached in Hget.
    destruct (putValue_fresh f pos (Value (Some x)) Hwf Hget)
      as (f' & -> & Hwf' & _ & _ & Hsub & _).
    simpl. intros [= <-]. simpl. split; [|done]. split; [done|].
    intros p v Hv. destruct (Hsub _ _ Hv) as [[_ ->]|Hv']; eauto.
  - by intros [= <-].
Qed.
End indicator_facts.

(** In a [DataSeriesFilter] over a series whose first valid position is
    not negative, the assertion [firstPos >= 0] holds at every in-bounds
    position. *)
Lemma DataSeriesFilter_firstPos_nonneg {X} (ds : DataSeriesFilter.dataSeries)
    (windowSize : Z) (self : DataSeriesFilter.t X)
    (calc : Z → Z → result (option X)) (pos : Z) :
  DataSeriesFilter.init ds windowSize = Ok self →
  0 ≤ DataSeriesFilter.ds_getFirstValidPos ds →
  TechnicalIndicatorBase.getFirstValidPos (DataSeriesFilter.env_of self ds calc) ≤ pos →
  0 ≤ pos - TechnicalIndicatorBase.windowSize (DataSeriesFilter.base self) + 1
  ∧ cache_inv (TechnicalIndicatorBase.cache (DataSeriesFilter.base self)).
Proof.
  unfold DataSeriesFilter.init.
  destruct (TechnicalIndicatorBase.init windowSize _) as [b|] eqn:Hb; simpl; [|done].
  intros [= <-]. simpl. intros Hds Hpos.
  destruct (init_inv _ _ _ Hb) as (_ & -> & Hinv & _). split; [lia|done].
Qed.

(** Three calls at position 3 of the sample series: with the bounded cache
    [calculateValue] is invoked once, with the null cache three times. *)
Example sample_indicator_calls :
  ∃ final,
    TechnicalIndicatorBase.getValuesAbsolute sample_indicator
      (replicate 3 (sample_env, 3))
    = Ok (replicate 3 (Some 5), final, [(2, 3)])
    ∧ Cache.isCached (TechnicalIndicatorBase.cache final) 3 = true.
Proof. eexists. split; vm_compute; reflexivity. Qed.

Example sample_uncached_indicator_calls :
  TechnicalIndicatorBase.getValuesAbsolute sample_uncached_indicator
    (replicate 3 (sample_env, 3))
  = Ok (replicate 3 (Some 5), sample_uncached_indicator, replicate 3 (2, 3)).
Proof. reflexivity. Qed.

(** ** C4: positions out of bounds *)

(** C4. For every position below the first valid position or at or beyond
    the length, [getValueAbsolute] returns [None], invokes [calculateValue]
    not at all and leaves the indicator, its cache included, as it was;
    this for every window size and every cache. *)
Theorem getValueAbsolute_out_of_bounds {X}
    (e : TechnicalIndicatorBase.env X) (self : TechnicalIndicatorBase.t X) (pos : Z) :
  pos < TechnicalIndicatorBase.getFirstValidPos e
  ∨ pos >= TechnicalIndicatorBase.getLength e →
  TechnicalIndicatorBase.getValueAbsolute e self pos
  = Ok (TechnicalIndicatorBase.Outcome None self []).
Proof.
  intros Hout. unfold TechnicalIndicatorBase.getValueAbsolute.
  destruct Hout as [Hlt|Hge].
  - by rewrite (bool_decide_eq_true_2 _ Hlt).
  - rewrite (bool_decide_eq_true_2 _ Hge). by rewrite orb_true_r.
Qed.

Lemma getValueAbsolute_out_of_bounds_witness :
  (7 < TechnicalIndicatorBase.getFirstValidPos sample_env
   ∨ 7 >= TechnicalIndicatorBase.getLength sample_env)
  ∧ TechnicalIndicatorBase.getValueAbsolute sample_env sample_indicator 7
    = Ok (TechnicalIndicatorBase.Outcome None sample_indicator []).
Proof.
  assert (7 < TechnicalIndicatorBase.getFirstValidPos sample_env
          ∨ 7 >= TechnicalIndicatorBase.getLength sample_env) as H
    by (right; simpl; lia).
  split; [exact H|].
  exact (getValueAbsolute_out_of_bounds sample_env sample_indicator 7 H).
Defined.

(** ** C3: the cache spares recomputation *)

(** C3. Take an indicator whose cache only [getValueAbsolute] has changed
    and [n] calls at one in-bounds position. If the position is cached,
    every call returns the cached value and [calculateValue] is not
    invoked. If it is not cached, the cache is the bounded one and
    [calculateValue] gives a present result, then the first call invokes
    [calculateValue] once, the position is cached from then on and the
    later calls return that result without another invocation. An
    indicator constructed with cache size 0 has the null cache, and with
    the null cache every call invokes [calculateValue]. *)
Theorem getValueAbsolute_cache_soundness {X}
    (e : TechnicalIndicatorBase.env X) (self : TechnicalIndicatorBase.t X)
    (pos firstPos : Z) (n : nat) :
  firstPos = pos - TechnicalIndicatorBase.windowSize self + 1 →
  cache_inv (TechnicalIndicatorBase.cache self) →
  TechnicalIndicatorBase.getFirstValidPos e ≤ pos < TechnicalIndicatorBase.getLength e →
  0 ≤ firstPos →
  (∀ v, Cache.getValue (TechnicalIndicatorBase.cache self) pos
          TechnicalIndicatorBase.ValueNotCached = TechnicalIndicatorBase.Value v →
     TechnicalIndicatorBase.getValuesAbsolute self (replicate n (e, pos))
     = Ok (replicate n v, self, []))
  ∧ (∀ f x, TechnicalIndicatorBase.cache self = Cache.FIFO f →
       Cache.isCached (TechnicalIndicatorBase.cache self) pos = false →
       TechnicalIndicatorBase.calculateValue e firstPos pos = Ok (Some x) →
       ∃ final,
         TechnicalIndicatorBase.getValuesAbsolute self (replicate (S n) (e, pos))
         = Ok (replicate (S n) (Some x), final, [(firstPos, pos)])
         ∧ Cache.isCached (TechnicalIndicatorBase.cache final) pos = true)
  ∧ (∀ r, TechnicalIndicatorBase.cache self = Cache.Null →
       TechnicalIndicatorBase.calculateValue e firstPos pos = Ok r →
       TechnicalIndicatorBase.getValuesAbsolute self (replicate n (e, pos))
       = Ok (replicate n r, self, replicate n (firstPos, pos)))
  ∧ (∀ windowSize self0,
       TechnicalIndicatorBase.init (X:=X) windowSize 0 = Ok self0 →
       TechnicalIndicatorBase.cache self0 = Cache.Null).
Proof.
  intros -> Hinv Hb Hfp. split_and!.
  - intros v Hv. by apply getValuesAbsolute_hits.
  - intros f x Hf Hnc Hcalc.
    destruct (getValueAbsolute_miss_present e self pos x Hinv Hb Hfp Hnc Hcalc)
      as (self1 & Hcall & _ & _ & Hcached).
    rewrite Hf in Hcached. destruct Hcached as [Hget Hc].
    exists self1. split; [|done].
    cbn [replicate TechnicalIndicatorBase.getValuesAbsolute].
    rewrite Hcall. simpl.
    rewrite (getValuesAbsolute_hits e self1 pos (Some x) n) by done.
    done.
  - intros r Hnull Hcalc. induction n as [|n IH]; [done|].
    cbn [replicate TechnicalIndicatorBase.getValuesAbsolute].
    assert (TechnicalIndicatorBase.getValueAbsolute e self pos
            = Ok (TechnicalIndicatorBase.Outcome r self
                    [(pos - TechnicalIndicatorBase.windowSize self + 1, pos)])) as ->.
    { destruct r as [x|].
      - destruct (getValueAbsolute_miss_present e self pos x Hinv Hb Hfp)
          as (self1 & Hcall & _ & _ & Hsame); [by rewrite Hnull|done|].
        rewrite Hnull in Hsame. by subst self1.
      - apply getValueAbsolute_miss_absent; [done..|by rewrite Hnull|done]. }
    simpl. rewrite IH. done.
  - intros ws self0 H0. by destruct (init_inv _ _ _ H0) as (_ & _ & _ & ?).
Qed.

Lemma sample_indicator_inv : cache_inv (TechnicalIndicatorBase.cache sample_indicator).
Proof.
  split.
  - unfold fifo_wf. simpl. split_and!; [lia|constructor|by rewrite dom_empty_L|lia].
  - intros p v. simpl. by rewrite lookup_empty.
Qed.

Lemma getValueAbsolute_cache_soundness_witness :
  (2 = 3 - TechnicalIndicatorBase.windowSize sample_indicator + 1
   ∧ cache_inv (TechnicalIndicatorBase.cache sample_indicator)
   ∧ TechnicalIndicatorBase.getFirstValidPos sample_env ≤ 3
     < TechnicalIndicatorBase.getLength sample_env
   ∧ 0 ≤ 2)
  ∧ ((∀ v, Cache.getValue (TechnicalIndicatorBase.cache sample_indicator) 3
             TechnicalIndicatorBase.ValueNotCached = TechnicalIndicatorBase.Value v →
        TechnicalIndicatorBase.getValuesAbsolute sample_indicator
          (replicate 2 (sample_env, 3))
        = Ok (replicate 2 v, sample_indicator, []))
     ∧ (∀ f x, TechnicalIndicatorBase.cache sample_indicator = Cache.FIFO f →
          Cache.isCached (TechnicalIndicatorBase.cache sample_indicator) 3 = false →
          TechnicalIndicatorBase.calculateValue sample_env 2 3 = Ok (Some x) →
          ∃ final,
            TechnicalIndicatorBase.getValuesAbsolute sample_indicator
              (replicate 3 (sample_env, 3))
            = Ok (replicate 3 (Some x), final, [(2, 3)])
            ∧ Cache.isCached (TechnicalIndicatorBase.cache final) 3 = true)
     ∧ (∀ r, TechnicalIndicatorBase.cache sample_indicator = Cache.Null →
          TechnicalIndicatorBase.calculateValue sample_env 2 3 = Ok r →
          TechnicalIndicatorBase.getValuesAbsolute sample_indicator
            (replicate 2 (sample_env, 3))
          = Ok (replicate 2 r, sample_indicator, replicate 2 (2, 3)))
     ∧ (∀ windowSize self0,
          TechnicalIndicatorBase.init (X:=Z) windowSize 0 = Ok self0 →
          TechnicalIndicatorBase.cache self0 = Cache.Null)).
Proof.
  assert (2 = 3 - TechnicalIndicatorBase.windowSize sample_indicator + 1) as H1
    by reflexivity.
  assert (TechnicalIndicatorBase.getFirstValidPos sample_env ≤ 3
          < TechnicalIndicatorBase.getLength sample_env) as H2 by (simpl; lia).
  assert (0 ≤ 2) as H3 by lia.
  refine (conj (conj H1 (conj sample_indicator_inv (conj H2 H3))) _).
  exact (getValueAbsolute_cache_soundness sample_env sample_indicator 3 2 2
           H1 sample_indicator_inv H2 H3).
Defined.

(** ** C5: absent results are not cached *)

(** C5. Take an indicator whose cache only [getValueAbsolute] has changed
    and an in-bounds position that is not cached. When [calculateValue]
    returns [None] there, [getValueAbsolute] returns [None] and leaves the
    indicator as it was, so the position is still not cached and a later
    call at that position invokes [calculateValue] again and returns what
    it then computes. Whatever a call does, the cache afterwards holds
    present results only. *)
Theorem getValueAbsolute_absent_not_cached {X}
    (e : TechnicalIndicatorBase.env X) (self : TechnicalIndicatorBase.t X)
    (pos firstPos : Z) :
  firstPos = pos - TechnicalIndicatorBase.windowSize self + 1 →
  cache_inv (TechnicalIndicatorBase.cache self) →
  TechnicalIndicatorBase.getFirstValidPos e ≤ pos < TechnicalIndicatorBase.getLength e →
  0 ≤ firstPos →
  Cache.isCached (TechnicalIndicatorBase.cache self) pos = false →
  TechnicalIndicatorBase.calculateValue e firstPos pos = Ok None →
  TechnicalIndicatorBase.getValueAbsolute e self pos
  = Ok (TechnicalIndicatorBase.Outcome None self [(firstPos, pos)])
  ∧ (∀ e' r,
       TechnicalIndicatorBase.getFirstValidPos e' ≤ pos
         < TechnicalIndicatorBase.getLength e' →
       TechnicalIndicatorBase.calculateValue e' firstPos pos = Ok r →
       ∃ final,
         TechnicalIndicatorBase.getValuesAbsolute self [(e, pos); (e', pos)]
         = Ok ([None; r], final, [(firstPos, pos); (firstPos, pos)]))
  ∧ (∀ e' pos' o,
       TechnicalIndicatorBase.getValueAbsolute e' self pos' = Ok o →
       cache_inv (TechnicalIndicatorBase.cache (TechnicalIndicatorBase.self' o))).
Proof.
  intros -> Hinv Hb Hfp Hnc Hcalc.
  assert (TechnicalIndicatorBase.getValueAbsolute e self pos
          = Ok (TechnicalIndicatorBase.Outcome None self
                  [(pos - TechnicalIndicatorBase.windowSize self + 1, pos)])) as Hcall.
  { apply getValueAbsolute_miss_absent; [done..| |done].
    by apply getValue_miss. }
  split_and!; [done| |].
  - intros e' r Hb' Hcalc'.
    cbn [TechnicalIndicatorBase.getValuesAbsolute]. rewrite Hcall. simpl.
    destruct r as [x|].
    + destruct (getValueAbsolute_miss_present e' self pos x Hinv Hb' Hfp Hnc Hcalc')
        as (self1 & -> & _).
      simpl. eauto.
    + rewrite (getValueAbsolute_miss_absent e' self pos Hb' Hfp); [simpl; eauto| |done].
      by apply getValue_miss.
  - intros e' pos' o Ho. by destruct (getValueAbsolute_inv e' self pos' o Hinv Ho).
Qed.

Lemma getValueAbsolute_absent_not_cached_witness :
  (3 = 4 - TechnicalIndicatorBase.windowSize sample_indicator + 1
   ∧ cache_inv (TechnicalIndicatorBase.cache sample_indicator)
   ∧ TechnicalIndicatorBase.getFirstValidPos sample_env ≤ 4
     < TechnicalIndicatorBase.getLength sample_env
   ∧ 0 ≤ 3
   ∧ Cache.isCached (TechnicalIndicatorBase.cache sample_indicator) 4 = false
   ∧ TechnicalIndicatorBase.calculateValue sample_env 3 4 = Ok None)
  ∧ TechnicalIndicatorBase.getValueAbsolute sample_env sample_indicator 4
    = Ok (TechnicalIndicatorBase.Outcome None sample_indicator [(3, 4)])
  ∧ (∀ e' r,
       TechnicalIndicatorBase.getFirstValidPos e' ≤ 4
         < TechnicalIndicatorBase.getLength e' →
       TechnicalIndicatorBase.calculateValue e' 3 4 = Ok r →
       ∃ final,
         TechnicalIndicatorBase.getValuesAbsolute sample_indicator
           [(sample_env, 4); (e', 4)]
         = Ok ([None; r], final, [(3, 4); (3, 4)]))
  ∧ (∀ e' pos' o,
       TechnicalIndicatorBase.getValueAbsolute e' sample_indicator pos' = Ok o →
       cache_inv (TechnicalIndicatorBase.cache (TechnicalIndicatorBase.self' o))).
Proof.
  assert (3 = 4 - TechnicalIndicatorBase.windowSize sample_indicator + 1) as H1
    by reflexivity.
  assert (TechnicalIndicatorBase.getFirstValidPos sample_env ≤ 4
          < TechnicalIndicatorBase.getLength sample_env) as H2 by (simpl; lia).
  assert (0 ≤ 3) as H3 by lia.
  assert (Cache.isCached (TechnicalIndicatorBase.cache sample_indicator) 4 = false)
    as H4 by reflexivity.
  assert (TechnicalIndicatorBase.calculateValue sample_env 3 4 = Ok None) as H5
    by reflexivity.
  refine (conj (conj H1 (conj sample_indicator_inv
                  (conj H2 (conj H3 (conj H4 H5))))) _).
  exact (getValueAbsolute_absent_not_cached sample_env sample_indicator 4 3
           H1 sample_indicator_inv H2 H3 H4 H5).
Defined.

(** ** C7: construction with an invalid configuration *)

(** C7. Every constructor raises [AssertionError] on an invalid
    configuration: a window size [≤ 0] for [EventWindow], [SMAEventWindow],
    [TechnicalIndicatorBase] and [DataSeriesFilter], a period [≤ 1] for
    [EMAEventWindow], an empty weight list for [WMAEventWindow] and a
    capacity [≤ 0] for [FIFOCache]; the filters [SMA], [EMA] and [WMA] fail
    with their windows. Hence an instance that exists has a valid
    configuration; the indicator base never builds a bounded cache of
    non-positive capacity, it selects the null cache instead. *)
Theorem invalid_construction_fails :
  (∀ windowSize, windowSize ≤ 0 → EventWindow.init windowSize = Raise AssertionError)
  ∧ (∀ period, period ≤ 0 → SMAEventWindow.init period = Raise AssertionError)
  ∧ (∀ period, period ≤ 1 → EMAEventWindow.init period = Raise AssertionError)
  ∧ WMAEventWindow.init [] = Raise AssertionError
  ∧ (∀ X windowSize cacheSize, windowSize ≤ 0 →
       TechnicalIndicatorBase.init (X:=X) windowSize cacheSize = Raise AssertionError)
  ∧ (∀ X ds windowSize, windowSize ≤ 0 →
       DataSeriesFilter.init (X:=X) ds windowSize = Raise AssertionError)
  ∧ (∀ V size, size ≤ 0 → FIFOCache.init (V:=V) size = Raise AssertionError)
  ∧ (∀ period, period ≤ 0 → SMA period = Raise AssertionError)
  ∧ (∀ period, period ≤ 1 → EMA period = Raise AssertionError)
  ∧ WMA [] = Raise AssertionError
  ∧ (∀ windowSize w, EventWindow.init windowSize = Ok w →
       0 < windowSize ∧ EventWindow.getWindowSize w = windowSize)
  ∧ (∀ period w, SMAEventWindow.init period = Ok w →
       0 < period ∧ EventWindow.getWindowSize (SMAEventWindow.window w) = period)
  ∧ (∀ period w, EMAEventWindow.init period = Ok w →
       1 < period ∧ EventWindow.getWindowSize (EMAEventWindow.window w) = period)
  ∧ (∀ weights w, WMAEventWindow.init weights = Ok w →
       weights ≠ [] ∧ WMAEventWindow.weights w = weights
       ∧ EventWindow.getWindowSize (WMAEventWindow.window w)
         = Z.of_nat (length weights))
  ∧ (∀ X windowSize cacheSize self,
       TechnicalIndicatorBase.init (X:=X) windowSize cacheSize = Ok self →
       0 < TechnicalIndicatorBase.windowSize self
       ∧ match TechnicalIndicatorBase.cache self with
         | Cache.FIFO f => 0 < FIFOCache.size_ f ∧ FIFOCache.size_ f = cacheSize
         | Cache.Null => cacheSize ≤ 0
         end)
  ∧ (∀ V size c, FIFOCache.init (V:=V) size = Ok c →
       0 < FIFOCache.size_ c ∧ FIFOCache.size_ c = size).
Proof.
  assert (∀ ws, ws ≤ 0 → EventWindow.init ws = Raise AssertionError) as Hew.
  { intros ws Hws. unfold EventWindow.init. by rewrite bool_decide_eq_false_2 by lia. }
  assert (∀ p, p ≤ 0 → SMAEventWindow.init p = Raise AssertionError) as Hsma.
  { intros ws Hws. unfold SMAEventWindow.init. by rewrite bool_decide_eq_false_2 by lia. }
  assert (∀ p, p ≤ 1 → EMAEventWindow.init p = Raise AssertionError) as Hema.
  { intros ws Hws. unfold EMAEventWindow.init. by rewrite bool_decide_eq_false_2 by lia. }
  assert (∀ X ws cs, ws ≤ 0 →
            TechnicalIndicatorBase.init (X:=X) ws cs = Raise AssertionError) as Hind.
  { intros X ws cs Hws. unfold TechnicalIndicatorBase.init.
    by rewrite (bool_decide_eq_false_2 (ws > 0)) by lia. }
  split_and!; try done.
  - intros X ds ws Hws. unfold DataSeriesFilter.init. by rewrite Hind.
  - intros V size Hs. unfold FIFOCache.init. by rewrite bool_decide_eq_false_2 by lia.
  - intros p Hp. unfold SMA. by rewrite Hsma.
  - intros p Hp. unfold EMA. by rewrite Hema.
  - intros ws w. unfold EventWindow.init.
    case_bool_decide; simpl; [|done]. intros [= <-]. simpl. split; [lia|done].
  - intros p w. unfold SMAEventWindow.init, EventWindow.init.
    case_bool_decide; simpl; [|done]. intros [= <-]. simpl. split; [lia|done].
  - intros p w. unfold EMAEventWindow.init, EventWindow.init.
    destruct (bool_decide_reflect (p > 1)); simpl; [|done].
    rewrite bool_decide_eq_true_2 by lia. simpl.
    destruct (pydiv _ _); simpl; [|done]. intros [= <-]. simpl. split; [lia|done].
  - intros weights w. unfold WMAEventWindow.init, EventWindow.init.
    case_bool_decide as Hlen; simpl; [|done]. intros [= <-]. simpl.
    split; [|done]. by intros ->.
  - intros X ws cs self Hinit.
    destruct (init_inv _ _ _ Hinit) as (Hws & -> & _ & Hcache).
    split; [done|]. case_bool_decide.
    + destruct Hcache as (f & -> & -> & _). lia.
    + rewrite Hcache. lia.
  - intros V size c Hinit.
    destruct (fifo_init_wf _ _ Hinit) as ((? & _) & ? & _). done.
Qed.

(** ** Arithmetic and sequences of [ma.py] *)

Lemma float_nonzero (n : Z) : n ≠ 0 → float n ≠ 0%Qc.
Proof. unfold float. rewrite <-Z2Qc_inj_0. by intros Hn ?%Z2Qc_inj. Qed.

Lemma pydiv_Ok (x d : Qc) : d ≠ 0%Qc → pydiv x d = Ok (x / d)%Qc.
Proof. intros Hd. unfold pydiv. by rewrite bool_decide_eq_false_2. Qed.

Lemma Qcsum_app (l k : list Qc) : Qcsum (l ++ k) = (Qcsum l + Qcsum k)%Qc.
Proof.
  induction l as [|x l IH]; simpl.
  - by rewrite Qcplus_0_l.
  - rewrite IH. by rewrite Qcplus_assoc.
Qed.

Lemma Qcsum_snoc (l : list Qc) (x : Qc) : Qcsum (l ++ [x]) = (Qcsum l + x)%Qc.
Proof. rewrite Qcsum_app. simpl. by rewrite Qcplus_0_r. Qed.

Lemma present_app (vs ws : list (option Qc)) :
  present (vs ++ ws) = present vs ++ present ws.
Proof. apply omap_app. Qed.

Lemma present_cons (v : option Qc) (vs : list (option Qc)) :
  present (v :: vs) = present [v] ++ present vs.
Proof. exact (present_app [v] vs). Qed.

Lemma present_Some (xs : list Qc) : present (Some <$> xs) = xs.
Proof.
  induction xs as [|x xs IH]; [done|].
  unfold present in *. rewrite fmap_cons. simpl. f_equal. exact IH.
Qed.

Lemma getitem_lookup {A} (l : list A) (i : nat) (a : A) :
  l !! i = Some a → getitem l (Z.of_nat i) = Ok a.
Proof.
  intros Hl. unfold getitem.
  rewrite (bool_decide_eq_false_2 (Z.of_nat i < 0)) by lia. cbv zeta iota.
  rewrite (bool_decide_eq_false_2 (Z.of_nat i < 0)) by lia.
  by rewrite Nat2Z.id, Hl.
Qed.

(** The loop of [calculate_sma] over present values adds them up. *)
Lemma calculate_sma_loop_sum (l : list Qc) (n i : nat) (accum : Qc) :
  (i + n ≤ length l)%nat →
  calculate_sma_loop (Some <$> l) (seqZ (Z.of_nat i) (Z.of_nat n)) accum
  = Ok (Some (accum + Qcsum (take n (drop i l)))%Qc).
Proof.
  revert i accum. induction n as [|n IH]; intros i accum Hlen.
  - simpl. by rewrite Qcplus_0_r.
  - rewrite seqZ_cons by lia.
    replace (Z.succ (Z.of_nat i)) with (Z.of_nat (S i)) by lia.
    replace (Z.pred (Z.of_nat (S n))) with (Z.of_nat n) by lia.
    destruct (lookup_lt_is_Some_2 l i) as [x Hx]; [lia|].
    cbn [calculate_sma_loop].
    rewrite (getitem_lookup _ i (Some x)) by by rewrite list_lookup_fmap, Hx.
    simpl. rewrite IH by lia.
    rewrite (drop_S l x i Hx). simpl. by rewrite Qcplus_assoc.
Qed.

(** On a non-empty list of present values, [calculate_sma] over the whole
    list is the direct average. *)
Lemma calculate_sma_average (l : list Qc) :
  l ≠ [] →
  calculate_sma (Some <$> l) 0 (Z.of_nat (length l)) = Ok (Some (average l)).
Proof.
  intros Hl. unfold calculate_sma, xrange. rewrite Z.sub_0_r.
  rewrite (calculate_sma_loop_sum l (length l) 0) by lia.
  simpl. rewrite drop_0, firstn_all, Qcplus_0_l.
  rewrite pydiv_Ok; [done|].
  apply float_nonzero. destruct l; [done|simpl; lia].
Qed.

(** ** The buffer of an event window *)

Lemma deque_append_lastn {A} (n : nat) (ps : list A) (x : A) :
  (0 < n)%nat →
  deque_append (Z.of_nat n) (lastn n ps) x = lastn n (ps ++ [x]).
Proof.
  intros Hn. unfold deque_append. rewrite (lastn_snoc n ps x Hn).
  rewrite length_app. simpl. pose proof (lastn_length n ps) as Hlen.
  case_bool_decide as H1; case_bool_decide as H2; try lia; [|done].
  destruct (lastn n ps) as [|a t]; [simpl in *; lia|done].
Qed.

Lemma EW_inv_step (n : nat) (w : EventWindow.t) (ps : list Qc) (v : option Qc) :
  (0 < n)%nat → EW_inv n w ps →
  EW_inv n (EventWindow.onNewValue w v) (ps ++ present [v]).
Proof.
  intros Hn [Hsz Hvals]. destruct v as [x|]; simpl.
  - split; simpl; [done|].
    rewrite Hsz, Hvals. rewrite <-deque_append_lastn by done.
    unfold deque_append. rewrite !length_app, !length_fmap. simpl.
    case_bool_decide; [|by rewrite fmap_app].
    destruct (lastn n ps); simpl; [done|]. by rewrite fmap_app.
  - by rewrite app_nil_r.
Qed.

Lemma EW_inv_len (n : nat) (w : EventWindow.t) (ps : list Qc) :
  EW_inv n w ps → len w = Z.of_nat (length ps `min` n).
Proof. intros [_ Hvals]. unfold len. by rewrite Hvals, length_fmap, lastn_length. Qed.

Lemma EW_inv_init (windowSize : Z) :
  0 < windowSize →
  ∃ w, EventWindow.init windowSize = Ok w ∧ EW_inv (Z.to_nat windowSize) w [].
Proof.
  intros Hws. unfold EventWindow.init. rewrite bool_decide_eq_true_2 by lia.
  simpl. eexists. split; [done|]. split; simpl; [lia|done].
Qed.

(** The buffer after any sequence of pushes onto a new window. *)
Lemma EW_inv_feed (n : nat) (w : EventWindow.t) (ps : list Qc) (vs : list (option Qc)) :
  (0 < n)%nat → EW_inv n w ps →
  EW_inv n (foldl EventWindow.onNewValue w vs) (ps ++ present vs).
Proof.
  intros Hn. revert w ps. induction vs as [|v vs IH]; intros w ps Hinv.
  - simpl. by rewrite app_nil_r.
  - rewrite present_cons, app_assoc. cbn [foldl].
    apply IH. by apply EW_inv_step.
Qed.

(** ** The simple moving average window *)

(** Sliding the window by one sample: the code's update formula, and the
    same written with a single division. *)
Lemma average_slide (a x : Qc) (t : list Qc) :
  average (t ++ [x])
  = (average (a :: t) + x / float (Z.of_nat (length (a :: t)))
     - a / float (Z.of_nat (length (a :: t))))%Qc.
Proof.
  unfold average. rewrite Qcsum_snoc, length_app. simpl.
  replace (length t + 1)%nat with (S (length t)) by lia.
  assert (float (Z.of_nat (S (length t))) ≠ 0%Qc) by (apply float_nonzero; lia).
  field. done.
Qed.

Lemma slide_single_division (old x a d : Qc) :
  d ≠ 0%Qc → (old + x / d - a / d = old + (x - a) / d)%Qc.
Proof. intros. field. done. Qed.

Lemma firstValue_inv (n : nat) (w : EventWindow.t) (ps : list Qc) :
  EW_inv n w ps → SMAEventWindow.firstValue w = Ok (head (lastn n ps)).
Proof.
  intros [_ Hvals]. unfold SMAEventWindow.firstValue, len. rewrite Hvals.
  destruct (lastn n ps) as [|a t]; simpl; done.
Qed.

Lemma sma_ref_Some (n : nat) (ps : list Qc) :
  (n ≤ length ps)%nat → sma_ref n ps = Some (average (lastn n ps)).
Proof. intros. unfold sma_ref. by rewrite decide_True. Qed.

Lemma sma_ref_None (n : nat) (ps : list Qc) :
  (length ps < n)%nat → sma_ref n ps = None.
Proof. intros. unfold sma_ref. by rewrite decide_False by lia. Qed.

Lemma SMA_inv_step (n : nat) (w : SMAEventWindow.t) (ps : list Qc) (v : option Qc) :
  (0 < n)%nat → SMA_inv n w ps →
  ∃ w', SMAEventWindow.onNewValue w v = Ok w' ∧ SMA_inv n w' (ps ++ present [v]).
Proof.
  intros Hn [Hew Hval]. destruct w as [win val].
  cbn [SMAEventWindow.window SMAEventWindow.value_] in *.
  unfold SMAEventWindow.onNewValue.
  cbn [SMAEventWindow.window SMAEventWindow.value_].
  rewrite (firstValue_inv n win ps Hew), Ok_bind.
  pose proof (EW_inv_step n win ps v Hn Hew) as Hew'.
  pose proof (EW_inv_len _ _ _ Hew') as Hlen'.
  destruct v as [x|].
  - change (present [Some x]) with [x] in *.
    set (w' := EventWindow.onNewValue win (Some x)) in *. clearbody w'.
    rewrite bool_decide_eq_true_2 by done. cbn [andb].
    destruct Hew' as [Hsz' Hvals']. rewrite Hsz', Hlen'.
    rewrite length_app in Hlen' |- *. cbn [length] in *.
    case_bool_decide as Hfull.
    + destruct (decide (n ≤ length ps)%nat) as [Hold|Hnew].
      * rewrite Hval, (sma_ref_Some n ps Hold). cbn [SMAEventWindow.num].
        rewrite Ok_bind, pydiv_Ok, Ok_bind by (apply float_nonzero; lia).
        pose proof (lastn_length n ps) as Hl.
        destruct (lastn n ps) as [|a t] eqn:Hlast; [simpl in Hl; lia|].
        cbn [head SMAEventWindow.num].
        rewrite Ok_bind, pydiv_Ok, Ok_bind by (apply float_nonzero; lia).
        eexists. split; [done|]. split; [done|].
        cbn [SMAEventWindow.value_].
        rewrite sma_ref_Some by (rewrite length_app; simpl; lia).
        rewrite (lastn_snoc n ps x Hn), Hlast.
        rewrite bool_decide_eq_false_2 by lia. cbn [tail].
        rewrite (average_slide a x t).
        replace (length (a :: t)) with n by lia. done.
      * rewrite Hval, (sma_ref_None n ps) by lia.
        assert (length (lastn n (ps ++ [x])) = n) as Hl.
        { rewrite lastn_length, length_app. simpl. lia. }
        rewrite Hvals'.
        replace (Z.of_nat n) with (Z.of_nat (length (lastn n (ps ++ [x]))))
          by (by rewrite Hl).
        rewrite calculate_sma_average, Ok_bind
          by (intros Heq; rewrite Heq in Hl; simpl in Hl; lia).
        eexists. split; [done|]. split; [done|].
        cbn [SMAEventWindow.value_].
        rewrite sma_ref_Some by (rewrite length_app; simpl; lia). done.
    + eexists. split; [done|]. split; [done|].
      cbn [SMAEventWindow.value_].
      rewrite Hval, !sma_ref_None; [done|rewrite length_app; simpl; lia|lia].
  - cbn [andb]. rewrite bool_decide_eq_false_2 by (by intros []).
    cbn [andb]. eexists. split; [done|]. split; [done|].
    cbn [SMAEventWindow.value_]. change (present [None]) with (@nil Qc).
    by rewrite app_nil_r.
Qed.

Lemma SMA_inv_init (period : Z) :
  0 < period →
  ∃ w, SMAEventWindow.init period = Ok w ∧ SMA_inv (Z.to_nat period) w [].
Proof.
  intros Hp. unfold SMAEventWindow.init.
  rewrite bool_decide_eq_true_2 by lia. simpl.
  destruct (EW_inv_init period Hp) as (w & -> & Hw). simpl.
  eexists. split; [done|]. split; [done|]. simpl.
  rewrite sma_ref_None; [done|simpl; lia].
Qed.

(** ** The exponential moving average window *)

Lemma ema_ref_None (n : nat) (m : Qc) (ps : list Qc) :
  (length ps < n)%nat → ema_ref n m ps = None.
Proof. intros. unfold ema_ref. by rewrite decide_False by lia. Qed.

Lemma ema_ref_Some (n : nat) (m : Qc) (ps : list Qc) :
  (n ≤ length ps)%nat →
  ema_ref n m ps = Some (foldl (ema_step m) (average (take n ps)) (drop n ps)).
Proof. intros. unfold ema_ref. by rewrite decide_True. Qed.

(** The first defined value is the average of the first full window. *)
Lemma ema_ref_seed (n : nat) (m : Qc) (ps : list Qc) :
  length ps = n → ema_ref n m ps = Some (average ps).
Proof.
  intros Hlen. unfold ema_ref. rewrite decide_True by lia.
  rewrite take_ge, drop_ge by lia. done.
Qed.

(** Each further present sample applies one step to the previous value. *)
Lemma ema_ref_snoc (n : nat) (m : Qc) (ps : list Qc) (x prev : Qc) :
  ema_ref n m ps = Some prev →
  ema_ref n m (ps ++ [x]) = Some (ema_step m prev x).
Proof.
  unfold ema_ref. case_decide as Hn; [|done]. intros [= <-].
  rewrite decide_True by (rewrite length_app; lia).
  rewrite take_app_le, drop_app_le, foldl_snoc by lia. done.
Qed.

Lemma EMA_inv_step (n : nat) (w : EMAEventWindow.t) (ps : list Qc) (v : option Qc) :
  (0 < n)%nat → EMA_inv n w ps →
  ∃ w', EMAEventWindow.onNewValue w v = Ok w' ∧ EMA_inv n w' (ps ++ present [v]).
Proof.
  intros Hn (Hew & Hm & Hval). destruct w as [win m val].
  cbn [EMAEventWindow.window EMAEventWindow.value_ EMAEventWindow.multiplier] in *.
  unfold EMAEventWindow.onNewValue.
  cbn [EMAEventWindow.window EMAEventWindow.value_ EMAEventWindow.multiplier].
  pose proof (EW_inv_step n win ps v Hn Hew) as Hew'.
  pose proof (EW_inv_len _ _ _ Hew') as Hlen'.
  destruct v as [x|].
  - change (present [Some x]) with [x] in *.
    set (w' := EventWindow.onNewValue win (Some x)) in *. clearbody w'.
    rewrite bool_decide_eq_true_2 by done. cbn [andb].
    pose proof Hew' as [Hsz' Hvals']. rewrite Hsz', Hlen'.
    rewrite length_app in Hlen' |- *. cbn [length] in *.
    case_bool_decide as Hfull.
    + destruct (decide (n ≤ length ps)%nat) as [Hold|Hnew].
      * rewrite Hval, (ema_ref_Some n _ ps Hold).
        cbn [SMAEventWindow.num]. rewrite Ok_bind.
        eexists. split; [done|]. split; [done|split; [done|]].
        cbn [EMAEventWindow.value_].
        rewrite (ema_ref_snoc n _ ps x _ (ema_ref_Some n _ ps Hold)).
        subst m. done.
      * subst val. rewrite (ema_ref_None n _ ps) by lia.
        rewrite Hvals'.
        assert (lastn n (ps ++ [x]) = ps ++ [x]) as Hall.
        { apply lastn_all. rewrite length_app. simpl. lia. }
        rewrite Hall.
        replace (Z.of_nat ((length ps + 1) `min` n))
          with (Z.of_nat (length (ps ++ [x])))
          by (rewrite length_app; simpl; lia).
        rewrite calculate_sma_average, Ok_bind by (by destruct ps).
        eexists. split; [done|]. split; [done|split; [done|]].
        cbn [EMAEventWindow.value_].
        rewrite ema_ref_seed by (rewrite length_app; simpl; lia). done.
    + eexists. split; [done|]. split; [done|split; [done|]].
      cbn [EMAEventWindow.value_].
      rewrite Hval, !ema_ref_None; [done|rewrite length_app; simpl; lia|lia].
  - rewrite bool_decide_eq_false_2 by (by intros []).
    cbn [andb]. eexists. split; [done|]. split; [|split; [done|]].
    { by rewrite app_nil_r. }
    cbn [EMAEventWindow.value_]. change (present [None]) with (@nil Qc).
    by rewrite app_nil_r.
Qed.

Lemma EMA_inv_init (period : Z) :
  1 < period →
  ∃ w, EMAEventWindow.init period = Ok w
       ∧ EMAEventWindow.multiplier w = (2 / float (period + 1))%Qc
       ∧ EMA_inv (Z.to_nat period) w [].
Proof.
  intros Hp. unfold EMAEventWindow.init, assert.
  rewrite bool_decide_eq_true_2 by lia. rewrite Ok_bind.
  destruct (EW_inv_init period) as (w & -> & Hw); [lia|]. rewrite Ok_bind.
  rewrite pydiv_Ok, Ok_bind by (apply float_nonzero; lia).
  eexists. split; [done|]. split; [done|].
  unfold EMA_inv.
  replace (Z.of_nat (Z.to_nat period)) with period by lia.
  split; [done|split; [done|]]. cbn [EMAEventWindow.value_].
  rewrite ema_ref_None; [done|simpl; lia].
Qed.

(** ** The weighted moving average window *)

Lemma WMA_inv_step (weights : list Qc) (w : WMAEventWindow.t) (ps : list Qc)
    (v : option Qc) :
  weights ≠ [] → WMA_inv weights w ps →
  ∃ w', WMAEventWindow.onNewValue w v = Ok w' ∧ WMA_inv weights w' (ps ++ present [v]).
Proof.
  intros Hne [Hew Hw]. eexists. split; [done|]. split; [|done]. simpl.
  apply EW_inv_step; [|done]. destruct weights; [done|simpl; lia].
Qed.

Lemma WMA_inv_init (weights : list Qc) :
  weights ≠ [] →
  ∃ w, WMAEventWindow.init weights = Ok w ∧ WMA_inv weights w [].
Proof.
  intros Hne. unfold WMAEventWindow.init, assert.
  assert (0 < Z.of_nat (length weights)) by (destruct weights; [done|simpl; lia]).
  rewrite bool_decide_eq_true_2 by lia. rewrite Ok_bind.
  destruct (EW_inv_init (Z.of_nat (length weights))) as (w & -> & Hw); [lia|].
  rewrite Ok_bind. eexists. split; [done|]. split; [|done]. simpl.
  by rewrite Nat2Z.id in Hw.
Qed.

(** ** Feeding a window and a filter *)

Lemma outputs_length ref ps vs : length (outputs ref ps vs) = length vs.
Proof. revert ps. induction vs as [|v vs IH]; intros ps; simpl; [done|]. by rewrite IH. Qed.

Lemma outputs_lookup ref ps vs (i : nat) :
  (i < length vs)%nat →
  outputs ref ps vs !! i = Some (ref (ps ++ present (take (S i) vs))).
Proof.
  revert ps i. induction vs as [|v vs IH]; intros ps i Hi; [simpl in Hi; lia|].
  destruct i as [|i].
  - cbn [outputs lookup list_lookup take]. done.
  - cbn [outputs]. rewrite lookup_cons_ne_0 by done. cbn [pred].
    rewrite IH by (simpl in Hi; lia).
    rewrite <-app_assoc, <-present_cons. done.
Qed.

Section feeding.
Context {W : Type} `{EventWindowLike W}.
Variable Inv : W → list Qc → Prop.
Variable ref : list Qc → option Qc.
Hypothesis Inv_step : ∀ w ps v, Inv w ps →
  ∃ w', ew_onNewValue w v = Ok w' ∧ Inv w' (ps ++ present [v]).
Hypothesis Inv_value : ∀ w ps, Inv w ps → ew_getValue w = Ok (ref ps).

Lemma ew_feed_inv w ps vs :
  Inv w ps → ∃ w', ew_feed w vs = Ok w' ∧ Inv w' (ps ++ present vs).
Proof.
  revert w ps. induction vs as [|v vs IH]; intros w ps Hinv.
  - exists w. simpl. by rewrite app_nil_r.
  - destruct (Inv_step w ps v Hinv) as (w1 & Hstep & Hinv1).
    destruct (IH w1 _ Hinv1) as (w' & Hfeed & Hinv').
    exists w'. cbn [ew_feed]. rewrite Hstep, Ok_bind, Hfeed.
    split; [done|]. by rewrite present_cons, app_assoc.
Qed.

Lemma filter_feed_inv (f : EventBasedFilter.t W) ps vs :
  Inv (EventBasedFilter.eventWindow f) ps →
  ∃ f', EventBasedFilter.feed f vs = Ok f'
        ∧ ew_feed (EventBasedFilter.eventWindow f) vs
          = Ok (EventBasedFilter.eventWindow f')
        ∧ Inv (EventBasedFilter.eventWindow f') (ps ++ present vs)
        ∧ EventBasedFilter.appended f'
          = EventBasedFilter.appended f ++ outputs ref ps vs.
Proof.
  revert f ps. induction vs as [|v vs IH]; intros f ps Hinv.
  - exists f. simpl. by rewrite !app_nil_r.
  - destruct (Inv_step _ ps v Hinv) as (w1 & Hstep & Hinv1).
    destruct (IH (EventBasedFilter.Build w1
                    (EventBasedFilter.appended f ++ [ref (ps ++ present [v])]))
                 _ Hinv1) as (f' & Hfeed & Hew & Hinv' & Happ).
    exists f'. cbn [EventBasedFilter.feed ew_feed].
    unfold EventBasedFilter.onNewValue.
    rewrite Hstep, !Ok_bind, (Inv_value _ _ Hinv1), !Ok_bind, Hfeed.
    split_and!; [done|done|by rewrite present_cons, app_assoc|].
    rewrite Happ. cbn [EventBasedFilter.appended outputs].
    by rewrite <-app_assoc.
Qed.
End feeding.

(** ** Steps of the windows on arbitrary states *)

(** The incremental branch of [SMAEventWindow.onNewValue], as the code
    computes it: the held value plus the new sample over [N] minus the
    oldest buffered sample over [N]. *)
Lemma SMA_onNewValue_incremental (w : SMAEventWindow.t) (old a x : Qc)
    (t : list (option Qc)) :
  SMAEventWindow.value_ w = Some old →
  EventWindow.getValues (SMAEventWindow.window w) = Some a :: t →
  EventWindow.getWindowSize (SMAEventWindow.window w) = Z.of_nat (length (Some a :: t)) →
  ∃ w', SMAEventWindow.onNewValue w (Some x) = Ok w'
        ∧ EventWindow.getValues (SMAEventWindow.window w') = t ++ [Some x]
        ∧ SMAEventWindow.value_ w'
          = Some (old + x / float (EventWindow.getWindowSize (SMAEventWindow.window w))
                  - a / float (EventWindow.getWindowSize (SMAEventWindow.window w)))%Qc.
Proof.
  destruct w as [[vals ws] val]. simpl. intros -> -> ->.
  unfold SMAEventWindow.onNewValue, SMAEventWindow.firstValue, len. simpl.
  assert (deque_append (Z.of_nat (S (length t))) (Some a :: t) (Some x)
          = t ++ [Some x]) as ->.
  { unfold deque_append. rewrite length_app. simpl.
    by rewrite bool_decide_eq_true_2 by lia. }
  rewrite bool_decide_eq_true_2 by (rewrite length_app; simpl; lia).
  eexists. split; [done|]. done.
Qed.

Lemma SMA_onNewValue_None (n : nat) (w : SMAEventWindow.t) (ps : list Qc) :
  SMA_inv n w ps → SMAEventWindow.onNewValue w None = Ok w.
Proof.
  intros [Hew _]. destruct w as [win val]. unfold SMAEventWindow.onNewValue.
  cbn [SMAEventWindow.window SMAEventWindow.value_] in *.
  rewrite (firstValue_inv n win ps Hew), Ok_bind.
  rewrite bool_decide_eq_false_2 by (by intros []). done.
Qed.

Lemma EMA_onNewValue_None (w : EMAEventWindow.t) :
  EMAEventWindow.onNewValue w None = Ok w.
Proof.
  destruct w as [win m val]. unfold EMAEventWindow.onNewValue.
  rewrite bool_decide_eq_false_2 by (by intros []). done.
Qed.

Lemma WMA_onNewValue_None (w : WMAEventWindow.t) :
  WMAEventWindow.onNewValue w None = Ok w.
Proof. by destruct w. Qed.

Lemma EventWindow_full_step (w : EventWindow.t) (v : option Qc) :
  0 < EventWindow.getWindowSize w →
  len w = EventWindow.getWindowSize w →
  EventWindow.getWindowSize (EventWindow.onNewValue w v) = EventWindow.getWindowSize w
  ∧ len (EventWindow.onNewValue w v) = EventWindow.getWindowSize w.
Proof.
  destruct w as [vals ws]. unfold len. simpl. intros Hws Hlen.
  destruct v as [x|]; simpl; [|done]. split; [done|].
  unfold deque_append. rewrite length_app. simpl.
  rewrite bool_decide_eq_true_2 by lia.
  destruct vals as [|a t]; simpl in *; [lia|]. rewrite length_app. simpl. lia.
Qed.

Lemma EventWindow_full_forever (w : EventWindow.t) (vs : list (option Qc)) :
  0 < EventWindow.getWindowSize w →
  len w = EventWindow.getWindowSize w →
  EventWindow.getWindowSize (foldl EventWindow.onNewValue w vs)
  = EventWindow.getWindowSize w
  ∧ len (foldl EventWindow.onNewValue w vs) = EventWindow.getWindowSize w.
Proof.
  revert w. induction vs as [|v vs IH]; intros w Hws Hlen; [done|].
  cbn [foldl]. destruct (EventWindow_full_step w v Hws Hlen) as [Hws' Hlen'].
  destruct (IH (EventWindow.onNewValue w v)) as [H1 H2]; [lia..|].
  rewrite H1, H2. done.
Qed.

(** The values the filters append, for any history of samples. *)
Lemma SMA_feed (N : Z) (vs : list (option Qc)) :
  0 < N →
  ∃ f f', SMA N = Ok f ∧ EventBasedFilter.feed f vs = Ok f'
          ∧ SMA_inv (Z.to_nat N) (EventBasedFilter.eventWindow f') (present vs)
          ∧ EventBasedFilter.appended f' = outputs (sma_ref (Z.to_nat N)) [] vs.
Proof.
  intros HN. destruct (SMA_inv_init N HN) as (w & Hinit & Hinv).
  unfold SMA. rewrite Hinit, Ok_bind.
  destruct (filter_feed_inv (SMA_inv (Z.to_nat N)) (sma_ref (Z.to_nat N))
              (λ w ps v H, SMA_inv_step (Z.to_nat N) w ps v ltac:(lia) H)
              (λ w ps H, f_equal Ok (proj2 H))
              (EventBasedFilter.init w) [] vs Hinv)
    as (f' & Hfeed & _ & Hinv' & Happ).
  eauto 10.
Qed.

Lemma EMA_feed (N : Z) (vs : list (option Qc)) :
  1 < N →
  ∃ f f', EMA N = Ok f ∧ EventBasedFilter.feed f vs = Ok f'
          ∧ EMA_inv (Z.to_nat N) (EventBasedFilter.eventWindow f') (present vs)
          ∧ EventBasedFilter.appended f'
            = outputs (ema_ref (Z.to_nat N) (2 / float (N + 1))%Qc) [] vs.
Proof.
  intros HN. destruct (EMA_inv_init N HN) as (w & Hinit & _ & Hinv).
  unfold EMA. rewrite Hinit, Ok_bind.
  destruct (filter_feed_inv (EMA_inv (Z.to_nat N))
              (ema_ref (Z.to_nat N) (2 / float (Z.of_nat (Z.to_nat N) + 1))%Qc)
              (λ w ps v H, EMA_inv_step (Z.to_nat N) w ps v ltac:(lia) H)
              (λ w ps H, f_equal Ok (proj2 (proj2 H)))
              (EventBasedFilter.init w) [] vs Hinv)
    as (f' & Hfeed & _ & Hinv' & Happ).
  replace (Z.of_nat (Z.to_nat N)) with N in Happ by lia.
  eauto 10.
Qed.

(** ** Doubles: conversion and division *)

(** A number of [d] binary digits is at least [2^(d-1)]. *)
Lemma digits2_pos_lower (p : positive) :
  2 ^ (Z.pos (digits2_pos p) - 1) ≤ Z.pos p.
Proof.
  induction p as [p IH|p IH|]; cbn [digits2_pos].
  - rewrite Pos2Z.inj_succ.
    replace (Z.succ (Z.pos (digits2_pos p)) - 1)
      with (Z.succ (Z.pos (digits2_pos p) - 1)) by lia.
    rewrite Z.pow_succ_r by lia. lia.
  - rewrite Pos2Z.inj_succ.
    replace (Z.succ (Z.pos (digits2_pos p)) - 1)
      with (Z.succ (Z.pos (digits2_pos p) - 1)) by lia.
    rewrite Z.pow_succ_r by lia. lia.
  - simpl. lia.
Qed.

Lemma shr_1_m (mrs : shr_record) :
  0 ≤ shr_m mrs → shr_m (shr_1 mrs) = Z.div2 (shr_m mrs).
Proof. destruct mrs as [[|[p|p|]|p] r s]; simpl; try done; lia. Qed.

Lemma iter_pos_shr_1_m (n : positive) (mrs : shr_record) :
  0 ≤ shr_m mrs →
  shr_m (SpecFloat.iter_pos shr_1 n mrs) = Z.shiftr (shr_m mrs) (Z.pos n).
Proof.
  revert mrs. induction n as [n IH|n IH|]; intros mrs Hm; cbn [SpecFloat.iter_pos].
  - assert (0 ≤ shr_m (shr_1 mrs)) as H1.
    { rewrite shr_1_m by done. by apply Z.div2_nonneg. }
    assert (0 ≤ shr_m (SpecFloat.iter_pos shr_1 n (shr_1 mrs))) as H2.
    { rewrite IH by done. by apply Z.shiftr_nonneg. }
    rewrite IH, IH, shr_1_m by done.
    rewrite Z.div2_spec, !Z.shiftr_shiftr by lia. f_equal. lia.
  - assert (0 ≤ shr_m (SpecFloat.iter_pos shr_1 n mrs)) as H2.
    { rewrite IH by done. by apply Z.shiftr_nonneg. }
    rewrite IH, IH by done. rewrite Z.shiftr_shiftr by lia. f_equal. lia.
  - rewrite shr_1_m by done. apply Z.div2_spec.
Qed.

(** Shifting a positive mantissa to the exponent of its format leaves a
    positive mantissa: fewer bits are dropped than the mantissa has. *)
Lemma shr_fexp_pos (m : positive) (e : Z) (l : location) :
  SpecFloat.emin prec emax ≤ e →
  0 < shr_m (shr_fexp prec emax (Z.pos m) e l).1
  ∧ SpecFloat.emin prec emax ≤ (shr_fexp prec emax (Z.pos m) e l).2.
Proof.
  intros He. unfold shr_fexp, shr.
  set (n := fexp prec emax (Zdigits2 (Z.pos m) + e) - e).
  assert (n < Z.pos (digits2_pos m)) as Hn.
  { unfold n, fexp, Zdigits2, SpecFloat.emin, prec, emax in *. lia. }
  assert (shr_m (shr_record_of_loc (Z.pos m) l) = Z.pos m) as Hm.
  { by destruct l as [|[]]. }
  destruct n as [|k|k] eqn:E; cbn [fst snd].
  - rewrite Hm. lia.
  - rewrite iter_pos_shr_1_m by (rewrite Hm; lia). rewrite Hm.
    split; [|lia]. rewrite Z.shiftr_div_pow2 by lia.
    apply Z.div_str_pos. split; [apply Z.pow_pos_nonneg; lia|].
    etrans; [|apply digits2_pos_lower]. apply Z.pow_le_mono_r; lia.
  - rewrite Hm. lia.
Qed.

Lemma round_nearest_even_pos (m : Z) (l : location) :
  0 < m → 0 < round_nearest_even m l.
Proof. destruct l as [|[]]; simpl; try done; [case (Z.even m)|]; lia. Qed.

Lemma binary_round_aux_nonzero (sx : bool) (m : positive) (e : Z) (l : location) :
  SpecFloat.emin prec emax ≤ e →
  ∀ s, binary_round_aux prec emax sx (Z.pos m) e l ≠ S754_zero s.
Proof.
  intros He s. unfold binary_round_aux.
  destruct (shr_fexp_pos m e l He) as [H1 H1e].
  destruct (shr_fexp prec emax (Z.pos m) e l) as [mrs' e']. cbn [fst snd] in *.
  pose proof (round_nearest_even_pos _ (loc_of_shr_record mrs') H1) as H2.
  destruct (round_nearest_even (shr_m mrs') (loc_of_shr_record mrs')) as [|m2|m2];
    [lia| |lia].
  destruct (shr_fexp_pos m2 e' loc_Exact H1e) as [H3 _].
  destruct (shr_fexp prec emax (Z.pos m2) e' loc_Exact) as [mrs'' e''].
  cbn [fst] in *.
  destruct (shr_m mrs''); [lia| |lia]. by case (_ <=? _).
Qed.

(** Rounding a positive integer to a double never gives zero. *)
Lemma binary_round_nonzero (sx : bool) (m : positive) :
  ∀ s, binary_round prec emax sx m 0 ≠ S754_zero s.
Proof.
  intros s. unfold binary_round.
  destruct (shl_align m 0 _) as [mz ez] eqn:E.
  apply binary_round_aux_nonzero.
  unfold shl_align in E.
  destruct (fexp prec emax (Z.pos (digits2_pos m) + 0) - 0) eqn:E2;
    injection E as <- <-; unfold fexp, SpecFloat.emin, prec, emax in *; lia.
Qed.

(** [float(n)] of a positive window size is not zero. *)
Lemma double_float_nonzero (n : Z) :
  0 < n < 2 ^ 63 → PrimFloat.eqb (Double.float n) 0%float = false.
Proof.
  intros Hn. unfold Double.float. rewrite bool_decide_eq_false_2 by lia.
  rewrite FloatAxioms.eqb_spec, FloatAxioms.of_uint63_spec.
  rewrite Uint63.of_Z_spec, Z.mod_small
    by (change Uint63Axioms.wB with (2 ^ 63); lia).
  destruct n as [|p|p]; [lia| |lia]. cbn [binary_normalize].
  pose proof (binary_round_nonzero false p) as H.
  change (Prim2SF 0) with (S754_zero false).
  destruct (binary_round prec emax false p 0) as [s| | |s m e]; try done.
  - by destruct (H s).
  - by destruct s.
  - by destruct s.
Qed.

Lemma double_pydiv_Ok (x d : double) :
  PrimFloat.eqb d 0%float = false → Double.pydiv x d = Ok (x / d)%float.
Proof. intros Hd. unfold Double.pydiv. by rewrite Hd. Qed.

Lemma double_pydiv_zero (x d : double) :
  PrimFloat.eqb d 0%float = true → Double.pydiv x d = Raise ZeroDivisionError.
Proof. intros Hd. unfold Double.pydiv. by rewrite Hd. Qed.

Lemma double_present_app (vs ws : list (option double)) :
  Double.present (vs ++ ws) = Double.present vs ++ Double.present ws.
Proof. apply omap_app. Qed.

Lemma double_present_cons (v : option double) (vs : list (option double)) :
  Double.present (v :: vs) = Double.present [v] ++ Double.present vs.
Proof. exact (double_present_app [v] vs). Qed.

Lemma double_present_Some (xs : list double) : Double.present (Some <$> xs) = xs.
Proof.
  induction xs as [|x xs IH]; [done|].
  unfold Double.present in *. rewrite fmap_cons. simpl. f_equal. exact IH.
Qed.

(** The loop of [calculate_sma] over present values adds them in order. *)
Lemma double_calculate_sma_loop_sum (l : list double) (n i : nat) (accum : double) :
  (i + n ≤ length l)%nat →
  Double.calculate_sma_loop (Some <$> l) (seqZ (Z.of_nat i) (Z.of_nat n)) accum
  = Ok (Some (foldl PrimFloat.add accum (take n (drop i l)))).
Proof.
  revert i accum. induction n as [|n IH]; intros i accum Hlen.
  - done.
  - rewrite seqZ_cons by lia.
    replace (Z.succ (Z.of_nat i)) with (Z.of_nat (S i)) by lia.
    replace (Z.pred (Z.of_nat (S n))) with (Z.of_nat n) by lia.
    destruct (lookup_lt_is_Some_2 l i) as [x Hx]; [lia|].
    cbn [Double.calculate_sma_loop].
    rewrite (getitem_lookup _ i (Some x)) by by rewrite list_lookup_fmap, Hx.
    rewrite Ok_bind, IH by lia.
    by rewrite (drop_S l x i Hx).
Qed.

(** On a non-empty list of present values, [calculate_sma] over the whole
    list is the rounded sum over the length. *)
Lemma double_calculate_sma_sum (l : list double) :
  l ≠ [] → Z.of_nat (length l) < 2 ^ 63 →
  Double.calculate_sma (Some <$> l) 0 (Z.of_nat (length l))
  = Ok (Some (Double.sum l / Double.float (Z.of_nat (length l)))%float).
Proof.
  intros Hl Hlt. unfold Double.calculate_sma, xrange. rewrite Z.sub_0_r.
  rewrite (double_calculate_sma_loop_sum l (length l) 0) by lia.
  rewrite Ok_bind, drop_0, firstn_all.
  rewrite double_pydiv_Ok; [done|].
  apply double_float_nonzero. destruct l; [done|simpl in *; lia].
Qed.

(** ** Doubles: the windows *)

Lemma double_EW_inv_step (n : nat) (w : Double.EventWindow.t) (ps : list double)
    (v : option double) :
  (0 < n)%nat → Double.EW_inv n w ps →
  Double.EW_inv n (Double.EventWindow.onNewValue w v) (ps ++ Double.present [v]).
Proof.
  intros Hn [Hsz Hvals]. destruct v as [x|]; simpl.
  - split; simpl; [done|].
    rewrite Hsz, Hvals. rewrite <-deque_append_lastn by done.
    unfold deque_append. rewrite !length_app, !length_fmap. simpl.
    case_bool_decide; [|by rewrite fmap_app].
    destruct (lastn n ps); simpl; [done|]. by rewrite fmap_app.
  - by rewrite app_nil_r.
Qed.

Lemma double_EW_inv_len (n : nat) (w : Double.EventWindow.t) (ps : list double) :
  Double.EW_inv n w ps → Double.len w = Z.of_nat (length ps `min` n).
Proof.
  intros [_ Hvals]. unfold Double.len.
  by rewrite Hvals, length_fmap, lastn_length.
Qed.

Lemma double_EW_inv_init (windowSize : Z) :
  0 < windowSize →
  ∃ w, Double.EventWindow.init windowSize = Ok w
       ∧ Double.EW_inv (Z.to_nat windowSize) w [].
Proof.
  intros Hws. unfold Double.EventWindow.init.
  rewrite bool_decide_eq_true_2 by lia.
  simpl. eexists. split; [done|]. split; simpl; [lia|done].
Qed.

Lemma double_firstValue_inv (n : nat) (w : Double.EventWindow.t) (ps : list double) :
  Double.EW_inv n w ps →
  Double.SMAEventWindow.firstValue w = Ok (head (lastn n ps)).
Proof.
  intros [_ Hvals]. unfold Double.SMAEventWindow.firstValue, Double.len.
  rewrite Hvals.
  destruct (lastn n ps) as [|a t]; simpl; done.
Qed.

(** ** Doubles: the reference recurrence of the simple moving average *)

Lemma double_sma_ref_None (N : nat) (ps : list double) :
  (length ps < N)%nat → Double.sma_ref N ps = None.
Proof. intros. unfold Double.sma_ref. by rewrite decide_False by lia. Qed.

Lemma double_sma_ref_seed (N : nat) (ps : list double) :
  length ps = N →
  Double.sma_ref N ps
  = Some (Double.sum ps / Double.float (Z.of_nat N))%float.
Proof.
  intros Hlen. unfold Double.sma_ref. rewrite decide_True by lia.
  rewrite drop_ge, firstn_all2 by lia. done.
Qed.

Lemma zip_snoc_lookup {A B} (l : list A) (ps : list B) (x : A) (y a : B) :
  ps !! length l = Some a →
  zip (l ++ [x]) (ps ++ [y]) = zip l ps ++ [(x, a)].
Proof.
  revert ps. induction l as [|b l IH]; intros [|c ps] Hlk; try done.
  - simpl in Hlk. by injection Hlk as ->.
  - simpl in *. f_equal. by apply IH.
Qed.

Lemma double_sma_ref_snoc (N : nat) (ps : list double) (x old oldest : double) :
  (0 < N)%nat →
  Double.sma_ref N ps = Some old →
  ps !! (length ps - N)%nat = Some oldest →
  Double.sma_ref N (ps ++ [x])
  = Some (old + x / Double.float (Z.of_nat N)
          - oldest / Double.float (Z.of_nat N))%float.
Proof.
  intros HN Hold Hlk. unfold Double.sma_ref in *.
  case_decide as Hfull; [|done]. injection Hold as <-.
  rewrite decide_True by (rewrite length_app; simpl; lia).
  rewrite take_app_le, drop_app_le by lia.
  rewrite (zip_snoc_lookup _ _ _ _ oldest) by (by rewrite length_drop).
  rewrite foldl_app. done.
Qed.

Lemma double_SMA_inv_step (n : nat) (w : Double.SMAEventWindow.t)
    (ps : list double) (v : option double) :
  (0 < n)%nat → Z.of_nat n < 2 ^ 63 → Double.SMA_inv n w ps →
  ∃ w', Double.SMAEventWindow.onNewValue w v = Ok w'
        ∧ Double.SMA_inv n w' (ps ++ Double.present [v]).
Proof.
  intros Hn Hlt [Hew Hval]. destruct w as [win val].
  cbn [Double.SMAEventWindow.window Double.SMAEventWindow.value_] in *.
  unfold Double.SMAEventWindow.onNewValue.
  cbn [Double.SMAEventWindow.window Double.SMAEventWindow.value_].
  rewrite (double_firstValue_inv n win ps Hew), Ok_bind.
  pose proof (double_EW_inv_step n win ps v Hn Hew) as Hew'.
  pose proof (double_EW_inv_len _ _ _ Hew') as Hlen'.
  assert (PrimFloat.eqb (Double.float (Z.of_nat n)) 0%float = false) as Hnz
    by (apply double_float_nonzero; lia).
  destruct v as [x|].
  - change (Double.present [Some x]) with [x] in *.
    set (w' := Double.EventWindow.onNewValue win (Some x)) in *. clearbody w'.
    rewrite bool_decide_eq_true_2 by eauto. cbn [andb].
    destruct Hew' as [Hsz' Hvals']. rewrite Hsz', Hlen'.
    rewrite length_app in Hlen' |- *. cbn [length] in *.
    case_bool_decide as Hfull.
    + destruct (decide (n ≤ length ps)%nat) as [Hold|Hnew].
      * destruct (Double.sma_ref n ps) as [old|] eqn:Href;
          [|unfold Double.sma_ref in Href;
             rewrite decide_True in Href by done; done].
        rewrite Hval. cbn [Double.num].
        rewrite Ok_bind, double_pydiv_Ok, Ok_bind by done.
        pose proof (lastn_length n ps) as Hl.
        destruct (lastn n ps) as [|a t] eqn:Hlast; [simpl in Hl; lia|].
        cbn [head Double.num].
        rewrite Ok_bind, double_pydiv_Ok, Ok_bind by done.
        eexists. split; [done|]. split; [done|].
        cbn [Double.SMAEventWindow.value_].
        symmetry. apply double_sma_ref_snoc; [done|done|].
        unfold lastn in Hlast.
        by rewrite <-(Nat.add_0_r (length ps - n)), <-lookup_drop, Hlast.
      * rewrite Hval, (double_sma_ref_None n ps) by lia.
        assert (length (ps ++ [x]) = n) as Hl by (rewrite length_app; simpl; lia).
        rewrite Hvals'. unfold lastn. rewrite Hl, Nat.sub_diag, drop_0.
        replace (Z.of_nat n) with (Z.of_nat (length (ps ++ [x])))
          by (by rewrite Hl).
        rewrite double_calculate_sma_sum, Ok_bind
          by (rewrite ?Hl; first [lia | by destruct ps]).
        eexists. split; [done|]. split; [by split|].
        cbn [Double.SMAEventWindow.value_].
        rewrite double_sma_ref_seed by done. by rewrite Hl.
    + eexists. split; [done|]. split; [done|].
      cbn [Double.SMAEventWindow.value_].
      rewrite Hval, !double_sma_ref_None;
        [done|rewrite length_app; simpl; lia|lia].
  - rewrite bool_decide_eq_false_2 by (by intros [? ?]).
    cbn [andb]. eexists. split; [done|]. split; [done|].
    cbn [Double.SMAEventWindow.value_].
    change (Double.present [None]) with (@nil double).
    by rewrite app_nil_r.
Qed.

Lemma double_SMA_inv_init (period : Z) :
  0 < period →
  ∃ w, Double.SMAEventWindow.init period = Ok w
       ∧ Double.SMA_inv (Z.to_nat period) w [].
Proof.
  intros Hp. unfold Double.SMAEventWindow.init.
  rewrite bool_decide_eq_true_2 by lia. simpl.
  destruct (double_EW_inv_init period Hp) as (w & -> & Hw). simpl.
  eexists. split; [done|]. split; [done|]. simpl.
  rewrite double_sma_ref_None; [done|simpl; lia].
Qed.

(** ** Doubles: feeding a filter *)

Lemma double_outputs_length ref ps vs :
  length (Double.outputs ref ps vs) = length vs.
Proof.
  revert ps. induction vs as [|v vs IH]; intros ps; simpl; [done|].
  by rewrite IH.
Qed.

Lemma double_outputs_lookup ref ps vs (i : nat) :
  (i < length vs)%nat →
  Double.outputs ref ps vs !! i
  = Some (ref (ps ++ Double.present (take (S i) vs))).
Proof.
  revert ps i. induction vs as [|v vs IH]; intros ps i Hi; [simpl in Hi; lia|].
  destruct i as [|i].
  - cbn [Double.outputs lookup list_lookup take]. done.
  - cbn [Double.outputs]. rewrite lookup_cons_ne_0 by done. cbn [pred].
    rewrite IH by (simpl in Hi; lia).
    rewrite <-app_assoc, <-double_present_cons. done.
Qed.

Section double_feeding.
Context {W : Type} `{Double.EventWindowLike W}.
Variable Inv : W → list double → Prop.
Variable ref : list double → option double.
Hypothesis Inv_step : ∀ w ps v, Inv w ps →
  ∃ w', Double.ew_onNewValue w v = Ok w' ∧ Inv w' (ps ++ Double.present [v]).
Hypothesis Inv_value : ∀ w ps, Inv w ps → Double.ew_getValue w = Ok (ref ps).

Lemma double_filter_feed_inv (f : Double.EventBasedFilter.t W) ps vs :
  Inv (Double.EventBasedFilter.eventWindow f) ps →
  ∃ f', Double.EventBasedFilter.feed f vs = Ok f'
        ∧ Inv (Double.EventBasedFilter.eventWindow f') (ps ++ Double.present vs)
        ∧ Double.EventBasedFilter.appended f'
          = Double.EventBasedFilter.appended f ++ Double.outputs ref ps vs.
Proof.
  revert f ps. induction vs as [|v vs IH]; intros f ps Hinv.
  - exists f. simpl. by rewrite !app_nil_r.
  - destruct (Inv_step _ ps v Hinv) as (w1 & Hstep & Hinv1).
    destruct (IH (Double.EventBasedFilter.Build w1
                    (Double.EventBasedFilter.appended f
                     ++ [ref (ps ++ Double.present [v])]))
                 _ Hinv1) as (f' & Hfeed & Hinv' & Happ).
    exists f'. cbn [Double.EventBasedFilter.feed].
    unfold Double.EventBasedFilter.onNewValue.
    rewrite Hstep, !Ok_bind, (Inv_value _ _ Hinv1), !Ok_bind, Hfeed.
    split_and!; [done|by rewrite double_present_cons, app_assoc|].
    rewrite Happ. cbn [Double.EventBasedFilter.appended Double.outputs].
    by rewrite <-app_assoc.
Qed.
End double_feeding.

(** The values the [SMA] filter appends in doubles, for any history. *)
Lemma double_SMA_feed (N : Z) (vs : list (option double)) :
  0 < N < 2 ^ 63 →
  ∃ f f', Double.SMA N = Ok f ∧ Double.EventBasedFilter.feed f vs = Ok f'
          ∧ Double.EventBasedFilter.appended f'
            = Double.outputs (Double.sma_ref (Z.to_nat N)) [] vs.
Proof.
  intros HN. destruct (double_SMA_inv_init N) as (w & Hinit & Hinv); [lia|].
  unfold Double.SMA. rewrite Hinit, Ok_bind.
  destruct (double_filter_feed_inv (H:=Double.SMA_window)
              (Double.SMA_inv (Z.to_nat N)) (Double.sma_ref (Z.to_nat N))
              (λ w ps v H, double_SMA_inv_step (Z.to_nat N) w ps v
                             ltac:(lia) ltac:(lia) H)
              (λ w ps H, f_equal Ok (proj2 H))
              (Double.EventBasedFilter.init w) [] vs Hinv)
    as (f' & Hfeed & _ & Happ).
  eauto 10.
Qed.

(** ** C6: the incremental simple moving average *)

(** C6, as stated, fails over floats. In doubles the [SMA] filter of period
    2 fed 1e16, 1, 1 appends 0.0 at position 2, where the window holds 1, 1
    and the direct sum-and-divide average, which [calculate_sma] returns
    on that window, is 1.0: [5e15 + 1/2] rounds to [5e15], and
    [5e15 - 1e16/2] is 0. The two differ by the whole of the average, far
    more than a relative tolerance of 1e-9. *)
Lemma SMA_float_tolerance_counterexample :
  ∃ f f',
    Double.SMA 2 = Ok f
    ∧ Double.EventBasedFilter.feed f (Some <$> [1e16; 1; 1]%float) = Ok f'
    ∧ Double.EventBasedFilter.appended f' !! 2%nat = Some (Some 0%float)
    ∧ Double.calculate_sma (Some <$> lastn 2 [1e16; 1; 1]%float) 0 2
      = Ok (Some 1%float)
    ∧ Double.within (1 / 1000000000)%float 0%float 1%float = false.
Proof.
  destruct (double_SMA_feed 2 (Some <$> [1e16; 1; 1]%float))
    as (f & f' & Hf & Hfeed & Happ); [lia|].
  exists f, f'. split_and!; [done|done| | |].
  - rewrite Happ. by vm_compute.
  - by vm_compute.
  - by vm_compute.
Qed.

(** C6, amended. For a window size [N > 0] and any finite sequence of
    present samples, the [SMA] filter appends one value per sample.
    Over the rationals, at every position from [N - 1] on the value is the
    direct average (sum, then divide by [N]) of the last [N] samples, which
    is what [calculate_sma] returns on that window; the incremental step
    of the code is [old + newest / N - oldest / N], each term divided
    before it is added, and equals [old + (newest - oldest) / N]. In
    doubles, for [N < 2^63], the filter appends [Double.sma_ref] of the
    samples so far: nothing before [N] samples, the rounded sum of the
    first [N] samples over [N] when the window is first full, which is
    what [calculate_sma] returns there, and at each later sample
    [old + newest / N - oldest / N] with every operation rounded, [oldest]
    being the sample that leaves the window; no tolerance to the direct
    average is stated. The samples 1, 2, 3, 4, 5 with [N = 3] give 2, 3,
    4 over the rationals and 2.0, 2.9999999999999996, 3.9999999999999996
    in doubles. *)
Theorem SMA_incremental_formula (N : Z) (xs : list Qc) (ds : list double) :
  0 < N →
  (∃ f f', SMA N = Ok f ∧ EventBasedFilter.feed f (Some <$> xs) = Ok f'
      ∧ length (EventBasedFilter.appended f') = length xs
      ∧ ∀ i : nat, (Z.to_nat N ≤ S i ≤ length xs)%nat →
          EventBasedFilter.appended f' !! i
          = Some (Some (average (lastn (Z.to_nat N) (take (S i) xs))))
          ∧ calculate_sma (Some <$> lastn (Z.to_nat N) (take (S i) xs)) 0 N
            = Ok (Some (average (lastn (Z.to_nat N) (take (S i) xs)))))
  ∧ (∀ w old a x t,
       SMAEventWindow.value_ w = Some old →
       EventWindow.getValues (SMAEventWindow.window w) = Some a :: t →
       EventWindow.getWindowSize (SMAEventWindow.window w) = N →
       Z.of_nat (length (Some a :: t)) = N →
       ∃ w', SMAEventWindow.onNewValue w (Some x) = Ok w'
             ∧ SMAEventWindow.value_ w' = Some (old + x / float N - a / float N)%Qc
             ∧ (old + x / float N - a / float N = old + (x - a) / float N)%Qc)
  ∧ (N < 2 ^ 63 →
     (∃ f f', Double.SMA N = Ok f
        ∧ Double.EventBasedFilter.feed f (Some <$> ds) = Ok f'
        ∧ length (Double.EventBasedFilter.appended f') = length ds
        ∧ ∀ i : nat, (i < length ds)%nat →
            Double.EventBasedFilter.appended f' !! i
            = Some (Double.sma_ref (Z.to_nat N) (take (S i) ds)))
     ∧ (∀ ps, (length ps < Z.to_nat N)%nat →
          Double.sma_ref (Z.to_nat N) ps = None)
     ∧ (∀ ps, length ps = Z.to_nat N →
          Double.sma_ref (Z.to_nat N) ps
          = Some (Double.sum ps / Double.float N)%float
          ∧ Double.calculate_sma (Some <$> ps) 0 N
            = Ok (Some (Double.sum ps / Double.float N)%float))
     ∧ (∀ ps newest old oldest,
          Double.sma_ref (Z.to_nat N) ps = Some old →
          ps !! (length ps - Z.to_nat N)%nat = Some oldest →
          Double.sma_ref (Z.to_nat N) (ps ++ [newest])
          = Some (old + newest / Double.float N
                  - oldest / Double.float N)%float))
  ∧ (f ← SMA 3;
     f' ← EventBasedFilter.feed f (Some <$> (Qc_of_Z <$> [1; 2; 3; 4; 5]));
     Ok (EventBasedFilter.appended f'))
    = Ok [None; None; Some (Qc_of_Z 2); Some (Qc_of_Z 3); Some (Qc_of_Z 4)]
  ∧ (f ← Double.SMA 3;
     f' ← Double.EventBasedFilter.feed f (Some <$> [1; 2; 3; 4; 5]%float);
     Ok (Double.EventBasedFilter.appended f'))
    = Ok [None; None; Some 2%float; Some 0x1.7ffffffffffffp+1%float;
          Some 0x1.fffffffffffffp+1%float].
Proof.
  intros HN. split_and!.
  - destruct (SMA_feed N (Some <$> xs) HN) as (f & f' & Hf & Hfeed & _ & Happ).
    exists f, f'. split_and!; [done|done| |].
    + by rewrite Happ, outputs_length, length_fmap.
    + intros i Hi.
      assert (length (lastn (Z.to_nat N) (take (S i) xs)) = Z.to_nat N) as Hlen.
      { rewrite lastn_length, length_take. lia. }
      split.
      * rewrite Happ, outputs_lookup by (rewrite length_fmap; lia).
        rewrite app_nil_l, <-fmap_take, present_Some.
        rewrite sma_ref_Some by (rewrite length_take; lia). done.
      * replace N with (Z.of_nat (length (lastn (Z.to_nat N) (take (S i) xs))))
          at 2 by lia.
        apply calculate_sma_average. intros Heq. rewrite Heq in Hlen.
        simpl in Hlen. lia.
  - intros w old a x t Hval Hvals Hws Hlen.
    destruct (SMA_onNewValue_incremental w old a x t Hval Hvals)
      as (w' & Hstep & _ & Hval'); [lia|].
    exists w'. rewrite Hws in Hval'. split_and!; [done|done|].
    apply slide_single_division, float_nonzero. lia.
  - intros HN'.
    assert (Z.of_nat (Z.to_nat N) = N) as HNN by lia.
    split; [|split; [|split]].
    + destruct (double_SMA_feed N (Some <$> ds))
        as (f & f' & Hf & Hfeed & Happ); [lia|].
      exists f, f'. split_and!; [done|done| |].
      * by rewrite Happ, double_outputs_length, length_fmap.
      * intros i Hi.
        rewrite Happ, double_outputs_lookup by (rewrite length_fmap; lia).
        by rewrite app_nil_l, <-fmap_take, double_present_Some.
    + intros ps Hlen. by apply double_sma_ref_None.
    + intros ps Hlen. split.
      * rewrite double_sma_ref_seed by done. by rewrite HNN.
      * rewrite <-HNN, <-Hlen.
        apply double_calculate_sma_sum; [|lia].
        intros ->. simpl in Hlen. lia.
    + intros ps newest old oldest Hold Hlk.
      rewrite <-HNN at 2 3. apply double_sma_ref_snoc; [lia|done|done].
  - apply (bool_decide_unpack _). by vm_compute.
  - by vm_compute.
Qed.

Lemma SMA_incremental_formula_witness :
  0 < 2
  ∧ (∃ f f', SMA 2 = Ok f
      ∧ EventBasedFilter.feed f (Some <$> [Qc_of_Z 4; Qc_of_Z 8; Qc_of_Z 6]) = Ok f'
      ∧ length (EventBasedFilter.appended f')
        = length [Qc_of_Z 4; Qc_of_Z 8; Qc_of_Z 6]
      ∧ ∀ i : nat,
          (Z.to_nat 2 ≤ S i ≤ length [Qc_of_Z 4; Qc_of_Z 8; Qc_of_Z 6])%nat →
          EventBasedFilter.appended f' !! i
          = Some (Some (average (lastn (Z.to_nat 2)
                                   (take (S i) [Qc_of_Z 4; Qc_of_Z 8; Qc_of_Z 6]))))
          ∧ calculate_sma
              (Some <$> lastn (Z.to_nat 2)
                          (take (S i) [Qc_of_Z 4; Qc_of_Z 8; Qc_of_Z 6])) 0 2
            = Ok (Some (average (lastn (Z.to_nat 2)
                                   (take (S i) [Qc_of_Z 4; Qc_of_Z 8; Qc_of_Z 6])))))
  ∧ (∀ w old a x t,
       SMAEventWindow.value_ w = Some old →
       EventWindow.getValues (SMAEventWindow.window w) = Some a :: t →
       EventWindow.getWindowSize (SMAEventWindow.window w) = 2 →
       Z.of_nat (length (Some a :: t)) = 2 →
       ∃ w', SMAEventWindow.onNewValue w (Some x) = Ok w'
             ∧ SMAEventWindow.value_ w' = Some (old + x / float 2 - a / float 2)%Qc
             ∧ (old + x / float 2 - a / float 2 = old + (x - a) / float 2)%Qc)
  ∧ (2 < 2 ^ 63 →
     (∃ f f', Double.SMA 2 = Ok f
        ∧ Double.EventBasedFilter.feed f (Some <$> [1e16; 1; 1]%float) = Ok f'
        ∧ length (Double.EventBasedFilter.appended f')
          = length [1e16; 1; 1]%float
        ∧ ∀ i : nat, (i < length [1e16; 1; 1]%float)%nat →
            Double.EventBasedFilter.appended f' !! i
            = Some (Double.sma_ref (Z.to_nat 2) (take (S i) [1e16; 1; 1]%float)))
     ∧ (∀ ps, (length ps < Z.to_nat 2)%nat →
          Double.sma_ref (Z.to_nat 2) ps = None)
     ∧ (∀ ps, length ps = Z.to_nat 2 →
          Double.sma_ref (Z.to_nat 2) ps
          = Some (Double.sum ps / Double.float 2)%float
          ∧ Double.calculate_sma (Some <$> ps) 0 2
            = Ok (Some (Double.sum ps / Double.float 2)%float))
     ∧ (∀ ps newest old oldest,
          Double.sma_ref (Z.to_nat 2) ps = Some old →
          ps !! (length ps - Z.to_nat 2)%nat = Some oldest →
          Double.sma_ref (Z.to_nat 2) (ps ++ [newest])
          = Some (old + newest / Double.float 2
                  - oldest / Double.float 2)%float))
  ∧ (f ← SMA 3;
     f' ← EventBasedFilter.feed f (Some <$> (Qc_of_Z <$> [1; 2; 3; 4; 5]));
     Ok (EventBasedFilter.appended f'))
    = Ok [None; None; Some (Qc_of_Z 2); Some (Qc_of_Z 3); Some (Qc_of_Z 4)]
  ∧ (f ← Double.SMA 3;
     f' ← Double.EventBasedFilter.feed f (Some <$> [1; 2; 3; 4; 5]%float);
     Ok (Double.EventBasedFilter.appended f'))
    = Ok [None; None; Some 2%float; Some 0x1.7ffffffffffffp+1%float;
          Some 0x1.fffffffffffffp+1%float].
Proof.
  assert (0 < 2) as H by lia.
  exact (conj H (SMA_incremental_formula 2
                   [Qc_of_Z 4; Qc_of_Z 8; Qc_of_Z 6] [1e16; 1; 1]%float H)).
Defined.

(** ** C9: the exponential moving average *)

(** C9, as stated, fails in its example: with the samples 1, 2, 3, 4, 5
    and [N = 2] the value at position 3 is [(4 - 5/2) * (2/3) + 5/2 = 7/2],
    which is not approximately 3.4166 (it does not even lie between 3.41
    and 3.42). *)
Lemma EMA_example_counterexample :
  ∃ f f',
    EMA 2 = Ok f
    ∧ EventBasedFilter.feed f (Some <$> (Qc_of_Z <$> [1; 2; 3; 4; 5])) = Ok f'
    ∧ EventBasedFilter.appended f' !! 3%nat = Some (Some (Q2Qc (7 # 2)))
    ∧ ¬ (Q2Qc (341 # 100) < Q2Qc (7 # 2) < Q2Qc (342 # 100))%Qc.
Proof.
  destruct (EMA_feed 2 (Some <$> (Qc_of_Z <$> [1; 2; 3; 4; 5])))
    as (f & f' & Hf & Hfeed & _ & Happ); [lia|].
  exists f, f'. split_and!; [done|done| |].
  - rewrite Happ. apply (bool_decide_unpack _). by vm_compute.
  - intros [_ Hlt]. by vm_compute in Hlt.
Qed.

(** C9, amended. For a period [N > 1] the multiplier of [EMAEventWindow]
    is [2 / (N + 1)]. For any history of samples the [EMA] filter appends,
    at each position, [ema_ref] of the present samples so far: nothing
    before [N] present samples, the simple average of the first [N]
    present samples when the window is first full, and for each later
    present sample [x] the value [(x - previous) * multiplier + previous].
    The samples 1, 2, 3, 4, 5 with [N = 2] give 3/2, 5/2, 7/2 and 9/2.
    Numbers are exact rationals. *)
Theorem EMA_formula (N : Z) (vs : list (option Qc)) :
  1 < N →
  (∃ w, EMAEventWindow.init N = Ok w
        ∧ EMAEventWindow.multiplier w = (2 / float (N + 1))%Qc)
  ∧ (∃ f f', EMA N = Ok f ∧ EventBasedFilter.feed f vs = Ok f'
       ∧ EMAEventWindow.getValue (EventBasedFilter.eventWindow f')
         = ema_ref (Z.to_nat N) (2 / float (N + 1))%Qc (present vs)
       ∧ EventBasedFilter.appended f'
         = outputs (ema_ref (Z.to_nat N) (2 / float (N + 1))%Qc) [] vs)
  ∧ (∀ m ps, (length ps < Z.to_nat N)%nat → ema_ref (Z.to_nat N) m ps = None)
  ∧ (∀ m ps, length ps = Z.to_nat N →
       ema_ref (Z.to_nat N) m ps = Some (average ps)
       ∧ calculate_sma (Some <$> ps) 0 N = Ok (Some (average ps)))
  ∧ (∀ m ps x previous, ema_ref (Z.to_nat N) m ps = Some previous →
       ema_ref (Z.to_nat N) m (ps ++ [x]) = Some ((x - previous) * m + previous)%Qc)
  ∧ (f ← EMA 2;
     f' ← EventBasedFilter.feed f (Some <$> (Qc_of_Z <$> [1; 2; 3; 4; 5]));
     Ok (EventBasedFilter.appended f'))
    = Ok [None; Some (Q2Qc (3 # 2)); Some (Q2Qc (5 # 2)); Some (Q2Qc (7 # 2));
          Some (Q2Qc (9 # 2))].
Proof.
  intros HN. split_and!.
  - destruct (EMA_inv_init N HN) as (w & Hinit & Hm & _). eauto.
  - destruct (EMA_feed N vs HN) as (f & f' & Hf & Hfeed & Hinv & Happ).
    exists f, f'. split_and!; [done|done| |done].
    destruct Hinv as (_ & _ & Hval). unfold EMAEventWindow.getValue.
    rewrite Hval. by replace (Z.of_nat (Z.to_nat N)) with N by lia.
  - intros m ps Hlen. by apply ema_ref_None.
  - intros m ps Hlen. split; [by apply ema_ref_seed|].
    replace N with (Z.of_nat (length ps)) by lia.
    apply calculate_sma_average. intros ->. simpl in Hlen. lia.
  - intros m ps x previous Hprev. by apply ema_ref_snoc.
  - apply (bool_decide_unpack _). by vm_compute.
Qed.

Lemma EMA_formula_witness :
  1 < 2
  ∧ (∃ w, EMAEventWindow.init 2 = Ok w
          ∧ EMAEventWindow.multiplier w = (2 / float (2 + 1))%Qc)
  ∧ (∃ f f', EMA 2 = Ok f
       ∧ EventBasedFilter.feed f [Some (Qc_of_Z 1); None; Some (Qc_of_Z 2)] = Ok f'
       ∧ EMAEventWindow.getValue (EventBasedFilter.eventWindow f')
         = ema_ref (Z.to_nat 2) (2 / float (2 + 1))%Qc
             (present [Some (Qc_of_Z 1); None; Some (Qc_of_Z 2)])
       ∧ EventBasedFilter.appended f'
         = outputs (ema_ref (Z.to_nat 2) (2 / float (2 + 1))%Qc) []
             [Some (Qc_of_Z 1); None; Some (Qc_of_Z 2)])
  ∧ (∀ m ps, (length ps < Z.to_nat 2)%nat → ema_ref (Z.to_nat 2) m ps = None)
  ∧ (∀ m ps, length ps = Z.to_nat 2 →
       ema_ref (Z.to_nat 2) m ps = Some (average ps)
       ∧ calculate_sma (Some <$> ps) 0 2 = Ok (Some (average ps)))
  ∧ (∀ m ps x previous, ema_ref (Z.to_nat 2) m ps = Some previous →
       ema_ref (Z.to_nat 2) m (ps ++ [x]) = Some ((x - previous) * m + previous)%Qc)
  ∧ (f ← EMA 2;
     f' ← EventBasedFilter.feed f (Some <$> (Qc_of_Z <$> [1; 2; 3; 4; 5]));
     Ok (EventBasedFilter.appended f'))
    = Ok [None; Some (Q2Qc (3 # 2)); Some (Q2Qc (5 # 2)); Some (Q2Qc (7 # 2));
          Some (Q2Qc (9 # 2))].
Proof.
  assert (1 < 2) as H by lia.
  exact (conj H (EMA_formula 2 [Some (Qc_of_Z 1); None; Some (Qc_of_Z 2)] H)).
Defined.

(** ** C8: missing samples *)

(** C8. For every event window, pushing [None] leaves the window as it
    was, buffer and held value included: the base [EventWindow], the SMA
    window in every state reached from its constructor, the EMA and the
    WMA windows in every state. After any history of samples pushed onto
    a new window of size [N], the buffer holds the last [N] present
    samples, so its length is the smaller of [N] and the number of present
    samples: it never exceeds [N] and it is [N] exactly when at least [N]
    present samples were pushed, however many missing ones came between. *)
Theorem missing_samples_skipped (N : Z) (weights : list Qc) (vs : list (option Qc)) :
  0 < N → weights ≠ [] →
  (∀ w, EventWindow.onNewValue w None = w)
  ∧ (∃ w0, EventWindow.init N = Ok w0
       ∧ EventWindow.getValues (foldl EventWindow.onNewValue w0 vs)
         = Some <$> lastn (Z.to_nat N) (present vs)
       ∧ len (foldl EventWindow.onNewValue w0 vs)
         = N `min` Z.of_nat (length (present vs))
       ∧ len (foldl EventWindow.onNewValue w0 vs) ≤ N
       ∧ (len (foldl EventWindow.onNewValue w0 vs) = N
          ↔ N ≤ Z.of_nat (length (present vs))))
  ∧ (∃ w0 w, SMAEventWindow.init N = Ok w0 ∧ ew_feed w0 vs = Ok w
       ∧ SMAEventWindow.onNewValue w None = Ok w
       ∧ EventWindow.getValues (SMAEventWindow.window w)
         = Some <$> lastn (Z.to_nat N) (present vs)
       ∧ len (SMAEventWindow.window w) = N `min` Z.of_nat (length (present vs)))
  ∧ (1 < N →
     ∃ w0 w, EMAEventWindow.init N = Ok w0 ∧ ew_feed w0 vs = Ok w
       ∧ EMAEventWindow.onNewValue w None = Ok w
       ∧ EventWindow.getValues (EMAEventWindow.window w)
         = Some <$> lastn (Z.to_nat N) (present vs)
       ∧ len (EMAEventWindow.window w) = N `min` Z.of_nat (length (present vs)))
  ∧ (∃ w0 w, WMAEventWindow.init weights = Ok w0 ∧ ew_feed w0 vs = Ok w
       ∧ WMAEventWindow.onNewValue w None = Ok w
       ∧ EventWindow.getValues (WMAEventWindow.window w)
         = Some <$> lastn (length weights) (present vs)
       ∧ len (WMAEventWindow.window w)
         = Z.of_nat (length weights) `min` Z.of_nat (length (present vs))).
Proof.
  intros HN Hne.
  assert (0 < Z.to_nat N)%nat as HN' by lia.
  split_and!.
  - done.
  - destruct (EW_inv_init N HN) as (w0 & Hinit & Hinv0).
    pose proof (EW_inv_feed _ w0 [] vs HN' Hinv0) as Hinv.
    rewrite app_nil_l in Hinv. pose proof (EW_inv_len _ _ _ Hinv) as Hlen.
    exists w0. destruct Hinv as [_ Hvals].
    split_and!; try done; lia.
  - destruct (SMA_inv_init N HN) as (w0 & Hinit & Hinv0).
    destruct (ew_feed_inv (H:=SMA_window) (SMA_inv (Z.to_nat N))
                (λ w ps v H, SMA_inv_step (Z.to_nat N) w ps v HN' H) w0 [] vs Hinv0)
      as (w & Hfeed & Hinv).
    rewrite app_nil_l in Hinv. exists w0, w.
    pose proof (SMA_onNewValue_None _ _ _ Hinv) as Hnone.
    destruct Hinv as [Hew _]. pose proof (EW_inv_len _ _ _ Hew) as Hlen.
    destruct Hew as [_ Hvals]. split_and!; [done..|lia].
  - intros HN1. destruct (EMA_inv_init N HN1) as (w0 & Hinit & _ & Hinv0).
    destruct (ew_feed_inv (H:=EMA_window) (EMA_inv (Z.to_nat N))
                (λ w ps v H, EMA_inv_step (Z.to_nat N) w ps v HN' H) w0 [] vs Hinv0)
      as (w & Hfeed & Hinv).
    rewrite app_nil_l in Hinv. exists w0, w.
    destruct Hinv as [Hew _]. pose proof (EW_inv_len _ _ _ Hew) as Hlen.
    destruct Hew as [_ Hvals].
    split_and!; [done|done|apply EMA_onNewValue_None|done|lia].
  - destruct (WMA_inv_init weights Hne) as (w0 & Hinit & Hinv0).
    destruct (ew_feed_inv (H:=WMA_window) (WMA_inv weights)
                (λ w ps v H, WMA_inv_step weights w ps v Hne H) w0 [] vs Hinv0)
      as (w & Hfeed & Hinv).
    rewrite app_nil_l in Hinv. exists w0, w.
    destruct Hinv as [Hew _]. pose proof (EW_inv_len _ _ _ Hew) as Hlen.
    destruct Hew as [_ Hvals].
    split_and!; [done|done|apply WMA_onNewValue_None|done|lia].
Qed.

Lemma missing_samples_skipped_witness :
  (0 < 2 ∧ [Qc_of_Z 1; Qc_of_Z 3] ≠ [])
  ∧ (∀ w, EventWindow.onNewValue w None = w)
  ∧ (∃ w0, EventWindow.init 2 = Ok w0
       ∧ EventWindow.getValues
           (foldl EventWindow.onNewValue w0 [Some (Qc_of_Z 5); None; Some (Qc_of_Z 7)])
         = Some <$> lastn (Z.to_nat 2)
                      (present [Some (Qc_of_Z 5); None; Some (Qc_of_Z 7)])
       ∧ len (foldl EventWindow.onNewValue w0 [Some (Qc_of_Z 5); None; Some (Qc_of_Z 7)])
         = 2 `min` Z.of_nat (length (present [Some (Qc_of_Z 5); None; Some (Qc_of_Z 7)]))
       ∧ len (foldl EventWindow.onNewValue w0 [Some (Qc_of_Z 5); None; Some (Qc_of_Z 7)])
         ≤ 2
       ∧ (len (foldl EventWindow.onNewValue w0
                 [Some (Qc_of_Z 5); None; Some (Qc_of_Z 7)]) = 2
          ↔ 2 ≤ Z.of_nat (length (present [Some (Qc_of_Z 5); None; Some (Qc_of_Z 7)]))))
  ∧ (∃ w0 w, SMAEventWindow.init 2 = Ok w0
       ∧ ew_feed w0 [Some (Qc_of_Z 5); None; Some (Qc_of_Z 7)] = Ok w
       ∧ SMAEventWindow.onNewValue w None = Ok w
       ∧ EventWindow.getValues (SMAEventWindow.window w)
         = Some <$> lastn (Z.to_nat 2)
                      (present [Some (Qc_of_Z 5); None; Some (Qc_of_Z 7)])
       ∧ len (SMAEventWindow.window w)
         = 2 `min` Z.of_nat (length (present [Some (Qc_of_Z 5); None; Some (Qc_of_Z 7)])))
  ∧ (1 < 2 →
     ∃ w0 w, EMAEventWindow.init 2 = Ok w0
       ∧ ew_feed w0 [Some (Qc_of_Z 5); None; Some (Qc_of_Z 7)] = Ok w
       ∧ EMAEventWindow.onNewValue w None = Ok w
       ∧ EventWindow.getValues (EMAEventWindow.window w)
         = Some <$> lastn (Z.to_nat 2)
                      (present [Some (Qc_of_Z 5); None; Some (Qc_of_Z 7)])
       ∧ len (EMAEventWindow.window w)
         = 2 `min` Z.of_nat (length (present [Some (Qc_of_Z 5); None; Some (Qc_of_Z 7)])))
  ∧ (∃ w0 w, WMAEventWindow.init [Qc_of_Z 1; Qc_of_Z 3] = Ok w0
       ∧ ew_feed w0 [Some (Qc_of_Z 5); None; Some (Qc_of_Z 7)] = Ok w
       ∧ WMAEventWindow.onNewValue w None = Ok w
       ∧ EventWindow.getValues (WMAEventWindow.window w)
         = Some <$> lastn (length [Qc_of_Z 1; Qc_of_Z 3])
                      (present [Some (Qc_of_Z 5); None; Some (Qc_of_Z 7)])
       ∧ len (WMAEventWindow.window w)
         = Z.of_nat (length [Qc_of_Z 1; Qc_of_Z 3])
           `min` Z.of_nat (length (present [Some (Qc_of_Z 5); None; Some (Qc_of_Z 7)]))).
Proof.
  assert (0 < 2) as H1 by lia.
  assert ([Qc_of_Z 1; Qc_of_Z 3] ≠ []) as H2 by discriminate.
  exact (conj (conj H1 H2)
           (missing_samples_skipped 2 [Qc_of_Z 1; Qc_of_Z 3]
              [Some (Qc_of_Z 5); None; Some (Qc_of_Z 7)] H1 H2)).
Defined.

(** ** C10: a full window stays full *)

Lemma sma_ref_is_Some (n : nat) (ps : list Qc) :
  is_Some (sma_ref n ps) ↔ (n ≤ length ps)%nat.
Proof.
  unfold sma_ref. case_decide; split; try done; try lia; by intros [? ?].
Qed.

Lemma ema_ref_is_Some (n : nat) (m : Qc) (ps : list Qc) :
  is_Some (ema_ref n m ps) ↔ (n ≤ length ps)%nat.
Proof.
  unfold ema_ref. case_decide; split; try done; try lia; by intros [? ?].
Qed.

(** C10. A buffer that holds [N] values, [N] being the window size, holds
    exactly [N] values after any further pushes, present or absent. For
    the SMA and the EMA window (the latter for [N > 1]), in any state
    reached from the constructor by a history [vs], any further history
    [vs2] is accepted, keeps a full buffer full and keeps a present
    derived value present. *)
Theorem full_window_stays_full (N : Z) (vs vs2 : list (option Qc)) :
  0 < N →
  (∀ w, EventWindow.getWindowSize w = N → len w = N →
        len (foldl EventWindow.onNewValue w vs2) = N)
  ∧ (∃ w0 w w2, SMAEventWindow.init N = Ok w0
       ∧ ew_feed w0 vs = Ok w ∧ ew_feed w vs2 = Ok w2
       ∧ (len (SMAEventWindow.window w) = N → len (SMAEventWindow.window w2) = N)
       ∧ (is_Some (SMAEventWindow.getValue w) → is_Some (SMAEventWindow.getValue w2)))
  ∧ (1 < N →
     ∃ w0 w w2, EMAEventWindow.init N = Ok w0
       ∧ ew_feed w0 vs = Ok w ∧ ew_feed w vs2 = Ok w2
       ∧ (len (EMAEventWindow.window w) = N → len (EMAEventWindow.window w2) = N)
       ∧ (is_Some (EMAEventWindow.getValue w) → is_Some (EMAEventWindow.getValue w2))).
Proof.
  intros HN.
  assert (0 < Z.to_nat N)%nat as HN' by lia.
  split_and!.
  - intros w Hws Hlen.
    destruct (EventWindow_full_forever w vs2) as [_ ->]; [lia..|done].
  - destruct (SMA_inv_init N HN) as (w0 & Hinit & Hinv0).
    destruct (ew_feed_inv (H:=SMA_window) (SMA_inv (Z.to_nat N))
                (λ w ps v H, SMA_inv_step (Z.to_nat N) w ps v HN' H) w0 [] vs Hinv0)
      as (w & Hfeed & Hinv).
    destruct (ew_feed_inv (H:=SMA_window) (SMA_inv (Z.to_nat N))
                (λ w ps v H, SMA_inv_step (Z.to_nat N) w ps v HN' H) w _ vs2 Hinv)
      as (w2 & Hfeed2 & Hinv2).
    exists w0, w, w2. split_and!; [done..| |].
    + destruct Hinv as [Hew _], Hinv2 as [Hew2 _].
      rewrite (EW_inv_len _ _ _ Hew), (EW_inv_len _ _ _ Hew2), !length_app.
      simpl. lia.
    + destruct Hinv as [_ Hval], Hinv2 as [_ Hval2].
      unfold SMAEventWindow.getValue. rewrite Hval, Hval2.
      rewrite !sma_ref_is_Some, !length_app. simpl. lia.
  - intros HN1. destruct (EMA_inv_init N HN1) as (w0 & Hinit & _ & Hinv0).
    destruct (ew_feed_inv (H:=EMA_window) (EMA_inv (Z.to_nat N))
                (λ w ps v H, EMA_inv_step (Z.to_nat N) w ps v HN' H) w0 [] vs Hinv0)
      as (w & Hfeed & Hinv).
    destruct (ew_feed_inv (H:=EMA_window) (EMA_inv (Z.to_nat N))
                (λ w ps v H, EMA_inv_step (Z.to_nat N) w ps v HN' H) w _ vs2 Hinv)
      as (w2 & Hfeed2 & Hinv2).
    exists w0, w, w2. split_and!; [done..| |].
    + destruct Hinv as [Hew _], Hinv2 as [Hew2 _].
      rewrite (EW_inv_len _ _ _ Hew), (EW_inv_len _ _ _ Hew2), !length_app.
      simpl. lia.
    + destruct Hinv as (_ & _ & Hval), Hinv2 as (_ & _ & Hval2).
      unfold EMAEventWindow.getValue. rewrite Hval, Hval2.
      rewrite !ema_ref_is_Some, !length_app. simpl. lia.
Qed.

Lemma full_window_stays_full_witness :
  0 < 2
  ∧ (∀ w, EventWindow.getWindowSize w = 2 → len w = 2 →
          len (foldl EventWindow.onNewValue w [None; Some (Qc_of_Z 9)]) = 2)
  ∧ (∃ w0 w w2, SMAEventWindow.init 2 = Ok w0
       ∧ ew_feed w0 [Some (Qc_of_Z 5); None; Some (Qc_of_Z 7)] = Ok w
       ∧ ew_feed w [None; Some (Qc_of_Z 9)] = Ok w2
       ∧ (len (SMAEventWindow.window w) = 2 → len (SMAEventWindow.window w2) = 2)
       ∧ (is_Some (SMAEventWindow.getValue w) → is_Some (SMAEventWindow.getValue w2)))
  ∧ (1 < 2 →
     ∃ w0 w w2, EMAEventWindow.init 2 = Ok w0
       ∧ ew_feed w0 [Some (Qc_of_Z 5); None; Some (Qc_of_Z 7)] = Ok w
       ∧ ew_feed w [None; Some (Qc_of_Z 9)] = Ok w2
       ∧ (len (EMAEventWindow.window w) = 2 → len (EMAEventWindow.window w2) = 2)
       ∧ (is_Some (EMAEventWindow.getValue w) → is_Some (EMAEventWindow.getValue w2))).
Proof.
  assert (0 < 2) as H by lia.
  exact (conj H (full_window_stays_full 2
                   [Some (Qc_of_Z 5); None; Some (Qc_of_Z 7)]
                   [None; Some (Qc_of_Z 9)] H)).
Defined.

(** * Further properties of the caches *)

Section fifo_more.
Context {V : Type}.
Implicit Types c : FIFOCache.t V.

(** One [putValue] that returns: the capacity is kept, and a dictionary
    within the capacity stays within it. *)
Lemma putValue_size c p v c' :
  FIFOCache.putValue c p v = Ok c' →
  FIFOCache.size_ c' = FIFOCache.size_ c
  ∧ (Z.of_nat (size (FIFOCache.cache c)) ≤ FIFOCache.size_ c →
     Z.of_nat (size (FIFOCache.cache c')) ≤ FIFOCache.size_ c).
Proof.
  unfold FIFOCache.putValue.
  pose proof (map_size_insert p v (FIFOCache.cache c)) as Hins.
  case_bool_decide as Hover.
  - destruct (FIFOCache.pos c ++ [p]) as [|k rest]; simpl; [done|].
    unfold FIFOCache.del.
    destruct (<[p:=v]> (FIFOCache.cache c) !! k) as [w|] eqn:Hk; simpl; [|done].
    intros [= <-]. simpl. split; [done|]. intros Hle.
    rewrite map_size_delete_Some by eauto.
    destruct (FIFOCache.cache c !! p); simpl in Hins; lia.
  - intros [= <-]. simpl. split; [done|lia].
Qed.

(** X1. A cache never holds more entries than its capacity: after any
    sequence of [putValue] calls on a new cache that returns, overwrites
    included, the dictionary has at most [size] entries. *)
Theorem fifo_never_exceeds_capacity (size_ : Z) (kvs : list (Z * V)) c0 c :
  FIFOCache.init size_ = Ok c0 →
  FIFOCache.putValues c0 kvs = Ok c →
  FIFOCache.size_ c = size_
  ∧ Z.of_nat (size (FIFOCache.cache c)) ≤ size_.
Proof.
  intros Hinit. destruct (fifo_init_wf _ _ Hinit) as ((Hpos & _) & Hsz & _ & Hempty).
  assert (Z.of_nat (size (FIFOCache.cache c0)) ≤ FIFOCache.size_ c0) as Hle.
  { rewrite Hempty, map_size_empty. lia. }
  rewrite <-Hsz. clear Hinit Hpos Hsz Hempty.
  revert c0 Hle. induction kvs as [|[p v] kvs IH]; intros c0 Hle.
  - by intros [= <-].
  - cbn [FIFOCache.putValues].
    destruct (FIFOCache.putValue c0 p v) as [c1|] eqn:Hput; [|done].
    rewrite Ok_bind. intros Hrest.
    destruct (putValue_size _ _ _ _ Hput) as [Hsz1 Hle1].
    rewrite <-Hsz1. apply IH; [|done]. rewrite Hsz1. auto.
Qed.

(** X2. Insert then look up. In a cache changed only by insertions of
    uncached positions, inserting an uncached position succeeds; the
    position is then cached with the inserted value, no other position
    becomes cached, and every other position that is still cached keeps
    its value. *)
Theorem fifo_put_then_get c (p : Z) (v : V) :
  fifo_wf c →
  FIFOCache.isCached c p = false →
  ∃ c', FIFOCache.putValue c p v = Ok c'
        ∧ fifo_wf c'
        ∧ FIFOCache.isCached c' p = true
        ∧ (∀ default, FIFOCache.getValue c' p default = v)
        ∧ (∀ q, q ≠ p → FIFOCache.isCached c' q = true →
             FIFOCache.isCached c q = true
             ∧ ∀ default, FIFOCache.getValue c' q default
                          = FIFOCache.getValue c q default).
Proof.
  intros Hwf Hp%fifo_not_cached.
  destruct (putValue_fresh c p v Hwf Hp) as (c' & Hput & Hwf' & _ & Hlook & Hsub & _).
  exists c'. split_and!; [done|done| | |].
  - unfold FIFOCache.isCached. rewrite Hlook. by apply bool_decide_eq_true_2.
  - intros d. unfold FIFOCache.getValue. by rewrite Hlook.
  - intros q Hq Hc. unfold FIFOCache.isCached in Hc.
    apply bool_decide_eq_true in Hc as [w Hw].
    destruct (Hsub _ _ Hw) as [[-> _]|Hw']; [done|].
    split.
    + unfold FIFOCache.isCached. rewrite Hw'. by apply bool_decide_eq_true_2.
    + intros d. unfold FIFOCache.getValue. by rewrite Hw, Hw'.
Qed.

Lemma putValues_fresh_values c (kvs : list (Z * V)) c' :
  fifo_wf c → NoDup (FIFOCache.pos c ++ kvs.*1) →
  FIFOCache.putValues c kvs = Ok c' →
  ∀ k w, FIFOCache.cache c' !! k = Some w →
         (k, w) ∈ kvs ∨ FIFOCache.cache c !! k = Some w.
Proof.
  revert c. induction kvs as [|[p v] kvs IH]; intros c Hwf Hnd.
  - intros [= <-]. auto.
  - rewrite fmap_cons, cons_middle, app_assoc in Hnd. simpl fst in *.
    assert (FIFOCache.cache c !! p = None) as Hp.
    { apply fifo_not_cached. apply not_true_is_false.
      rewrite (fifo_wf_cached c p Hwf). intros Hin.
      apply list.NoDup_app in Hnd as (Hnd & _ & _).
      apply list.NoDup_app in Hnd as (_ & Hd & _). apply (Hd p Hin). left. }
    destruct (putValue_fresh c p v Hwf Hp) as (c1 & Hput & Hwf1 & _ & _ & Hsub & Hpos1).
    cbn [FIFOCache.putValues]. rewrite Hput, Ok_bind. intros Hrest k w Hk.
    destruct (IH c1 Hwf1) with (k := k) (w := w) as [Hin|Hold]; [|done|done| |].
    + rewrite Hpos1. case_bool_decide; [done|].
      destruct (FIFOCache.pos c) as [|k0 t]; [done|].
      simpl in *. by apply list.NoDup_cons in Hnd as [_ ?].
    + left. by right.
    + destruct (Hsub _ _ Hold) as [[-> ->]|?]; [left; left|by right].
Qed.

(** X3. A new cache of capacity [size] into which distinct positions are
    inserted accepts them all and ends up holding exactly the last [size]
    of them, each with the value it was inserted with. *)
Theorem fifo_keeps_last_inserted (size_ : Z) (kvs : list (Z * V)) c0 :
  FIFOCache.init size_ = Ok c0 →
  NoDup kvs.*1 →
  ∃ c, FIFOCache.putValues c0 kvs = Ok c
       ∧ FIFOCache.pos c = lastn (Z.to_nat size_) kvs.*1
       ∧ (∀ p, FIFOCache.isCached c p = true ↔ p ∈ lastn (Z.to_nat size_) kvs.*1)
       ∧ (∀ p v default, (p, v) ∈ kvs → FIFOCache.isCached c p = true →
            FIFOCache.getValue c p default = v).
Proof.
  intros Hinit Hnd.
  destruct (fifo_init_wf _ _ Hinit) as (Hwf0 & Hsz & Hpos0 & Hempty).
  destruct (putValues_fresh c0 kvs Hwf0) as (c & Hputs & Hwf & _ & Hpos).
  { by rewrite Hpos0. }
  rewrite Hpos0, Hsz in Hpos. simpl in Hpos.
  exists c. split_and!; [done|done| |].
  - intros p. by rewrite (fifo_wf_cached c p Hwf), Hpos.
  - intros p v d Hin Hc. unfold FIFOCache.isCached in Hc.
    apply bool_decide_eq_true in Hc as [w Hw].
    unfold FIFOCache.getValue. rewrite Hw.
    destruct (putValues_fresh_values c0 kvs c Hwf0) with (k := p) (w := w)
      as [Hin'|Hold]; [by rewrite Hpos0|done|done| |].
    + destruct (list_elem_of_lookup_1 _ _ Hin) as [i Hi].
      destruct (list_elem_of_lookup_1 _ _ Hin') as [j Hj].
      assert (i = j) as ->.
      { eapply NoDup_lookup; [exact Hnd| |];
          rewrite list_lookup_fmap; [by rewrite Hi|by rewrite Hj]. }
      congruence.
    + by rewrite Hempty, lookup_empty in Hold.
Qed.

(** X4. Overwriting does not refresh an entry's age. In a full cache
    changed only by insertions of uncached positions, overwriting the
    oldest position succeeds and is read back, yet the next insertion of
    an uncached position evicts that very position, value just written
    included, and keeps all the others. *)
Theorem fifo_overwrite_keeps_age c (k : Z) (rest : list Z) (v' : V) (p : Z) (w : V) :
  fifo_wf c →
  FIFOCache.pos c = k :: rest →
  Z.of_nat (length (FIFOCache.pos c)) = FIFOCache.size_ c →
  FIFOCache.isCached c p = false →
  ∃ c1 c2,
    FIFOCache.putValue c k v' = Ok c1
    ∧ (∀ default, FIFOCache.getValue c1 k default = v')
    ∧ FIFOCache.putValue c1 p w = Ok c2
    ∧ FIFOCache.isCached c2 k = false
    ∧ FIFOCache.isCached c2 p = true
    ∧ (∀ q, q ∈ rest → FIFOCache.isCached c2 q = true).
Proof.
  intros Hwf Hpos Hfull Hp%fifo_not_cached.
  pose proof (fifo_wf_size c Hwf) as Hsize.
  pose proof Hwf as (Hsz & Hnd & Hdom & _).
  assert (is_Some (FIFOCache.cache c !! k)) as Hk.
  { apply elem_of_dom. rewrite Hdom, Hpos. set_solver. }
  assert (k ≠ p) as Hkp by (intros ->; rewrite Hp in Hk; by destruct Hk).
  rewrite Hpos in Hnd. apply list.NoDup_cons in Hnd as [Hk_rest Hnd].
  eexists _, _. split_and!.
  - unfold FIFOCache.putValue.
    rewrite map_size_insert_Some by done.
    rewrite bool_decide_eq_false_2 by lia. done.
  - intros d. unfold FIFOCache.getValue. simpl. by rewrite lookup_insert_eq.
  - unfold FIFOCache.putValue. simpl.
    rewrite map_size_insert_None by (by rewrite lookup_insert_ne).
    rewrite map_size_insert_Some by done.
    rewrite bool_decide_eq_true_2 by lia.
    rewrite Hpos. simpl. unfold FIFOCache.del.
    rewrite lookup_insert_ne by done. rewrite lookup_insert_eq. done.
  - apply fifo_not_cached. simpl. by rewrite lookup_delete_eq.
  - unfold FIFOCache.isCached. simpl.
    rewrite lookup_delete_ne, lookup_insert_eq by done.
    by apply bool_decide_eq_true_2.
  - intros q Hq. unfold FIFOCache.isCached. simpl.
    assert (q ≠ k) by (by intros ->).
    assert (q ≠ p).
    { intros ->. apply eq_None_not_Some in Hp. apply Hp.
      apply elem_of_dom. rewrite Hdom, Hpos. set_solver. }
    rewrite lookup_delete_ne, !lookup_insert_ne by done.
    apply bool_decide_eq_true_2. apply elem_of_dom. rewrite Hdom, Hpos. set_solver.
Qed.
End fifo_more.

Lemma sample_cache_wf : fifo_wf sample_cache.
Proof.
  unfold fifo_wf. simpl. split_and!; [lia| |set_solver|lia].
  by apply (bool_decide_unpack _).
Qed.

Lemma fifo_never_exceeds_capacity_witness :
  (FIFOCache.init 1 = Ok (FIFOCache.Build 1 (∅ : gmap Z Z) [])
   ∧ FIFOCache.putValues (FIFOCache.Build 1 (∅ : gmap Z Z) [])
       [(1, 10); (1, 11); (2, 12)]
     = Ok (FIFOCache.Build 1 {[2 := 12]} [1; 2]))
  ∧ FIFOCache.size_ (FIFOCache.Build 1 ({[2 := 12]} : gmap Z Z) [1; 2]) = 1
  ∧ Z.of_nat (size (FIFOCache.cache (FIFOCache.Build 1 ({[2 := 12]} : gmap Z Z) [1; 2])))
    ≤ 1.
Proof.
  assert (FIFOCache.init 1 = Ok (FIFOCache.Build 1 (∅ : gmap Z Z) [])) as H1
    by reflexivity.
  assert (FIFOCache.putValues (FIFOCache.Build 1 (∅ : gmap Z Z) [])
            [(1, 10); (1, 11); (2, 12)]
          = Ok (FIFOCache.Build 1 {[2 := 12]} [1; 2])) as H2
    by (vm_compute; reflexivity).
  exact (conj (conj H1 H2)
           (fifo_never_exceeds_capacity 1 [(1, 10); (1, 11); (2, 12)] _ _ H1 H2)).
Defined.

Lemma fifo_put_then_get_witness :
  (fifo_wf sample_cache ∧ FIFOCache.isCached sample_cache 7 = false)
  ∧ ∃ c', FIFOCache.putValue sample_cache 7 70 = Ok c'
          ∧ fifo_wf c'
          ∧ FIFOCache.isCached c' 7 = true
          ∧ (∀ default, FIFOCache.getValue c' 7 default = 70)
          ∧ (∀ q, q ≠ 7 → FIFOCache.isCached c' q = true →
               FIFOCache.isCached sample_cache q = true
               ∧ ∀ default, FIFOCache.getValue c' q default
                            = FIFOCache.getValue sample_cache q default).
Proof.
  assert (FIFOCache.isCached sample_cache 7 = false) as H by reflexivity.
  exact (conj (conj sample_cache_wf H)
           (fifo_put_then_get sample_cache 7 70 sample_cache_wf H)).
Defined.

Lemma fifo_keeps_last_inserted_witness :
  (FIFOCache.init 2 = Ok (FIFOCache.Build 2 (∅ : gmap Z Z) [])
   ∧ NoDup [(1, 10); (2, 20); (3, 30)].*1)
  ∧ ∃ c, FIFOCache.putValues (FIFOCache.Build 2 (∅ : gmap Z Z) [])
           [(1, 10); (2, 20); (3, 30)] = Ok c
         ∧ FIFOCache.pos c = lastn (Z.to_nat 2) [(1, 10); (2, 20); (3, 30)].*1
         ∧ (∀ p, FIFOCache.isCached c p = true
                 ↔ p ∈ lastn (Z.to_nat 2) [(1, 10); (2, 20); (3, 30)].*1)
         ∧ (∀ p v default, (p, v) ∈ [(1, 10); (2, 20); (3, 30)] →
              FIFOCache.isCached c p = true →
              FIFOCache.getValue c p default = v).
Proof.
  assert (FIFOCache.init 2 = Ok (FIFOCache.Build 2 (∅ : gmap Z Z) [])) as H1
    by reflexivity.
  assert (NoDup [(1, 10); (2, 20); (3, 30)].*1) as H2
    by (by apply (bool_decide_unpack _)).
  exact (conj (conj H1 H2)
           (fifo_keeps_last_inserted 2 [(1, 10); (2, 20); (3, 30)] _ H1 H2)).
Defined.

Lemma fifo_overwrite_keeps_age_witness :
  (fifo_wf sample_cache
   ∧ FIFOCache.pos sample_cache = 5 :: [6]
   ∧ Z.of_nat (length (FIFOCache.pos sample_cache)) = FIFOCache.size_ sample_cache
   ∧ FIFOCache.isCached sample_cache 7 = false)
  ∧ ∃ c1 c2,
      FIFOCache.putValue sample_cache 5 51 = Ok c1
      ∧ (∀ default, FIFOCache.getValue c1 5 default = 51)
      ∧ FIFOCache.putValue c1 7 70 = Ok c2
      ∧ FIFOCache.isCached c2 5 = false
      ∧ FIFOCache.isCached c2 7 = true
      ∧ (∀ q, q ∈ [6] → FIFOCache.isCached c2 q = true).
Proof.
  assert (FIFOCache.pos sample_cache = 5 :: [6]) as H1 by reflexivity.
  assert (Z.of_nat (length (FIFOCache.pos sample_cache))
          = FIFOCache.size_ sample_cache) as H2 by reflexivity.
  assert (FIFOCache.isCached sample_cache 7 = false) as H3 by reflexivity.
  exact (conj (conj sample_cache_wf (conj H1 (conj H2 H3)))
           (fifo_overwrite_keeps_age sample_cache 5 [6] 51 7 70
              sample_cache_wf H1 H2 H3)).
Defined.

(** * Further properties of the indicator base *)

Section indicator_more.
Context {X : Type}.
Implicit Types (self : TechnicalIndicatorBase.t X) (pos : Z).

(** One call on a series whose [calculateValue] does not raise. *)
Lemma getValueAbsolute_direct (calc : Z → Z → option X) (first length_ : Z) self pos :
  cache_inv (TechnicalIndicatorBase.cache self) →
  cache_agrees calc (TechnicalIndicatorBase.windowSize self)
    (TechnicalIndicatorBase.cache self) →
  TechnicalIndicatorBase.windowSize self - 1 ≤ first →
  ∃ o, TechnicalIndicatorBase.getValueAbsolute (series_env calc first length_) self pos
       = Ok o
       ∧ TechnicalIndicatorBase.ret o
         = direct_value calc first length_ (TechnicalIndicatorBase.windowSize self) pos
       ∧ cache_inv (TechnicalIndicatorBase.cache (TechnicalIndicatorBase.self' o))
       ∧ cache_agrees calc (TechnicalIndicatorBase.windowSize self)
           (TechnicalIndicatorBase.cache (TechnicalIndicatorBase.self' o))
       ∧ TechnicalIndicatorBase.windowSize (TechnicalIndicatorBase.self' o)
         = TechnicalIndicatorBase.windowSize self.
Proof.
  intros Hinv Hagree Hfirst.
  unfold TechnicalIndicatorBase.getValueAbsolute, direct_value. simpl.
  destruct (bool_decide (pos < first) || bool_decide (pos >= length_)) eqn:Hb.
  { eexists. split; [done|]. done. }
  apply orb_false_iff in Hb as [Hb1%bool_decide_eq_false Hb2%bool_decide_eq_false].
  destruct (Cache.getValue (TechnicalIndicatorBase.cache self) pos
              TechnicalIndicatorBase.ValueNotCached) as [|v] eqn:Hget.
  - apply (getValue_miss _ _ Hinv) in Hget.
    unfold assert. rewrite bool_decide_eq_true_2 by lia. rewrite !Ok_bind.
    destruct (calc _ pos) as [x|] eqn:Hcalc; [|eexists; split; [done|]; done].
    destruct self as [ws [f|]]; simpl in *.
    + destruct Hinv as [Hwf Hval]. apply fifo_not_cached in Hget.
      destruct (putValue_fresh f pos (TechnicalIndicatorBase.Value (Some x)) Hwf Hget)
        as (f' & -> & Hwf' & _ & _ & Hsub & _).
      simpl. eexists. split; [done|]. simpl.
      split; [done|split; [|split; [|done]]].
      * split; [done|]. intros p v Hv.
        destruct (Hsub _ _ Hv) as [[_ ->]|Hv']; eauto.
      * intros p v Hv. destruct (Hsub _ _ Hv) as [[-> [= ->]]|Hv']; [done|eauto].
    + eexists. split; [done|]. done.
  - eexists. split; [done|]. simpl. split; [|done].
    destruct (TechnicalIndicatorBase.cache self) as [f|]; simpl in *; [|done].
    unfold FIFOCache.getValue in Hget.
    destruct (FIFOCache.cache f !! pos) as [u|] eqn:Hu; [|done]. subst u.
    by apply Hagree.
Qed.

(** X5. The cache is transparent. An indicator as constructed, over a
    series whose first valid position leaves room for the window and whose
    [calculateValue] is a function that does not raise, answers any
    sequence of calls, at any positions and while the series grows, and
    each answer is what it would be with nothing cached: [None] out of
    bounds and the result of [calculateValue] on the window otherwise. *)
Theorem getValuesAbsolute_transparent (calc : Z → Z → option X) (first : Z)
    (windowSize cacheSize : Z) self (calls : list (Z * Z)) :
  TechnicalIndicatorBase.init windowSize cacheSize = Ok self →
  windowSize - 1 ≤ first →
  ∃ final invocations,
    TechnicalIndicatorBase.getValuesAbsolute self
      ((λ c, (series_env calc first c.1, c.2)) <$> calls)
    = Ok ((λ c, direct_value calc first c.1 windowSize c.2) <$> calls,
          final, invocations).
Proof.
  intros Hinit Hfirst.
  destruct (init_inv _ _ _ Hinit) as (_ & Hws & Hinv & Hcache).
  assert (cache_agrees calc windowSize (TechnicalIndicatorBase.cache self)) as Hagree.
  { case_bool_decide; [|by rewrite Hcache].
    destruct Hcache as (f & -> & _ & Hempty). simpl. intros p v.
    by rewrite Hempty, lookup_empty. }
  clear Hinit Hcache. revert self Hws Hinv Hagree.
  induction calls as [|[len p] calls IH]; intros self Hws Hinv Hagree.
  - eexists _, _. done.
  - rewrite <-Hws in Hagree, Hfirst.
    destruct (getValueAbsolute_direct calc first len self p Hinv Hagree Hfirst)
      as (o & Hcall & Hret & Hinv' & Hagree' & Hws').
    rewrite Hws in Hagree', Hws', Hret.
    destruct (IH (TechnicalIndicatorBase.self' o)) as (final & invs & Hrest);
      [congruence|done|done|].
    rewrite !fmap_cons. cbn [TechnicalIndicatorBase.getValuesAbsolute fst snd].
    rewrite Hcall, Ok_bind, Hrest, Ok_bind. rewrite Hret. eexists _, _. done.
Qed.

Lemma getValueAbsolute_capacity (e : TechnicalIndicatorBase.env X) self pos o :
  cache_inv (TechnicalIndicatorBase.cache self) →
  TechnicalIndicatorBase.getValueAbsolute e self pos = Ok o →
  same_capacity (TechnicalIndicatorBase.cache self)
    (TechnicalIndicatorBase.cache (TechnicalIndicatorBase.self' o))
  ∧ (length (TechnicalIndicatorBase.invoked o) ≤ 1)%nat.
Proof.
  intros Hinv.
  assert (same_capacity (TechnicalIndicatorBase.cache self)
            (TechnicalIndicatorBase.cache self)) as Hrefl.
  { by destruct (TechnicalIndicatorBase.cache self). }
  unfold TechnicalIndicatorBase.getValueAbsolute.
  destruct (_ || _); [intros [= <-]; simpl; split; [done|lia]|].
  destruct (Cache.getValue (TechnicalIndicatorBase.cache self) pos _) eqn:Hget;
    [|intros [= <-]; simpl; split; [done|lia]].
  apply (getValue_miss _ _ Hinv) in Hget.
  destruct (assert _); simpl; [|done].
  destruct (TechnicalIndicatorBase.calculateValue e _ pos) as [[x|]|]; simpl;
    [|intros [= <-]; simpl; split; [done|lia]|done].
  destruct self as [ws [f|]]; simpl in *.
  - destruct Hinv as [Hwf Hval]. apply fifo_not_cached in Hget.
    destruct (putValue_fresh f pos (TechnicalIndicatorBase.Value (Some x)) Hwf Hget)
      as (f' & -> & _ & Hsz & _).
    simpl. intros [= <-]. simpl. split; [done|lia].
  - intros [= <-]. simpl. split; [done|lia].
Qed.

Lemma getValuesAbsolute_capacity self (calls : list (TechnicalIndicatorBase.env X * Z))
    rs final invocations :
  cache_inv (TechnicalIndicatorBase.cache self) →
  TechnicalIndicatorBase.getValuesAbsolute self calls = Ok (rs, final, invocations) →
  cache_inv (TechnicalIndicatorBase.cache final)
  ∧ same_capacity (TechnicalIndicatorBase.cache self) (TechnicalIndicatorBase.cache final)
  ∧ TechnicalIndicatorBase.windowSize final = TechnicalIndicatorBase.windowSize self
  ∧ length rs = length calls
  ∧ (length invocations ≤ length calls)%nat.
Proof.
  revert self rs final invocations.
  induction calls as [|[e p] calls IH]; intros self rs final invs Hinv.
  - intros [= <- <- <-]. split_and!; try done.
    by destruct (TechnicalIndicatorBase.cache self).
  - cbn [TechnicalIndicatorBase.getValuesAbsolute].
    destruct (TechnicalIndicatorBase.getValueAbsolute e self p) as [o|] eqn:Hcall;
      [|done].
    rewrite Ok_bind.
    destruct (TechnicalIndicatorBase.getValuesAbsolute _ calls)
      as [[[rs' final'] invs']|] eqn:Hrest; [|done].
    rewrite Ok_bind. intros [= <- <- <-].
    destruct (getValueAbsolute_inv e self p o Hinv Hcall) as [Hinv1 Hws1].
    destruct (getValueAbsolute_capacity e self p o Hinv Hcall) as [Hcap1 Hlen1].
    destruct (IH _ _ _ _ Hinv1 Hrest) as (Hinv2 & Hcap2 & Hws2 & Hlen2 & Hlen3).
    split_and!; [done| |congruence|simpl; lia|rewrite length_app; simpl; lia].
    unfold same_capacity in *.
    destruct (TechnicalIndicatorBase.cache self),
      (TechnicalIndicatorBase.cache (TechnicalIndicatorBase.self' o)),
      (TechnicalIndicatorBase.cache final'); try done. congruence.
Qed.

(** X6. The cache of an indicator is bounded. After any sequence of calls
    that returns, whatever the environments, an indicator constructed with
    a positive cache size still has the bounded cache of that capacity, with
    at most that many entries, all of them present results; one
    constructed with a cache size [≤ 0] still has the null cache. The
    window size is unchanged, every call gave one answer and invoked
    [calculateValue] at most once. *)
Theorem getValuesAbsolute_bounded (windowSize cacheSize : Z) self
    (calls : list (TechnicalIndicatorBase.env X * Z)) rs final invocations :
  TechnicalIndicatorBase.init windowSize cacheSize = Ok self →
  TechnicalIndicatorBase.getValuesAbsolute self calls = Ok (rs, final, invocations) →
  TechnicalIndicatorBase.windowSize final = windowSize
  ∧ length rs = length calls
  ∧ (length invocations ≤ length calls)%nat
  ∧ match TechnicalIndicatorBase.cache final with
    | Cache.FIFO f =>
        0 < cacheSize ∧ FIFOCache.size_ f = cacheSize
        ∧ Z.of_nat (size (FIFOCache.cache f)) ≤ cacheSize
        ∧ ∀ p v, FIFOCache.cache f !! p = Some v →
                 ∃ x, v = TechnicalIndicatorBase.Value (Some x)
    | Cache.Null => cacheSize ≤ 0
    end.
Proof.
  intros Hinit Hcalls.
  destruct (init_inv _ _ _ Hinit) as (_ & Hws & Hinv & Hcache).
  destruct (getValuesAbsolute_capacity _ _ _ _ _ Hinv Hcalls)
    as (Hinv' & Hcap & Hws' & Hlen & Hlen').
  split_and!; [congruence|done|done|].
  unfold same_capacity in Hcap. case_bool_decide as Hcs.
  - destruct Hcache as (f & Hf & Hsz & _). rewrite Hf in Hcap.
    destruct (TechnicalIndicatorBase.cache final) as [f'|]; [|done].
    destruct Hinv' as [Hwf Hval]. split_and!; [lia|congruence| |done].
    rewrite (fifo_wf_size f' Hwf). destruct Hwf as (_ & _ & _ & Hle). lia.
  - rewrite Hcache in Hcap.
    destruct (TechnicalIndicatorBase.cache final) as [f'|]; [done|lia].
Qed.

(** X7. When [calculateValue] does not raise, the only way a call on an
    indicator can fail is the assertion on the window start: the call
    raises exactly when the position is in bounds, not cached, and the
    window would start below position 0, and what it raises is
    [AssertionError]. *)
Theorem getValueAbsolute_fails_only_on_assertion (calc : Z → Z → option X)
    (first length_ : Z) self pos :
  cache_inv (TechnicalIndicatorBase.cache self) →
  (TechnicalIndicatorBase.getValueAbsolute (series_env calc first length_) self pos
   = Raise AssertionError
   ↔ first ≤ pos < length_
     ∧ Cache.isCached (TechnicalIndicatorBase.cache self) pos = false
     ∧ pos - TechnicalIndicatorBase.windowSize self + 1 < 0)
  ∧ (∀ ex, TechnicalIndicatorBase.getValueAbsolute (series_env calc first length_) self pos
           = Raise ex → ex = AssertionError).
Proof.
  intros Hinv.
  unfold TechnicalIndicatorBase.getValueAbsolute. simpl.
  destruct (bool_decide_reflect (pos < first)) as [Hlt|Hge]; simpl.
  { split; [split; [done|lia]|done]. }
  destruct (bool_decide_reflect (pos >= length_)) as [Hge2|Hlt2]; simpl.
  { split; [split; [done|lia]|done]. }
  destruct (Cache.getValue (TechnicalIndicatorBase.cache self) pos
              TechnicalIndicatorBase.ValueNotCached) as [|v] eqn:Hget.
  - apply (getValue_miss _ _ Hinv) in Hget. unfold assert.
    destruct (bool_decide_reflect
                (pos - TechnicalIndicatorBase.windowSize self + 1 >= 0)) as [Hok|Hbad].
    + rewrite !Ok_bind.
      assert (∀ ex, match calc (pos - TechnicalIndicatorBase.windowSize self + 1) pos with
                    | Some _ =>
                        c ← Cache.putValue (TechnicalIndicatorBase.cache self) pos
                              (TechnicalIndicatorBase.Value
                                 (calc (pos - TechnicalIndicatorBase.windowSize self + 1) pos));
                        Ok (TechnicalIndicatorBase.Outcome
                              (calc (pos - TechnicalIndicatorBase.windowSize self + 1) pos)
                              {| TechnicalIndicatorBase.windowSize :=
                                   TechnicalIndicatorBase.windowSize self;
                                 TechnicalIndicatorBase.cache := c |}
                              [(pos - TechnicalIndicatorBase.windowSize self + 1, pos)])
                    | None =>
                        Ok (TechnicalIndicatorBase.Outcome
                              (calc (pos - TechnicalIndicatorBase.windowSize self + 1) pos)
                              self
                              [(pos - TechnicalIndicatorBase.windowSize self + 1, pos)])
                    end ≠ Raise ex) as Hok'.
      { intros ex. destruct (calc _ pos) as [x|]; [|done].
        destruct (TechnicalIndicatorBase.cache self) as [f|]; simpl in *; [|done].
        destruct Hinv as [Hwf _]. apply fifo_not_cached in Hget.
        destruct (putValue_fresh f pos (TechnicalIndicatorBase.Value (Some x)) Hwf Hget)
          as (f' & -> & _). done. }
      split; [split; [by intros ?%Hok'|lia]|by intros ex ?%Hok'].
    + simpl. split; [split; [intros _; repeat split; (done || lia)|done]|].
      by intros ex [= <-].
  - split; [split; [done|]|done].
    intros (_ & Hnc & _). apply (getValue_miss _ _ Hinv) in Hnc. congruence.
Qed.
End indicator_more.

Lemma getValuesAbsolute_transparent_witness :
  (TechnicalIndicatorBase.init 2 4 = Ok sample_indicator ∧ 2 - 1 ≤ 1)
  ∧ ∃ final invocations,
      TechnicalIndicatorBase.getValuesAbsolute sample_indicator
        ((λ c, (series_env sample_calc 1 c.1, c.2)) <$> [(5, 3); (5, 3); (5, 0); (6, 5)])
      = Ok ((λ c, direct_value sample_calc 1 c.1 2 c.2) <$> [(5, 3); (5, 3); (5, 0); (6, 5)],
            final, invocations).
Proof.
  assert (TechnicalIndicatorBase.init 2 4 = Ok sample_indicator) as H1 by reflexivity.
  assert (2 - 1 ≤ 1) as H2 by lia.
  exact (conj (conj H1 H2)
           (getValuesAbsolute_transparent sample_calc 1 2 4 sample_indicator
              [(5, 3); (5, 3); (5, 0); (6, 5)] H1 H2)).
Defined.

Lemma getValuesAbsolute_bounded_witness :
  (TechnicalIndicatorBase.init 2 4 = Ok sample_indicator
   ∧ TechnicalIndicatorBase.getValuesAbsolute sample_indicator
       (replicate 3 (sample_env, 3))
     = Ok (replicate 3 (Some 5),
           TechnicalIndicatorBase.Build 2
             (Cache.FIFO (FIFOCache.Build 4
                            {[3 := TechnicalIndicatorBase.Value (Some 5)]} [3])),
           [(2, 3)]))
  ∧ TechnicalIndicatorBase.windowSize
      (TechnicalIndicatorBase.Build 2
         (Cache.FIFO (FIFOCache.Build 4
                        {[3 := TechnicalIndicatorBase.Value (Some 5)]} [3]))) = 2
  ∧ length (replicate 3 (Some 5)) = length (replicate 3 (sample_env, 3))
  ∧ (length [(2, 3)] ≤ length (replicate 3 (sample_env, 3)))%nat
  ∧ match TechnicalIndicatorBase.cache
            (TechnicalIndicatorBase.Build 2
               (Cache.FIFO (FIFOCache.Build 4
                              {[3 := TechnicalIndicatorBase.Value (Some 5)]} [3]))) with
    | Cache.FIFO f =>
        0 < 4 ∧ FIFOCache.size_ f = 4
        ∧ Z.of_nat (size (FIFOCache.cache f)) ≤ 4
        ∧ ∀ p v, FIFOCache.cache f !! p = Some v →
                 ∃ x, v = TechnicalIndicatorBase.Value (Some x)
    | Cache.Null => 4 ≤ 0
    end.
Proof.
  assert (TechnicalIndicatorBase.init 2 4 = Ok sample_indicator) as H1 by reflexivity.
  assert (TechnicalIndicatorBase.getValuesAbsolute sample_indicator
            (replicate 3 (sample_env, 3))
          = Ok (replicate 3 (Some 5),
                TechnicalIndicatorBase.Build 2
                  (Cache.FIFO (FIFOCache.Build 4
                                 {[3 := TechnicalIndicatorBase.Value (Some 5)]} [3])),
                [(2, 3)])) as H2 by (vm_compute; reflexivity).
  exact (conj (conj H1 H2)
           (getValuesAbsolute_bounded 2 4 sample_indicator
              (replicate 3 (sample_env, 3)) _ _ _ H1 H2)).
Defined.

Lemma getValueAbsolute_fails_only_on_assertion_witness :
  cache_inv (TechnicalIndicatorBase.cache sample_indicator)
  ∧ (TechnicalIndicatorBase.getValueAbsolute (series_env sample_calc 0 5)
       sample_indicator 0 = Raise AssertionError
     ↔ 0 ≤ 0 < 5
       ∧ Cache.isCached (TechnicalIndicatorBase.cache sample_indicator) 0 = false
       ∧ 0 - TechnicalIndicatorBase.windowSize sample_indicator + 1 < 0)
  ∧ (∀ ex, TechnicalIndicatorBase.getValueAbsolute (series_env sample_calc 0 5)
             sample_indicator 0 = Raise ex → ex = AssertionError).
Proof.
  exact (conj sample_indicator_inv
           (getValueAbsolute_fails_only_on_assertion sample_calc 0 5
              sample_indicator 0 sample_indicator_inv)).
Defined.

(** * Further properties of [DataSeriesFilter] *)

(** X8. A [DataSeriesFilter] over a series sets its first valid position to
    [windowSize - 1] past that of the series and starts with an empty
    bounded cache of the default capacity 512. Whatever its indicator
    state, a call that returns answers [None] without invoking
    [calculateValue] below that position and at or beyond the length of
    the series; any invocation it makes is for the window of exactly
    [windowSize] positions ending at the requested position, which lies
    within the valid positions of the series. *)
Theorem DataSeriesFilter_window_in_series {X} (ds : DataSeriesFilter.dataSeries)
    (windowSize : Z) (self : DataSeriesFilter.t X)
    (calc : Z → Z → result (option X)) (b : TechnicalIndicatorBase.t X) (pos : Z)
    (o : TechnicalIndicatorBase.outcome X) :
  DataSeriesFilter.init ds windowSize = Ok self →
  TechnicalIndicatorBase.windowSize b = windowSize →
  TechnicalIndicatorBase.getValueAbsolute (DataSeriesFilter.env_of self ds calc) b pos
  = Ok o →
  DataSeriesFilter.getFirstValidPos self
  = windowSize - 1 + DataSeriesFilter.ds_getFirstValidPos ds
  ∧ TechnicalIndicatorBase.cache (DataSeriesFilter.base self)
    = Cache.FIFO (FIFOCache.Build 512 ∅ [])
  ∧ (pos < windowSize - 1 + DataSeriesFilter.ds_getFirstValidPos ds
     ∨ pos >= DataSeriesFilter.ds_getLength ds →
     o = TechnicalIndicatorBase.Outcome None b [])
  ∧ (∀ firstPos lastPos,
       (firstPos, lastPos) ∈ TechnicalIndicatorBase.invoked o →
       lastPos = pos ∧ lastPos - firstPos + 1 = windowSize
       ∧ DataSeriesFilter.ds_getFirstValidPos ds ≤ firstPos
       ∧ lastPos < DataSeriesFilter.ds_getLength ds).
Proof.
  unfold DataSeriesFilter.init, TechnicalIndicatorBase.init, assert.
  destruct (bool_decide_reflect (windowSize > 0)) as [Hws|Hws]; simpl; [|done].
  intros [= <-] Hb. simpl. intros Hcall.
  split; [done|split; [done|split]].
  - intros Hout.
    unfold TechnicalIndicatorBase.getValueAbsolute in Hcall. simpl in Hcall.
    destruct Hout as [Hlt|Hge].
    + rewrite (bool_decide_eq_true_2 _ Hlt) in Hcall. simpl in Hcall. congruence.
    + rewrite (bool_decide_eq_true_2 _ Hge), orb_true_r in Hcall. congruence.
  - intros f l Hin.
    unfold TechnicalIndicatorBase.getValueAbsolute in Hcall. simpl in Hcall.
    unfold DataSeriesFilter.getLength in Hcall.
    destruct (bool_decide_reflect
                (pos < windowSize - 1 + DataSeriesFilter.ds_getFirstValidPos ds));
      simpl in Hcall; [injection Hcall as <-; by apply not_elem_of_nil in Hin|].
    destruct (bool_decide_reflect (pos >= DataSeriesFilter.ds_getLength ds));
      simpl in Hcall; [injection Hcall as <-; by apply not_elem_of_nil in Hin|].
    destruct (Cache.getValue _ pos _); simpl in Hcall;
      [|injection Hcall as <-; by apply not_elem_of_nil in Hin].
    destruct (assert _); simpl in Hcall; [|done].
    destruct (calc _ pos) as [[x|]|]; simpl in Hcall; [| |done].
    + destruct (Cache.putValue _ pos _); simpl in Hcall; [|done].
      injection Hcall as <-. simpl in Hin.
      apply list_elem_of_singleton in Hin as [= -> ->]. lia.
    + injection Hcall as <-. simpl in Hin.
      apply list_elem_of_singleton in Hin as [= -> ->]. lia.
Qed.

Lemma DataSeriesFilter_window_in_series_witness :
  (DataSeriesFilter.init sample_series 2 = Ok sample_filter
   ∧ TechnicalIndicatorBase.windowSize sample_indicator = 2
   ∧ TechnicalIndicatorBase.getValueAbsolute
       (DataSeriesFilter.env_of sample_filter sample_series
          (λ f l, Ok (sample_calc f l)))
       sample_indicator 3
     = Ok (TechnicalIndicatorBase.Outcome (Some 5) sample_cached_indicator [(2, 3)]))
  ∧ DataSeriesFilter.getFirstValidPos sample_filter
    = 2 - 1 + DataSeriesFilter.ds_getFirstValidPos sample_series
  ∧ TechnicalIndicatorBase.cache (DataSeriesFilter.base sample_filter)
    = Cache.FIFO (FIFOCache.Build 512 ∅ [])
  ∧ (3 < 2 - 1 + DataSeriesFilter.ds_getFirstValidPos sample_series
     ∨ 3 >= DataSeriesFilter.ds_getLength sample_series →
     TechnicalIndicatorBase.Outcome (Some 5) sample_cached_indicator [(2, 3)]
     = TechnicalIndicatorBase.Outcome None sample_indicator [])
  ∧ (∀ firstPos lastPos,
       (firstPos, lastPos)
       ∈ TechnicalIndicatorBase.invoked
           (TechnicalIndicatorBase.Outcome (Some 5) sample_cached_indicator [(2, 3)]) →
       lastPos = 3 ∧ lastPos - firstPos + 1 = 2
       ∧ DataSeriesFilter.ds_getFirstValidPos sample_series ≤ firstPos
       ∧ lastPos < DataSeriesFilter.ds_getLength sample_series).
Proof.
  assert (DataSeriesFilter.init sample_series 2 = Ok sample_filter) as H1
    by reflexivity.
  assert (TechnicalIndicatorBase.windowSize sample_indicator = 2) as H2
    by reflexivity.
  assert (TechnicalIndicatorBase.getValueAbsolute
            (DataSeriesFilter.env_of sample_filter sample_series
               (λ f l, Ok (sample_calc f l)))
            sample_indicator 3
          = Ok (TechnicalIndicatorBase.Outcome (Some 5) sample_cached_indicator
                  [(2, 3)])) as H3 by (vm_compute; reflexivity).
  exact (conj (conj H1 (conj H2 H3))
           (DataSeriesFilter_window_in_series sample_series 2 sample_filter
              (λ f l, Ok (sample_calc f l)) sample_indicator 3 _ H1 H2 H3)).
Defined.

(** * Further properties of [calculate_sma] *)

(** X9. On a list of present values, [calculate_sma] over a non-empty
    range within the list returns the direct average of that slice. *)
Theorem calculate_sma_slice (l : list Qc) (begin end_ : Z) :
  0 ≤ begin < end_ → end_ ≤ Z.of_nat (length l) →
  calculate_sma (Some <$> l) begin end_
  = Ok (Some (average (take (Z.to_nat (end_ - begin)) (drop (Z.to_nat begin) l)))).
Proof.
  intros Hb He. unfold calculate_sma, xrange.
  replace begin with (Z.of_nat (Z.to_nat begin)) at 1 by lia.
  replace (end_ - begin) with (Z.of_nat (Z.to_nat (end_ - begin))) at 1 by lia.
  rewrite calculate_sma_loop_sum by lia. rewrite Ok_bind, Qcplus_0_l.
  rewrite pydiv_Ok, Ok_bind by (apply float_nonzero; lia).
  unfold average. rewrite length_take, length_drop.
  do 3 f_equal. f_equal. lia.
Qed.

Lemma calculate_sma_slice_witness :
  (0 ≤ 1 < 3 ∧ 3 ≤ Z.of_nat (length [Qc_of_Z 4; Qc_of_Z 8; Qc_of_Z 6]))
  ∧ calculate_sma (Some <$> [Qc_of_Z 4; Qc_of_Z 8; Qc_of_Z 6]) 1 3
    = Ok (Some (average (take (Z.to_nat (3 - 1))
                           (drop (Z.to_nat 1) [Qc_of_Z 4; Qc_of_Z 8; Qc_of_Z 6])))).
Proof.
  assert (0 ≤ 1 < 3) as H1 by lia.
  assert (3 ≤ Z.of_nat (length [Qc_of_Z 4; Qc_of_Z 8; Qc_of_Z 6])) as H2
    by (simpl; lia).
  exact (conj (conj H1 H2)
           (calculate_sma_slice [Qc_of_Z 4; Qc_of_Z 8; Qc_of_Z 6] 1 3 H1 H2)).
Defined.

Lemma calculate_sma_loop_None (values : list (option Qc)) (n j i : nat) (accum : Qc) :
  (j + n ≤ length values)%nat → (j ≤ i < j + n)%nat → values !! i = Some None →
  calculate_sma_loop values (seqZ (Z.of_nat j) (Z.of_nat n)) accum = Ok None.
Proof.
  revert j accum. induction n as [|n IH]; intros j accum Hlen Hi Hnone; [lia|].
  rewrite seqZ_cons by lia.
  replace (Z.succ (Z.of_nat j)) with (Z.of_nat (S j)) by lia.
  replace (Z.pred (Z.of_nat (S n))) with (Z.of_nat n) by lia.
  destruct (lookup_lt_is_Some_2 values j) as [v Hv]; [lia|].
  cbn [calculate_sma_loop]. rewrite (getitem_lookup _ j v Hv), Ok_bind.
  destruct v as [x|]; [|done].
  apply IH; [lia| |done].
  destruct (decide (i = j)) as [->|]; [congruence|lia].
Qed.

(** X10. When the range lies within the list and holds a missing value,
    [calculate_sma] returns [None]. *)
Theorem calculate_sma_missing (values : list (option Qc)) (begin end_ : Z) (i : nat) :
  0 ≤ begin → end_ ≤ Z.of_nat (length values) →
  begin ≤ Z.of_nat i < end_ → values !! i = Some None →
  calculate_sma values begin end_ = Ok None.
Proof.
  intros Hb He Hi Hnone. unfold calculate_sma, xrange.
  replace begin with (Z.of_nat (Z.to_nat begin)) at 1 by lia.
  replace (end_ - begin) with (Z.of_nat (Z.to_nat (end_ - begin))) at 1 by lia.
  rewrite (calculate_sma_loop_None values _ _ i) by (done || lia). done.
Qed.

Lemma calculate_sma_missing_witness :
  (0 ≤ 0 ∧ 3 ≤ Z.of_nat (length [Some (Qc_of_Z 4); None; Some (Qc_of_Z 6)])
   ∧ 0 ≤ Z.of_nat 1 < 3
   ∧ [Some (Qc_of_Z 4); None; Some (Qc_of_Z 6)] !! 1%nat = Some None)
  ∧ calculate_sma [Some (Qc_of_Z 4); None; Some (Qc_of_Z 6)] 0 3 = Ok None.
Proof.
  assert (0 ≤ 0) as H1 by lia.
  assert (3 ≤ Z.of_nat (length [Some (Qc_of_Z 4); None; Some (Qc_of_Z 6)])) as H2
    by (simpl; lia).
  assert (0 ≤ Z.of_nat 1 < 3) as H3 by lia.
  assert ([Some (Qc_of_Z 4); None; Some (Qc_of_Z 6)] !! 1%nat = Some None) as H4
    by reflexivity.
  exact (conj (conj H1 (conj H2 (conj H3 H4)))
           (calculate_sma_missing _ 0 3 1 H1 H2 H3 H4)).
Defined.

(** X11. [calculate_sma] over an empty range, [begin = end], raises
    [ZeroDivisionError] whatever the values; over an inverted range,
    [end < begin], it reads no value and returns 0. *)
Theorem calculate_sma_empty_range (values : list (option Qc)) (begin end_ : Z) :
  (end_ = begin → calculate_sma values begin end_ = Raise ZeroDivisionError)
  ∧ (end_ < begin → calculate_sma values begin end_ = Ok (Some 0%Qc)).
Proof.
  unfold calculate_sma, xrange. split.
  - intros ->. rewrite Z.sub_diag, seqZ_nil by lia. done.
  - intros Hlt. rewrite seqZ_nil by lia. simpl.
    rewrite pydiv_Ok by (apply float_nonzero; lia). simpl.
    do 2 f_equal. unfold Qcdiv. by rewrite Qcmult_0_l.
Qed.

Lemma calculate_sma_loop_app (values : list (option Qc)) (idx1 idx2 : list Z) (accum : Qc) :
  calculate_sma_loop values (idx1 ++ idx2) accum
  = r ← calculate_sma_loop values idx1 accum;
    match r with
    | Some a => calculate_sma_loop values idx2 a
    | None => Ok None
    end.
Proof.
  revert accum. induction idx1 as [|i idx1 IH]; intros accum; [done|].
  simpl. destruct (getitem values i) as [[x|]|]; simpl; [|done..]. apply IH.
Qed.

(** X12. On a list of present values, a range that starts within the list
    and ends beyond it makes [calculate_sma] raise [IndexError]. *)
Theorem calculate_sma_beyond_end (l : list Qc) (begin end_ : Z) :
  0 ≤ begin ≤ Z.of_nat (length l) → Z.of_nat (length l) < end_ →
  calculate_sma (Some <$> l) begin end_ = Raise IndexError.
Proof.
  intros Hb He. unfold calculate_sma, xrange.
  replace (end_ - begin)
    with ((Z.of_nat (length l) - begin) + (end_ - Z.of_nat (length l))) by lia.
  rewrite seqZ_app by lia. rewrite calculate_sma_loop_app.
  replace begin with (Z.of_nat (Z.to_nat begin)) at 1 by lia.
  replace (Z.of_nat (length l) - begin)
    with (Z.of_nat (length l - Z.to_nat begin)) at 1 by lia.
  rewrite calculate_sma_loop_sum by lia. rewrite Ok_bind.
  replace (begin + (Z.of_nat (length l) - begin)) with (Z.of_nat (length l)) by lia.
  rewrite seqZ_cons by lia. cbn [calculate_sma_loop].
  unfold getitem. rewrite length_fmap.
  rewrite (bool_decide_eq_false_2 (Z.of_nat (length l) < 0)) by lia. cbv zeta iota.
  rewrite (bool_decide_eq_false_2 (Z.of_nat (length l) < 0)) by lia.
  rewrite Nat2Z.id, lookup_ge_None_2 by (rewrite length_fmap; lia). done.
Qed.

Lemma calculate_sma_beyond_end_witness :
  (0 ≤ 1 ≤ Z.of_nat (length [Qc_of_Z 4; Qc_of_Z 8])
   ∧ Z.of_nat (length [Qc_of_Z 4; Qc_of_Z 8]) < 3)
  ∧ calculate_sma (Some <$> [Qc_of_Z 4; Qc_of_Z 8]) 1 3 = Raise IndexError.
Proof.
  assert (0 ≤ 1 ≤ Z.of_nat (length [Qc_of_Z 4; Qc_of_Z 8])) as H1 by (simpl; lia).
  assert (Z.of_nat (length [Qc_of_Z 4; Qc_of_Z 8]) < 3) as H2 by (simpl; lia).
  exact (conj (conj H1 H2) (calculate_sma_beyond_end [Qc_of_Z 4; Qc_of_Z 8] 1 3 H1 H2)).
Defined.

(** * Further properties of the weighted moving average *)

(** In doubles: whether the division by the sum of the weights raises
    depends on the rounded sum, which the loop of [getValue] computes. *)

Lemma double_WMA_inv_step (weights : list double) (w : Double.WMAEventWindow.t)
    (ps : list double) (v : option double) :
  weights ≠ [] → Double.WMA_inv weights w ps →
  ∃ w', Double.WMAEventWindow.onNewValue w v = Ok w'
        ∧ Double.WMA_inv weights w' (ps ++ Double.present [v]).
Proof.
  intros Hne [Hew Hw]. eexists. split; [done|]. split; [|done]. simpl.
  apply double_EW_inv_step; [|done]. destruct weights; [done|simpl; lia].
Qed.

Lemma double_WMA_inv_init (weights : list double) :
  weights ≠ [] →
  ∃ w, Double.WMAEventWindow.init weights = Ok w ∧ Double.WMA_inv weights w [].
Proof.
  intros Hne. unfold Double.WMAEventWindow.init, assert.
  assert (0 < Z.of_nat (length weights)) by (destruct weights; [done|simpl; lia]).
  rewrite bool_decide_eq_true_2 by lia. rewrite Ok_bind.
  destruct (double_EW_inv_init (Z.of_nat (length weights))) as (w & -> & Hw); [lia|].
  rewrite Ok_bind. eexists. split; [done|]. split; [|done]. simpl.
  by rewrite Nat2Z.id in Hw.
Qed.

Lemma double_getValue_loop_dot (weights xs : list double) (k : nat)
    (accum weightSum : double) :
  (k + length xs ≤ length weights)%nat →
  Double.WMAEventWindow.getValue_loop weights
    (imap (λ i v, ((k + i)%nat, v)) (Some <$> xs)) accum weightSum
  = Ok (foldl (λ acc xw, acc + xw.1 * xw.2)%float accum (zip xs (drop k weights)),
        foldl PrimFloat.add weightSum (take (length xs) (drop k weights))).
Proof.
  revert k accum weightSum.
  induction xs as [|x xs IH]; intros k accum weightSum Hlen; [done|].
  rewrite fmap_cons, imap_cons. cbn [Double.WMAEventWindow.getValue_loop].
  simpl in Hlen.
  destruct (lookup_lt_is_Some_2 weights k) as [wk Hwk]; [lia|].
  rewrite Nat.add_0_r, (getitem_lookup _ k wk Hwk), Ok_bind.
  cbn [Double.num]. rewrite Ok_bind.
  rewrite (imap_ext _ (λ i v, ((S k + i)%nat, v))) by (intros; simpl; f_equal; lia).
  rewrite IH by lia.
  by rewrite (drop_S weights wk k Hwk).
Qed.

Lemma double_WMA_getValue_full (weights : list double) (w : Double.WMAEventWindow.t)
    (ps : list double) :
  weights ≠ [] → Double.WMA_inv weights w ps → (length weights ≤ length ps)%nat →
  Double.WMAEventWindow.getValue w
  = q ← Double.pydiv (Double.dot (lastn (length weights) ps) weights)
                     (Double.sum weights);
    Ok (Some q).
Proof.
  intros Hne [Hew Hw] Hfull. unfold Double.WMAEventWindow.getValue.
  rewrite (double_EW_inv_len _ _ _ Hew). destruct Hew as [Hsz Hvals].
  rewrite Hsz, bool_decide_eq_true_2 by lia.
  rewrite Hvals, Hw.
  assert (length (lastn (length weights) ps) = length weights) as Hlen.
  { rewrite lastn_length. lia. }
  rewrite (imap_ext _ (λ i v, ((0 + i)%nat, v))) by done.
  rewrite double_getValue_loop_dot by (simpl; lia).
  rewrite Ok_bind. by rewrite drop_0, Hlen, firstn_all.
Qed.

Lemma double_WMA_getValue_not_full (weights : list double)
    (w : Double.WMAEventWindow.t) (ps : list double) :
  Double.WMA_inv weights w ps → (length ps < length weights)%nat →
  Double.WMAEventWindow.getValue w = Ok None.
Proof.
  intros [Hew Hw] Hlt. unfold Double.WMAEventWindow.getValue.
  rewrite (double_EW_inv_len _ _ _ Hew). destruct Hew as [Hsz _].
  by rewrite Hsz, bool_decide_eq_false_2 by lia.
Qed.

Lemma double_WMA_getValue_ref (weights : list double) (w : Double.WMAEventWindow.t)
    (ps : list double) :
  weights ≠ [] → PrimFloat.eqb (Double.sum weights) 0%float = false →
  Double.WMA_inv weights w ps →
  Double.WMAEventWindow.getValue w = Ok (Double.wma_ref weights ps).
Proof.
  intros Hne Hsum Hinv. unfold Double.wma_ref. case_decide as Hfull.
  - rewrite (double_WMA_getValue_full weights w ps) by done.
    by rewrite double_pydiv_Ok.
  - apply (double_WMA_getValue_not_full weights w ps); [done|lia].
Qed.

(** X13. In doubles, for a non-empty list of weights whose rounded sum
    [((0 + w0) + w1) + ...] is not zero, the [WMA] filter accepts any
    history of samples and appends one value per sample: nothing until as
    many present samples as there are weights have arrived, then the
    rounded sum of the last present samples times their weights, oldest
    sample with the first weight, divided by the rounded sum of the
    weights. The weights 1e16, 1, -1e16, -1 are such a list: their exact
    sum is zero, their rounded sum is -1. *)
Theorem WMA_filter_values (weights : list double) (vs : list (option double)) :
  weights ≠ [] → PrimFloat.eqb (Double.sum weights) 0%float = false →
  ∃ f f', Double.WMA weights = Ok f ∧ Double.EventBasedFilter.feed f vs = Ok f'
          ∧ length (Double.EventBasedFilter.appended f') = length vs
          ∧ ∀ i : nat, (i < length vs)%nat →
              Double.EventBasedFilter.appended f' !! i
              = Some (Double.wma_ref weights (Double.present (take (S i) vs))).
Proof.
  intros Hne Hsum. destruct (double_WMA_inv_init weights Hne) as (w & Hinit & Hinv).
  unfold Double.WMA. rewrite Hinit, Ok_bind.
  destruct (double_filter_feed_inv (H:=Double.WMA_window)
              (Double.WMA_inv weights) (Double.wma_ref weights)
              (λ w ps v H, double_WMA_inv_step weights w ps v Hne H)
              (λ w ps H, double_WMA_getValue_ref weights w ps Hne Hsum H)
              (Double.EventBasedFilter.init w) [] vs Hinv)
    as (f' & Hfeed & _ & Happ).
  exists (Double.EventBasedFilter.init w), f'. simpl in Happ.
  split_and!; [done|done| |].
  - by rewrite Happ, double_outputs_length.
  - intros i Hi. by rewrite Happ, double_outputs_lookup.
Qed.

Lemma WMA_filter_values_witness :
  ([1e16; 1; -1e16; -1]%float ≠ []
   ∧ PrimFloat.eqb (Double.sum [1e16; 1; -1e16; -1]%float) 0%float = false)
  ∧ ∃ f f', Double.WMA [1e16; 1; -1e16; -1]%float = Ok f
      ∧ Double.EventBasedFilter.feed f (Some <$> [1; 2; 3; 4]%float) = Ok f'
      ∧ length (Double.EventBasedFilter.appended f')
        = length (Some <$> [1; 2; 3; 4]%float)
      ∧ ∀ i : nat, (i < length (Some <$> [1; 2; 3; 4]%float))%nat →
          Double.EventBasedFilter.appended f' !! i
          = Some (Double.wma_ref [1e16; 1; -1e16; -1]%float
                    (Double.present (take (S i) (Some <$> [1; 2; 3; 4]%float)))).
Proof.
  assert ([1e16; 1; -1e16; -1]%float ≠ []) as H1 by discriminate.
  assert (PrimFloat.eqb (Double.sum [1e16; 1; -1e16; -1]%float) 0%float = false)
    as H2 by (by vm_compute).
  exact (conj (conj H1 H2)
           (WMA_filter_values [1e16; 1; -1e16; -1]%float
              (Some <$> [1; 2; 3; 4]%float) H1 H2)).
Defined.

Lemma double_WMA_zero_feed (weights : list double)
    (f : Double.EventBasedFilter.t Double.WMAEventWindow.t)
    (ps : list double) (vs : list (option double)) :
  weights ≠ [] → PrimFloat.eqb (Double.sum weights) 0%float = true →
  Double.WMA_inv weights (Double.EventBasedFilter.eventWindow f) ps →
  (length ps < length weights)%nat →
  (length weights ≤ length ps + length (Double.present vs))%nat →
  Double.EventBasedFilter.feed f vs = Raise ZeroDivisionError.
Proof.
  intros Hne Hsum. revert f ps.
  induction vs as [|v vs IH]; intros f ps Hinv Hlt Hge; [simpl in Hge; lia|].
  destruct (double_WMA_inv_step weights _ ps v Hne Hinv) as (w1 & Hstep & Hinv1).
  cbn [Double.EventBasedFilter.feed]. unfold Double.EventBasedFilter.onNewValue.
  cbn [Double.ew_onNewValue Double.ew_getValue Double.WMA_window].
  rewrite Hstep, Ok_bind.
  rewrite double_present_cons, length_app in Hge.
  destruct (decide (length weights ≤ length (ps ++ Double.present [v]))%nat)
    as [Hfull|Hnot].
  - rewrite (double_WMA_getValue_full weights w1 _ Hne Hinv1 Hfull).
    by rewrite double_pydiv_zero.
  - rewrite (double_WMA_getValue_not_full weights w1 _ Hinv1) by lia.
    rewrite !Ok_bind.
    apply (IH (Double.EventBasedFilter.Build w1 _) (ps ++ Double.present [v]) Hinv1);
      rewrite length_app in *; lia.
Qed.

(** X14. In doubles, weights whose rounded sum is zero (of either sign)
    are accepted by the constructor, but the [WMA] filter then raises
    [ZeroDivisionError] on any history that holds as many present samples
    as there are weights (at the sample that fills the window). The weights
    1e16, 1, -1e16 are such a list: their exact sum is 1, their rounded
    sum is 0. *)
Theorem WMA_zero_weight_sum (weights : list double) (vs : list (option double)) :
  weights ≠ [] → PrimFloat.eqb (Double.sum weights) 0%float = true →
  (length weights ≤ length (Double.present vs))%nat →
  ∃ f, Double.WMA weights = Ok f
       ∧ Double.EventBasedFilter.feed f vs = Raise ZeroDivisionError.
Proof.
  intros Hne Hsum Hlen.
  destruct (double_WMA_inv_init weights Hne) as (w & Hinit & Hinv).
  unfold Double.WMA. rewrite Hinit, Ok_bind. eexists. split; [done|].
  apply (double_WMA_zero_feed weights (Double.EventBasedFilter.init w) [] vs
           Hne Hsum Hinv); simpl; [|lia].
  destruct weights; [done|simpl; lia].
Qed.

Lemma WMA_zero_weight_sum_witness :
  ([1e16; 1; -1e16]%float ≠ []
   ∧ PrimFloat.eqb (Double.sum [1e16; 1; -1e16]%float) 0%float = true
   ∧ (length [1e16; 1; -1e16]%float
      ≤ length (Double.present [Some 5; None; Some 7; Some 9]%float))%nat)
  ∧ ∃ f, Double.WMA [1e16; 1; -1e16]%float = Ok f
         ∧ Double.EventBasedFilter.feed f [Some 5; None; Some 7; Some 9]%float
           = Raise ZeroDivisionError.
Proof.
  assert ([1e16; 1; -1e16]%float ≠ []) as H1 by discriminate.
  assert (PrimFloat.eqb (Double.sum [1e16; 1; -1e16]%float) 0%float = true)
    as H2 by (by vm_compute).
  assert (length [1e16; 1; -1e16]%float
          ≤ length (Double.present [Some 5; None; Some 7; Some 9]%float))%nat as H3
    by (simpl; lia).
  exact (conj (conj H1 (conj H2 H3))
           (WMA_zero_weight_sum [1e16; 1; -1e16]%float
              [Some 5; None; Some 7; Some 9]%float H1 H2 H3)).
Defined.

(** * How the filters relate *)

Lemma outputs_ext (ref1 ref2 : list Qc → option Qc) (ps : list Qc)
    (vs : list (option Qc)) :
  (∀ i : nat, (i < length vs)%nat →
     ref1 (ps ++ present (take (S i) vs)) = ref2 (ps ++ present (take (S i) vs))) →
  outputs ref1 ps vs = outputs ref2 ps vs.
Proof.
  intros Hext. apply list_eq. intros i.
  destruct (decide (i < length vs)%nat) as [Hi|Hi].
  - by rewrite !outputs_lookup, Hext by done.
  - by rewrite !lookup_ge_None_2 by (rewrite outputs_length; lia).
Qed.

Lemma present_take_length (vs : list (option Qc)) (k : nat) :
  (length (present (take k vs)) ≤ length (present vs))%nat.
Proof.
  rewrite <-(take_drop k vs) at 2. rewrite present_app, length_app. lia.
Qed.

Lemma sma_ref_short (n : nat) (m : Qc) (ps : list Qc) :
  (length ps ≤ n)%nat → ema_ref n m ps = sma_ref n ps.
Proof.
  intros Hle. destruct (decide (length ps = n)) as [Heq|Hne].
  - rewrite ema_ref_seed, sma_ref_Some, lastn_all by lia. done.
  - rewrite ema_ref_None, sma_ref_None by lia. done.
Qed.

(** X16. The exponential moving average starts as the simple one: on any
    history with at most [N] present samples the [EMA] filter of period
    [N] appends the same values as the [SMA] filter of period [N], so its
    first value is the SMA value at that position. *)
Theorem EMA_starts_as_SMA (N : Z) (vs : list (option Qc)) :
  1 < N → (length (present vs) ≤ Z.to_nat N)%nat →
  ∃ fs fs' fe fe',
    SMA N = Ok fs ∧ EventBasedFilter.feed fs vs = Ok fs'
    ∧ EMA N = Ok fe ∧ EventBasedFilter.feed fe vs = Ok fe'
    ∧ EventBasedFilter.appended fe' = EventBasedFilter.appended fs'.
Proof.
  intros HN Hlen.
  destruct (SMA_feed N vs) as (fs & fs' & Hs & Hsf & _ & Hsa); [lia|].
  destruct (EMA_feed N vs HN) as (fe & fe' & He & Hef & _ & Hea).
  exists fs, fs', fe, fe'. split_and!; [done..|].
  rewrite Hsa, Hea. apply outputs_ext. intros i _. simpl.
  apply sma_ref_short. pose proof (present_take_length vs (S i)). lia.
Qed.

Lemma EMA_starts_as_SMA_witness :
  (1 < 2 ∧ (length (present [Some (Qc_of_Z 5); None; Some (Qc_of_Z 7)])
            ≤ Z.to_nat 2)%nat)
  ∧ ∃ fs fs' fe fe',
      SMA 2 = Ok fs
      ∧ EventBasedFilter.feed fs [Some (Qc_of_Z 5); None; Some (Qc_of_Z 7)] = Ok fs'
      ∧ EMA 2 = Ok fe
      ∧ EventBasedFilter.feed fe [Some (Qc_of_Z 5); None; Some (Qc_of_Z 7)] = Ok fe'
      ∧ EventBasedFilter.appended fe' = EventBasedFilter.appended fs'.
Proof.
  assert (1 < 2) as H1 by lia.
  assert (length (present [Some (Qc_of_Z 5); None; Some (Qc_of_Z 7)])
          ≤ Z.to_nat 2)%nat as H2 by (simpl; lia).
  exact (conj (conj H1 H2)
           (EMA_starts_as_SMA 2 [Some (Qc_of_Z 5); None; Some (Qc_of_Z 7)] H1 H2)).
Defined.

(** * Missing samples *)

Lemma outputs_hold (ref : list Qc → option Qc) (ps : list Qc)
    (vs : list (option Qc)) (i : nat) :
  vs !! i = Some None →
  outputs ref ps vs !! i
  = match i with
    | O => Some (ref ps)
    | S j => outputs ref ps vs !! j
    end.
Proof.
  intros Hi. pose proof (lookup_lt_Some _ _ _ Hi) as Hlt.
  rewrite outputs_lookup by done.
  rewrite (take_S_r vs i None Hi), present_app.
  change (present [None]) with (@nil Qc). rewrite app_nil_r.
  destruct i as [|j]; [by rewrite app_nil_r|].
  rewrite outputs_lookup by lia. done.
Qed.

(** X19. A missing sample repeats the previous output: at a position
    where the sample is [None], the [SMA] filter, and for [N > 1] the
    [EMA] filter, append the value they appended at the position before
    ([None] at position 0). *)
Theorem missing_sample_repeats_output (N : Z) (vs : list (option Qc)) (i : nat) :
  0 < N → vs !! i = Some None →
  (∃ f f', SMA N = Ok f ∧ EventBasedFilter.feed f vs = Ok f'
     ∧ EventBasedFilter.appended f' !! i
       = match i with
         | O => Some None
         | S j => EventBasedFilter.appended f' !! j
         end)
  ∧ (1 < N →
     ∃ f f', EMA N = Ok f ∧ EventBasedFilter.feed f vs = Ok f'
       ∧ EventBasedFilter.appended f' !! i
         = match i with
           | O => Some None
           | S j => EventBasedFilter.appended f' !! j
           end).
Proof.
  intros HN Hi. split.
  - destruct (SMA_feed N vs HN) as (f & f' & Hf & Hfeed & _ & Happ).
    exists f, f'. split_and!; [done..|].
    rewrite Happ, (outputs_hold _ _ _ _ Hi).
    destruct i; [|done]. rewrite sma_ref_None; [done|simpl; lia].
  - intros HN1. destruct (EMA_feed N vs HN1) as (f & f' & Hf & Hfeed & _ & Happ).
    exists f, f'. split_and!; [done..|].
    rewrite Happ, (outputs_hold _ _ _ _ Hi).
    destruct i; [|done]. rewrite ema_ref_None; [done|simpl; lia].
Qed.

Lemma missing_sample_repeats_output_witness :
  (0 < 2 ∧ [Some (Qc_of_Z 5); Some (Qc_of_Z 7); None] !! 2%nat = Some None)
  ∧ (∃ f f', SMA 2 = Ok f
       ∧ EventBasedFilter.feed f [Some (Qc_of_Z 5); Some (Qc_of_Z 7); None] = Ok f'
       ∧ EventBasedFilter.appended f' !! 2%nat = EventBasedFilter.appended f' !! 1%nat)
  ∧ (1 < 2 →
     ∃ f f', EMA 2 = Ok f
       ∧ EventBasedFilter.feed f [Some (Qc_of_Z 5); Some (Qc_of_Z 7); None] = Ok f'
       ∧ EventBasedFilter.appended f' !! 2%nat = EventBasedFilter.appended f' !! 1%nat).
Proof.
  assert (0 < 2) as H1 by lia.
  assert ([Some (Qc_of_Z 5); Some (Qc_of_Z 7); None] !! 2%nat = Some None) as H2
    by reflexivity.
  exact (conj (conj H1 H2)
           (missing_sample_repeats_output 2
              [Some (Qc_of_Z 5); Some (Qc_of_Z 7); None] 2 H1 H2)).
Defined.
